(** * The asynchronous [loop] of libprocess (process/loop.hpp)

    A shallow embedding of [process::loop], its driver [internal::run] and
    the anonymous-process helper, over an explicit store of futures and the
    inbox of the process that hosts the loop.  Execution on [pid] is
    serialised: one closure taken from the inbox runs to completion before
    the next one starts.  Everything outside [pid] (the caller that holds
    the returned future, the producers of the futures that [iterate] and
    [body] hand out) acts between two such executions.

    A producer that settles a future while a closure of [pid] is running
    is not lost to this view: a closure reads the state of a future once
    after it last wrote to it, and [onAny] fires at once on a future that
    is settled already, so such a run ends as the one where the producer
    acts right after the closure.

    The two callables are functions of a state [U] of their own: they
    neither touch the loop nor the future it returns.  Every call hands
    out a new cell of the store; a callable that hands out one future
    twice can do so only once that future is ready, when a second cell
    with the same value behaves alike. *)

From Stdlib Require Strings.String.
From stdpp Require Import base list.

Local Open Scope nat_scope.

(** ** Futures *)

(** [Future<T>::State] *)
Inductive State (A : Type) : Type :=
| PENDING
| READY (a : A)
| FAILED (message : String.string)
| DISCARDED.
Arguments PENDING {A}.
Arguments READY {A} a.
Arguments FAILED {A} message.
Arguments DISCARDED {A}.

(** Modelled from the spec: process/pid.hpp and process/defer.hpp are not
    among the sources.  The execution contexts: [Pid] is the [pid] handed
    to [loop]; [Executor] is the context that the [defer] without a pid
    binds to in the helper, the one the helper was called from, which is
    not the process the helper has just spawned. *)
Inductive UPID : Type := Pid | Executor.

(** The closures this file hands to [dispatch] and [defer], named after
    where they are written in loop.hpp. *)
Inductive Closure : Type :=
| Bootstrap       (* loop.hpp:204-210 *)
| ConditionWake   (* loop.hpp:155-171 *)
| FutureWake      (* loop.hpp:177-185 *)
| RootDiscard     (* loop.hpp:218-226 *)
| Cleanup.        (* loop.hpp:104-111 *)

(** Modelled from the spec: [defer(pid, f)] is a callable that posts [f]
    to [pid] when invoked. *)
Definition Deferred : Type := UPID * Closure.

(** Modelled from the spec: process/future.hpp is not among the sources.
    The shared cell behind a [Future<A>]: its state, the recorded discard
    request ([hasDiscard]), and the callbacks subscribed with [onDiscard]
    and [onAny].  [reaction] stands for what the producer of the future
    has arranged to do when a discard is requested: [PENDING] ignores the
    request, any other state settles the future to it on the spot. *)
Record Data (A : Type) : Type := mkData {
  state : State A;
  discard : bool;
  onDiscardCallbacks : list Deferred;
  onAnyCallbacks : list Deferred;
  reaction : State A
}.
Arguments mkData {A}.
Arguments state {A}.
Arguments discard {A}.
Arguments onDiscardCallbacks {A}.
Arguments onAnyCallbacks {A}.
Arguments reaction {A}.

(** A default-constructed [Future<A>()]: pending, and no promise for it
    exists anywhere. *)
Definition Future_default {A : Type} : Data A := mkData PENDING false [] [] PENDING.

Definition isPending {A} (d : Data A) : bool :=
  match state d with PENDING => true | _ => false end.
Definition isReady {A} (d : Data A) : bool :=
  match state d with READY _ => true | _ => false end.
Definition isFailed {A} (d : Data A) : bool :=
  match state d with FAILED _ => true | _ => false end.
Definition isDiscarded {A} (d : Data A) : bool :=
  match state d with DISCARDED => true | _ => false end.
Definition hasDiscard {A} (d : Data A) : bool := discard d.

(** Modelled from the spec: [Promise::set], [fail] and [discard] share this
    transition.  A pending future moves to [s], its callbacks are handed
    back to be run and dropped from the cell; a settled future is left as
    it is. *)
Definition settle {A} (s : State A) (d : Data A) : Data A * list Deferred :=
  match state d with
  | PENDING => (mkData s (discard d) [] [] (reaction d), onAnyCallbacks d)
  | _ => (d, [])
  end.

(** Modelled from the spec: [Future::discard()].  The request is recorded on
    a pending future only, and once; the [onDiscard] callbacks run, and so
    does the producer's own reaction. *)
Definition request_discard {A} (d : Data A) : Data A * list Deferred :=
  if negb (discard d) && isPending d then
    let d1 := mkData (state d) true [] (onAnyCallbacks d) (reaction d) in
    match reaction d with
    | PENDING => (d1, onDiscardCallbacks d)
    | s => let (d2, cbs) := settle s d1 in (d2, onDiscardCallbacks d ++ cbs)
    end
  else (d, []).

(** Modelled from the spec: [Future::onAny(f)].  On a pending future [f]
    is kept for the transition to a terminal state and fires once; on a
    future that is settled already [f] is invoked at once (a future that
    [iterate] hands out failed still fails the loop). *)
Definition subscribe_onAny {A} (f : Deferred) (d : Data A) : Data A * list Deferred :=
  match state d with
  | PENDING =>
      (mkData (state d) (discard d) (onDiscardCallbacks d)
              (onAnyCallbacks d ++ [f]) (reaction d), [])
  | _ => (d, [f])
  end.

(** Modelled from the spec: [Future::onDiscard(f)].  When a discard is
    already recorded [f] is invoked at once; on a pending future it is
    kept; on a settled one it is dropped. *)
Definition subscribe_onDiscard {A} (f : Deferred) (d : Data A) : Data A * list Deferred :=
  if discard d then (d, [f])
  else match state d with
       | PENDING =>
           (mkData (state d) (discard d) (onDiscardCallbacks d ++ [f])
                   (onAnyCallbacks d) (reaction d), [])
       | _ => (d, [])
       end.

(** What a call of [iterate] or [body] hands back: the state the new future
    is in when the driver first looks at it, and the producer's reaction to
    a discard request. *)
Record Returned (A : Type) : Type := mkReturned {
  returned : State A;
  honors : State A
}.
Arguments mkReturned {A}.
Arguments returned {A}.
Arguments honors {A}.

Definition Future_of {A} (r : Returned A) : Data A :=
  mkData (returned r) false [] [] (honors r).

(** The lifetime of the process that the helper spawns. *)
Inductive Lifecycle : Type :=
| Supplied    (* [pid] belongs to the caller of [loop(pid, ...)] *)
| Spawned     (* [spawn(process)] done, [onAny] not yet attached *)
| Attached    (* the helper has returned *)
| Deleted.    (* [delete process] done *)

Section LoopModel.

(** [U] is whatever the two callables close over; [T] is the value type
    of [iterate]. *)
Context {U T : Type}.
Variable iterate : U -> U * Returned T.
Variable body : T -> U -> U * Returned bool.

(** What the driver did, oldest first.  Ghost state: nothing reads it. *)
Inductive Event : Type :=
| EvIterate                   (* [loop->iterate()] *)
| EvBody (v : T)              (* [loop->body(v)] *)
| EvRun                       (* entry into [internal::run] *)
| EvOnAny                     (* an [onAny] subscription *)
| EvSet                       (* [promise.set(Nothing())] *)
| EvFail (r : String.string)  (* [promise.fail(r)] *)
| EvDiscard.                  (* [promise.discard()] *)

(** [internal::Loop]: [pid], [iterate] and [body] never change and are the
    section's; [future] and [condition] are references into the store. *)
Record Loop : Type := mkLoop {
  promise : Data unit;
  future : nat;
  condition : nat
}.

Record World : Type := mkWorld {
  user : U;
  futures : list (Data T);        (* every [Future<T>], by address *)
  conditions : list (Data bool);  (* every [Future<bool>], by address *)
  loop_state : Loop;
  mailbox : list Closure;         (* inbox of [Pid], oldest first *)
  executor : list Closure;        (* inbox of [Executor] *)
  process : Lifecycle;
  history : list Event
}.

Definition set_user (u : U) (w : World) : World :=
  mkWorld u (futures w) (conditions w) (loop_state w) (mailbox w)
          (executor w) (process w) (history w).
Definition set_futures (fs : list (Data T)) (w : World) : World :=
  mkWorld (user w) fs (conditions w) (loop_state w) (mailbox w)
          (executor w) (process w) (history w).
Definition set_conditions (cs : list (Data bool)) (w : World) : World :=
  mkWorld (user w) (futures w) cs (loop_state w) (mailbox w)
          (executor w) (process w) (history w).
Definition set_loop (l : Loop) (w : World) : World :=
  mkWorld (user w) (futures w) (conditions w) l (mailbox w)
          (executor w) (process w) (history w).
Definition set_mailbox (m : list Closure) (w : World) : World :=
  mkWorld (user w) (futures w) (conditions w) (loop_state w) m
          (executor w) (process w) (history w).
Definition set_executor (m : list Closure) (w : World) : World :=
  mkWorld (user w) (futures w) (conditions w) (loop_state w) (mailbox w)
          m (process w) (history w).
Definition set_process (p : Lifecycle) (w : World) : World :=
  mkWorld (user w) (futures w) (conditions w) (loop_state w) (mailbox w)
          (executor w) p (history w).
Definition log (e : Event) (w : World) : World :=
  mkWorld (user w) (futures w) (conditions w) (loop_state w) (mailbox w)
          (executor w) (process w) (history w ++ [e]).

Definition set_promise (d : Data unit) (w : World) : World :=
  set_loop (mkLoop d (future (loop_state w)) (condition (loop_state w))) w.
Definition set_future (i : nat) (w : World) : World :=
  set_loop (mkLoop (promise (loop_state w)) i (condition (loop_state w))) w.
Definition set_condition (i : nat) (w : World) : World :=
  set_loop (mkLoop (promise (loop_state w)) (future (loop_state w)) i) w.

(** Modelled from the spec: [dispatch(pid, f)] enqueues [f] on [pid],
    first in, first out. *)
Definition dispatch (pid : UPID) (f : Closure) (w : World) : World :=
  match pid with
  | Pid => set_mailbox (mailbox w ++ [f]) w
  | Executor => set_executor (executor w ++ [f]) w
  end.

(** The closures that invoking [fs] posts to [pid], in order. *)
Definition posted (pid : UPID) (fs : list Deferred) : list Closure :=
  match pid with
  | Pid => flat_map (fun f => match fst f with Pid => [snd f] | Executor => [] end) fs
  | Executor =>
      flat_map (fun f => match fst f with Pid => [] | Executor => [snd f] end) fs
  end.

(** Invoking deferred callbacks, in order. *)
Definition invoke (fs : list Deferred) (w : World) : World :=
  foldl (fun w f => dispatch (fst f) (snd f) w) w fs.

(** ** The slots of the loop *)

(** The cells [loop->future] and [loop->condition] refer to. *)
Definition the_future (w : World) : Data T :=
  default Future_default (futures w !! future (loop_state w)).
Definition the_condition (w : World) : Data bool :=
  default Future_default (conditions w !! condition (loop_state w)).

Definition update_future (r : Data T * list Deferred) (w : World) : World :=
  invoke (snd r) (set_futures (<[future (loop_state w) := fst r]> (futures w)) w).
Definition update_condition (r : Data bool * list Deferred) (w : World) : World :=
  invoke (snd r)
         (set_conditions (<[condition (loop_state w) := fst r]> (conditions w)) w).
Definition update_promise (r : Data unit * list Deferred) (w : World) : World :=
  invoke (snd r) (set_promise (fst r) w).

(** [loop->future = loop->iterate();] *)
Definition assign_future (w : World) : World :=
  let (u, r) := iterate (user w) in
  log EvIterate
      (set_future (length (futures w))
                  (set_futures (futures w ++ [Future_of r]) (set_user u w))).

(** [loop->condition = loop->body(v);] *)
Definition assign_condition (v : T) (w : World) : World :=
  let (u, r) := body v (user w) in
  log (EvBody v)
      (set_condition (length (conditions w))
                     (set_conditions (conditions w ++ [Future_of r]) (set_user u w))).

(** [loop->future.discard();] and [loop->condition.discard();] *)
Definition future_discard (w : World) : World :=
  update_future (request_discard (the_future w)) w.
Definition condition_discard (w : World) : World :=
  update_condition (request_discard (the_condition w)) w.

(** [loop->future.onAny(f)] and [loop->condition.onAny(f)] *)
Definition future_onAny (f : Deferred) (w : World) : World :=
  update_future (subscribe_onAny f (the_future w)) (log EvOnAny w).
Definition condition_onAny (f : Deferred) (w : World) : World :=
  update_condition (subscribe_onAny f (the_condition w)) (log EvOnAny w).

(** [loop->promise.set(Nothing())], [.fail(r)], [.discard()] *)
Definition promise_set (w : World) : World :=
  update_promise (settle (READY tt) (promise (loop_state w))) (log EvSet w).
Definition promise_fail (r : String.string) (w : World) : World :=
  update_promise (settle (FAILED r) (promise (loop_state w))) (log (EvFail r) w).
Definition promise_discard (w : World) : World :=
  update_promise (settle DISCARDED (promise (loop_state w))) (log EvDiscard w).

(** ** [internal::run] (loop.hpp:134-186)

    [fuel] bounds the number of turns of the [while]; [None] says that the
    bound was reached before [run] returned. *)
Fixpoint run_while (fuel : nat) (w : World) : option World :=
  match state (the_future w) with
  | READY v =>                        (* while (loop->future.isReady()) *)
      match fuel with
      | O => None
      | S fuel' =>
          let w := assign_condition v w in
          let w := if hasDiscard (promise (loop_state w))
                   then condition_discard w else w in
          match state (the_condition w) with
          | READY true =>
              let w := assign_future w in
              let w := if hasDiscard (promise (loop_state w))
                       then future_discard w else w in
              run_while fuel' w       (* continue *)
          | READY false =>
              Some (promise_set w)    (* return *)
          | _ =>
              Some (condition_onAny (Pid, ConditionWake) w)   (* return *)
          end
      end
  | _ => Some (future_onAny (Pid, FutureWake) w)
  end.

Definition run (fuel : nat) (w : World) : option World :=
  run_while fuel (log EvRun w).

(** The continuation on [loop->condition] (loop.hpp:155-171). *)
Definition condition_wake (fuel : nat) (w : World) : option World :=
  match state (the_condition w) with
  | READY true =>
      let w := assign_future w in
      let w := if hasDiscard (promise (loop_state w))
               then future_discard w else w in
      run fuel w
  | READY false => Some (promise_set w)
  | FAILED r => Some (promise_fail r w)
  | DISCARDED => Some (promise_discard w)
  | PENDING => Some w
  end.

(** The continuation on [loop->future] (loop.hpp:177-185). *)
Definition future_wake (fuel : nat) (w : World) : option World :=
  match state (the_future w) with
  | READY _ => run fuel w
  | FAILED r => Some (promise_fail r w)
  | DISCARDED => Some (promise_discard w)
  | PENDING => Some w
  end.

(** The closure dispatched by [loop] (loop.hpp:204-210). *)
Definition bootstrap (fuel : nat) (w : World) : option World :=
  let w := assign_future w in
  let w := if hasDiscard (promise (loop_state w)) then future_discard w else w in
  run fuel w.

(** The single discard hook (loop.hpp:218-226). *)
Definition root_discard (w : World) : World :=
  let w := future_discard w in
  condition_discard w.

(** Modelled from the spec: [terminate], [wait] and [delete] are not among
    the sources.  [wait(process)] returns once [process] has terminated;
    executed by [process] itself it never returns. *)
Definition cleanup (self : UPID) (w : World) : option World :=
  match self with
  | Pid => None
  | Executor => Some (set_process Deleted (set_mailbox [] w))
  end.

(** One closure executed by [self]. *)
Definition execute (self : UPID) (fuel : nat) (f : Closure) (w : World)
  : option World :=
  match f with
  | Bootstrap => bootstrap fuel w
  | ConditionWake => condition_wake fuel w
  | FutureWake => future_wake fuel w
  | RootDiscard => Some (root_discard w)
  | Cleanup => cleanup self w
  end.

(** ** [process::loop] (loop.hpp:191-229) *)

Definition new_Loop (u : U) : World :=
  mkWorld u [Future_default] [Future_default]
          (mkLoop Future_default 0 0) [] [] Supplied [].

Definition loop (u : U) : World :=
  let w := new_Loop u in
  let w := dispatch Pid Bootstrap w in
  update_promise
    (subscribe_onDiscard (Pid, RootDiscard) (promise (loop_state w))) w.

(** ** The helper (loop.hpp:95-112)

    [loop_helper] is the helper up to the return of the inner [loop];
    [attach] is its [.onAny(defer(...))], which the spawned process may
    overtake. *)
Definition loop_helper (u : U) : World :=
  set_process Spawned (loop u).

Definition attach (w : World) : World :=
  set_process Attached
    (update_promise
       (subscribe_onAny (Executor, Cleanup) (promise (loop_state w))) w).

(** ** Steps of the whole system *)

Definition terminal {A} (s : State A) : bool :=
  match s with PENDING => false | _ => true end.

(** What can happen next.  A producer settles only futures that a
    callable has handed out: the cells at address 0 are the
    default-constructed members of [Loop], for which no promise exists. *)
Inductive Label : Type :=
| Deliver                                  (* [Pid] runs its oldest closure *)
| DeliverExecutor                          (* [Executor] runs its oldest closure *)
| SettleFuture (i : nat) (s : State T)     (* a producer settles a value *)
| SettleCondition (i : nat) (s : State bool)
| DiscardOuter                             (* the caller discards the result *)
| UserStep (u : U)                         (* the callables' state changes *)
| Attach.                                  (* the helper attaches its cleanup *)

Definition alive (p : Lifecycle) : bool :=
  match p with Deleted => false | _ => true end.

(** [None]: the step is not enabled, or [fuel] did not suffice. *)
Definition exec (fuel : nat) (l : Label) (w : World) : option World :=
  match l with
  | Deliver =>
      match mailbox w with
      | f :: rest =>
          if alive (process w)
          then execute Pid fuel f (set_mailbox rest w)
          else None
      | [] => None
      end
  | DeliverExecutor =>
      match executor w with
      | f :: rest => execute Executor fuel f (set_executor rest w)
      | [] => None
      end
  | SettleFuture i s =>
      match i, futures w !! i with
      | S _, Some d =>
          if isPending d && terminal s
          then let r := settle s d in
               Some (invoke (snd r) (set_futures (<[i := fst r]> (futures w)) w))
          else None
      | _, _ => None
      end
  | SettleCondition i s =>
      match i, conditions w !! i with
      | S _, Some d =>
          if isPending d && terminal s
          then let r := settle s d in
               Some (invoke (snd r)
                            (set_conditions (<[i := fst r]> (conditions w)) w))
          else None
      | _, _ => None
      end
  | DiscardOuter =>
      Some (update_promise (request_discard (promise (loop_state w))) w)
  | UserStep u => Some (set_user u w)
  | Attach =>
      match process w with
      | Spawned => Some (attach w)
      | _ => None
      end
  end.

(** The states of the system started by [loop] or by the helper. *)
Inductive reachable (w0 : World) : World -> Prop :=
| reachable_start : reachable w0 w0
| reachable_step fuel l w w' :
    reachable w0 w -> exec fuel l w = Some w' -> reachable w0 w'.

(** Enough steps in a row, all with the same [fuel]. *)
Fixpoint deliveries (n fuel : nat) (w : World) : option World :=
  match n with
  | O => Some w
  | S n' =>
      match exec fuel Deliver w with
      | Some w' => deliveries n' fuel w'
      | None => None
      end
  end.

(** A schedule: the steps taken one after the other, each with its own
    bound on the turns of the [while]. *)
Fixpoint steps (ls : list (nat * Label)) (w : World) : option World :=
  match ls with
  | [] => Some w
  | (fuel, l) :: ls =>
      match exec fuel l w with
      | Some w' => steps ls w'
      | None => None
      end
  end.

(** ** Reading the history *)

Fixpoint iterations (h : list Event) : nat :=
  match h with
  | [] => 0
  | EvIterate :: h => S (iterations h)
  | _ :: h => iterations h
  end.

(** The arguments [body] was called with, oldest first. *)
Fixpoint bodies (h : list Event) : list T :=
  match h with
  | [] => []
  | EvBody v :: h => v :: bodies h
  | _ :: h => bodies h
  end.

Fixpoint runs (h : list Event) : nat :=
  match h with
  | [] => 0
  | EvRun :: h => S (runs h)
  | _ :: h => runs h
  end.

Fixpoint subscriptions (h : list Event) : nat :=
  match h with
  | [] => 0
  | EvOnAny :: h => S (subscriptions h)
  | _ :: h => subscriptions h
  end.

(** Attempts to settle the promise: calls of [set], [fail], [discard]. *)
Fixpoint settlements (h : list Event) : nat :=
  match h with
  | [] => 0
  | (EvSet | EvFail _ | EvDiscard) :: h => S (settlements h)
  | _ :: h => settlements h
  end.

(** Storing a cell at the address a slot holds. *)
Definition put_future (d : Data T) (w : World) : World :=
  set_futures (<[future (loop_state w) := d]> (futures w)) w.
Definition put_condition (d : Data bool) (w : World) : World :=
  set_conditions (<[condition (loop_state w) := d]> (conditions w)) w.

(** What can become of a cell: a settled state is final, and so is a
    recorded discard request. *)
Definition evolves {A} (d d' : Data A) : Prop :=
  (state d <> PENDING -> state d' = state d) /\
  (discard d = true -> discard d' = true) /\
  reaction d' = reaction d.

(** [w'] comes after [w]: no cell is lost and every cell has evolved. *)
Definition kept (w w' : World) : Prop :=
  (forall i d, futures w !! i = Some d ->
     exists d', futures w' !! i = Some d' /\ evolves d d') /\
  (forall i d, conditions w !! i = Some d ->
     exists d', conditions w' !! i = Some d' /\ evolves d d') /\
  evolves (promise (loop_state w)) (promise (loop_state w')).

(** A state a loop cannot recover from, and the same verdict on a future
    of another type. *)
Definition abnormal {A} (s : State A) : bool :=
  match s with FAILED _ | DISCARDED => true | _ => false end.

Definition carry {A B} (s : State A) : State B :=
  match s with
  | FAILED r => FAILED r
  | DISCARDED => DISCARDED
  | _ => PENDING
  end.

(** Some future handed out by [iterate] or [body] has failed or has been
    discarded; [s] is that verdict as the returned future would carry it. *)
Definition doomed (s : State unit) (w : World) : Prop :=
  (exists k d, futures w !! k = Some d /\ abnormal (state d) = true /\
               carry (state d) = s) \/
  (exists k d, conditions w !! k = Some d /\ abnormal (state d) = true /\
               carry (state d) = s).

(** The cells of [w'] that [w] does not have yet are settled, or carry a
    discard request that their producer chose to ignore. *)
Definition guarded (w w' : World) : Prop :=
  (forall i d, length (futures w) <= i -> futures w' !! i = Some d ->
     state d = PENDING -> discard d = true /\ reaction d = PENDING) /\
  (forall i d, length (conditions w) <= i -> conditions w' !! i = Some d ->
     state d = PENDING -> discard d = true /\ reaction d = PENDING).

(** The callables answer at once: [body v] and the [m] rounds after it
    return ready futures, [true] every time but the last. *)
Fixpoint drains (m : nat) (v : T) (u : U) : bool :=
  let (u1, c) := body v u in
  match returned c with
  | READY b =>
      match m with
      | O => negb b
      | S m' =>
          b && (let (u2, r) := iterate u1 in
                match returned r with
                | READY v' => drains m' v' u2
                | _ => false
                end)
      end
  | _ => false
  end.

(** [iterate] and [body] return ready futures, and [body] returns [false]
    for the [n]-th value and [true] for those before. *)
Definition stops_after (n : nat) (u : U) : bool :=
  match n with
  | O => false
  | S m =>
      let (u1, r) := iterate u in
      match returned r with
      | READY v => drains m v u1
      | _ => false
      end
  end.

(** Two cells that differ at most in the recorded discard request. *)
Definition same_but_flag {A} (d d' : Data A) : Prop :=
  state d' = state d /\ onAnyCallbacks d' = onAnyCallbacks d /\
  onDiscardCallbacks d' = onDiscardCallbacks d /\ reaction d' = reaction d.

Definition settling (e : Event) : bool :=
  match e with EvSet | EvFail _ | EvDiscard => true | _ => false end.

(** The calls of the two callables alternate, [iterate] coming first when
    [iterate_next] holds. *)
Fixpoint alternates (iterate_next : bool) (h : list Event) : bool :=
  match h with
  | [] => true
  | EvIterate :: h => iterate_next && alternates false h
  | EvBody _ :: h => negb iterate_next && alternates true h
  | _ :: h => alternates iterate_next h
  end.

(** Stepwise reading of the same: what is due next, or [None] once the
    calls have fallen out of step. *)
Definition turn (o : option bool) (e : Event) : option bool :=
  match e with
  | EvIterate => match o with Some true => Some false | _ => None end
  | EvBody _ => match o with Some false => Some true | _ => None end
  | _ => o
  end.

Definition due (h : list Event) : option bool := foldl turn (Some true) h.

(** ** The invariant of the driver *)

Definition is_wake (f : Closure) : bool :=
  match f with RootDiscard => false | _ => true end.

(** What waits in the inbox of [Pid] apart from discard hooks. *)
Definition wakes (w : World) : list Closure := List.filter is_wake (mailbox w).

Definition cur_future (w : World) : nat := future (loop_state w).
Definition cur_condition (w : World) : nat := condition (loop_state w).
Definition outer (w : World) : Data unit := promise (loop_state w).

(** What holds of the store whatever the driver is waiting for. *)
Record Store (w : World) : Prop := mkStore {
  st_future : S (cur_future w) = length (futures w);
  st_condition : S (cur_condition w) = length (conditions w);
  st_le : cur_condition w <= cur_future w;
  st_ge : cur_future w <= S (cur_condition w);
  st_future0 : exists d, futures w !! 0 = Some d /\ state d = PENDING /\
                 onAnyCallbacks d = [] /\ reaction d = PENDING;
  st_condition0 : exists d, conditions w !! 0 = Some d /\ state d = PENDING /\
                    onAnyCallbacks d = [] /\ reaction d = PENDING;
  st_consumed : forall i d, futures w !! i = Some d -> 1 <= i ->
                  i <= cur_condition w -> exists v, state d = READY v;
  st_continued : forall i d, conditions w !! i = Some d -> 1 <= i ->
                   i < cur_future w -> state d = READY true;
  st_future_cbs : forall i d, futures w !! i = Some d ->
                    state d <> PENDING -> onAnyCallbacks d = [];
  st_condition_cbs : forall i d, conditions w !! i = Some d ->
                       state d <> PENDING -> onAnyCallbacks d = [];
  st_future_hooks : forall i d, futures w !! i = Some d ->
                      onDiscardCallbacks d = [];
  st_condition_hooks : forall i d, conditions w !! i = Some d ->
                         onDiscardCallbacks d = []
}.

(** What the history says about the store. *)
Record Chronicle (w : World) : Prop := mkChronicle {
  ch_iterations : iterations (history w) = cur_future w;
  ch_bodies : length (bodies (history w)) = cur_condition w;
  ch_values : forall i v, bodies (history w) !! i = Some v ->
                exists d, futures w !! (S i) = Some d /\ state d = READY v;
  ch_due : due (history w) = Some (cur_future w =? cur_condition w);
  ch_settlements : settlements (history w) =
                     if terminal (state (outer w)) then 1 else 0
}.

(** The callbacks on the returned future, and the helper's bookkeeping. *)
Record Hooks (w : World) : Prop := mkHooks {
  hk_reaction : reaction (outer w) = PENDING;
  hk_discard : onDiscardCallbacks (outer w) =
               if negb (discard (outer w)) && isPending (outer w)
               then [(Pid, RootDiscard)] else [];
  hk_helper :
    match process w with
    | Supplied | Spawned => onAnyCallbacks (outer w) = [] /\ executor w = []
    | Attached =>
        (state (outer w) = PENDING /\
         onAnyCallbacks (outer w) = [(Executor, Cleanup)] /\ executor w = []) \/
        (state (outer w) <> PENDING /\
         onAnyCallbacks (outer w) = [] /\ executor w = [Cleanup])
    | Deleted =>
        state (outer w) <> PENDING /\ onAnyCallbacks (outer w) = [] /\
        executor w = []
    end
}.

(** How a promise settled to [s] came about. *)
Definition outcome_of (s : State unit) (w : World) : Prop :=
  match s with
  | PENDING => False
  | READY _ =>
      cur_future w = cur_condition w /\ 1 <= cur_condition w /\
      state (the_condition w) = READY false
  | FAILED r =>
      (cur_future w = S (cur_condition w) /\ state (the_future w) = FAILED r) \/
      (cur_future w = cur_condition w /\ 1 <= cur_condition w /\
       state (the_condition w) = FAILED r)
  | DISCARDED =>
      (cur_future w = S (cur_condition w) /\ state (the_future w) = DISCARDED) \/
      (cur_future w = cur_condition w /\ 1 <= cur_condition w /\
       state (the_condition w) = DISCARDED)
  end.

Definition outcome (w : World) : Prop := outcome_of (state (outer w)) w.

(** Where the driver stands between two closures on [Pid]. *)
Inductive Phase (w : World) : Prop :=
| Booting :
    cur_future w = 0 -> cur_condition w = 0 ->
    state (outer w) = PENDING -> wakes w = [Bootstrap] -> Phase w
| AwaitingFuture :
    cur_future w = S (cur_condition w) -> state (outer w) = PENDING ->
    state (the_future w) = PENDING ->
    onAnyCallbacks (the_future w) = [(Pid, FutureWake)] ->
    wakes w = [] -> Phase w
| FutureSettled :
    cur_future w = S (cur_condition w) -> state (outer w) = PENDING ->
    state (the_future w) <> PENDING ->
    wakes w = [FutureWake] -> Phase w
| AwaitingCondition :
    cur_future w = cur_condition w -> 1 <= cur_condition w ->
    state (outer w) = PENDING ->
    state (the_condition w) = PENDING ->
    onAnyCallbacks (the_condition w) = [(Pid, ConditionWake)] ->
    wakes w = [] -> Phase w
| ConditionSettled :
    cur_future w = cur_condition w -> 1 <= cur_condition w ->
    state (outer w) = PENDING ->
    state (the_condition w) <> PENDING ->
    wakes w = [ConditionWake] -> Phase w
| Settled :
    outcome w -> wakes w = [] -> Phase w.

Record Inv (w : World) : Prop := mkInv {
  inv_store : Store w;
  inv_chronicle : Chronicle w;
  inv_hooks : Hooks w;
  inv_phase : Phase w
}.

(** Where the driver stands inside [run] and the continuations: about to
    look at [loop->future], about to look at [loop->condition], about to
    call [iterate]. *)
Record AtFuture (w : World) : Prop := mkAtFuture {
  af_store : Store w;
  af_chronicle : Chronicle w;
  af_hooks : Hooks w;
  af_slots : cur_future w = S (cur_condition w);
  af_outer : state (outer w) = PENDING;
  af_cbs : onAnyCallbacks (the_future w) = [];
  af_wakes : wakes w = []
}.

Record AtCondition (w : World) : Prop := mkAtCondition {
  ac_store : Store w;
  ac_chronicle : Chronicle w;
  ac_hooks : Hooks w;
  ac_slots : cur_future w = cur_condition w;
  ac_called : 1 <= cur_condition w;
  ac_outer : state (outer w) = PENDING;
  ac_cbs : onAnyCallbacks (the_condition w) = [];
  ac_wakes : wakes w = []
}.

Record AtIterate (w : World) : Prop := mkAtIterate {
  ai_store : Store w;
  ai_chronicle : Chronicle w;
  ai_hooks : Hooks w;
  ai_slots : cur_future w = cur_condition w;
  ai_outer : state (outer w) = PENDING;
  ai_continue : cur_condition w = 0 \/ state (the_condition w) = READY true;
  ai_wakes : wakes w = []
}.

End LoopModel.

(** ** Scenarios

    Callables over a shared counter, and the worlds a few schedules lead
    to; the properties below are exercised on them. *)

Import String.StringSyntax.

Local Open Scope string_scope.
Definition boom : String.string := "boom".
Definition gone : String.string := "gone".
Local Close Scope string_scope.

(** [iterate] returns the counter, ready. *)
Definition counting_iterate (c : nat) : nat * Returned nat :=
  (c, mkReturned (READY c) PENDING).

(** [body] increments the counter and goes on while it is below 5. *)
Definition counting_body (v c : nat) : nat * Returned bool :=
  (S c, mkReturned (READY (S c <? 5)) PENDING).

(** [body] fails on its third call. *)
Definition failing_body (v c : nat) : nat * Returned bool :=
  (S c, mkReturned (if S c =? 3 then FAILED boom else READY true) PENDING).

(** The second call of [body] returns a pending future that honors a
    discard request. *)
Definition patient_body (v c : nat) : nat * Returned bool :=
  (S c, if c =? 1 then mkReturned PENDING DISCARDED
        else mkReturned (READY true) PENDING).

(** [body] returns a pending future that ignores discard requests. *)
Definition deaf_body (v c : nat) : nat * Returned bool :=
  (S c, mkReturned PENDING PENDING).

(** [body] stops the loop at once. *)
Definition stopping_body (v c : nat) : nat * Returned bool :=
  (S c, mkReturned (READY false) PENDING).

(** [body] tests the value it is given, not the counter. *)
Definition testing_body (v c : nat) : nat * Returned bool :=
  (S c, mkReturned (READY (v <? 5)) PENDING).

(** [body] always goes on. *)
Definition eager_body (v c : nat) : nat * Returned bool :=
  (S c, mkReturned (READY true) PENDING).

(** [iterate] fails on its second call. *)
Definition flaky_iterate (c : nat) : nat * Returned nat :=
  (c, mkReturned (if c =? 1 then FAILED gone else READY c) PENDING).

(** Callables whose futures are satisfied later, from elsewhere. *)
Definition slow_iterate (c : nat) : nat * Returned nat :=
  (c, mkReturned PENDING PENDING).
Definition slow_body (v c : nat) : nat * Returned bool :=
  (S c, mkReturned PENDING PENDING).

(** [iterate] returns a pending future that honors a discard request. *)
Definition yielding_iterate (c : nat) : nat * Returned nat :=
  (c, mkReturned PENDING DISCARDED).

Definition fresh : @World nat nat := loop 0.

(** What a schedule led to: the state of the returned future and the
    number of calls of [iterate] and of [body]. *)
Definition outline {U T : Type} (o : option (@World U T))
  : option (State unit * nat * nat) :=
  match o with
  | Some w =>
      Some (state (outer w), iterations (history w), length (bodies (history w)))
  | None => None
  end.

(** Three rounds of the slow callables, each future settled by its
    producer while the driver waits for it. *)
Definition three_slow_rounds : list (nat * @Label nat nat) :=
  [(1, Deliver);
   (0, SettleFuture 1 (READY 0)); (1, Deliver);
   (0, SettleCondition 1 (READY true)); (1, Deliver);
   (0, SettleFuture 2 (READY 1)); (1, Deliver);
   (0, SettleCondition 2 (READY true)); (1, Deliver);
   (0, SettleFuture 3 (READY 2)); (1, Deliver);
   (0, SettleCondition 3 (READY false)); (1, Deliver)].

(** The counting loop after its bootstrap has run. *)
Definition counted : @World nat nat :=
  default fresh (steps counting_iterate counting_body [(5, Deliver)] fresh).


(** The caller discards while the second [body] is pending, and the hook
    has run. *)
Definition hooked : @World nat nat :=
  default fresh
    (steps counting_iterate patient_body
           [(5, Deliver); (0, DiscardOuter); (0, Deliver)] fresh).

(** The caller discards before the bootstrap runs. *)
Definition discarded_early : @World nat nat :=
  default fresh (steps counting_iterate deaf_body [(0, DiscardOuter)] fresh).

Definition after_bootstrap_deaf : @World nat nat :=
  default fresh (exec counting_iterate deaf_body 5 Deliver discarded_early).

(** The first value is in the slot, ready; [run] has not been entered. *)
Definition seeded : @World nat nat :=
  assign_future counting_iterate (set_mailbox [] fresh).

Definition seeded_discarded : @World nat nat :=
  assign_future counting_iterate (set_mailbox [RootDiscard] discarded_early).

(** The helper's loop, settled before the helper has attached its
    cleanup. *)
Definition helped : @World nat nat :=
  default fresh
    (steps counting_iterate counting_body [(5, Deliver)] (loop_helper 0)).

(** ** Further readings of a state *)

Section LoopReadings.

Context {U T : Type}.
Variable iterate : U -> U * Returned T.
Variable body : T -> U -> U * Returned bool.

(** The [onAny] callbacks that the cells of a store hold. *)
Fixpoint subscribed {A} (cells : list (Data A)) : nat :=
  match cells with
  | [] => 0
  | d :: cells => length (onAnyCallbacks d) + subscribed cells
  end.

(** What will resume the loop: the closures of the driver that wait in
    the inbox of [Pid], and the continuations subscribed on futures. *)
Definition continuations (w : @World U T) : nat :=
  length (wakes w) + subscribed (futures w) + subscribed (conditions w).

(** The discard hooks that wait in the inbox of [Pid]. *)
Definition hooks (w : @World U T) : list Closure :=
  List.filter (fun f => negb (is_wake f)) (mailbox w).

(** The synchronous reading that the header gives of the loop
    (loop.hpp:44-47),
<<
      bool condition = true;
      do {
        condition = body(iterate());
      } while (condition);
>>
    for callables whose futures are ready when they are handed out: the
    callables' state when the loop ends, [None] when a future is not
    ready or the loop has not ended after [n] rounds. *)
Fixpoint do_while (n : nat) (u : U) : option U :=
  match n with
  | O => None
  | S n' =>
      let (u1, r) := iterate u in
      match returned r with
      | READY v =>
          let (u2, c) := body v u1 in
          match returned c with
          | READY true => do_while n' u2
          | READY false => Some u2
          | _ => None
          end
      | _ => None
      end
  end.

(** Callbacks that post no discard hook to [Pid] when they are invoked. *)
Definition hookless (fs : list Deferred) : Prop :=
  List.filter (fun f => negb (is_wake f)) (posted Pid fs) = [].

(** A pending cell that carries a discard request belongs to a producer
    that ignores such requests: any other would have settled it when the
    request was made. *)
Definition honest {A} (d : Data A) : Prop :=
  discard d = true -> state d = PENDING -> reaction d = PENDING.

Definition Honest (w : @World U T) : Prop :=
  Forall honest (futures w) /\ Forall honest (conditions w).

(** What a closure of the driver leaves as it is: the hooks in the inbox
    and the discard request recorded on the returned future. *)
Definition handled (w w' : @World U T) : Prop :=
  hooks w' = hooks w /\
  discard (outer w') = discard (outer w) /\
  (Honest w -> Honest w').

(** Every pending future that a callable has handed out carries a discard
    request, which its producer ignores. *)
Definition requested (w : @World U T) : Prop :=
  (forall i d, 1 <= i -> futures w !! i = Some d -> state d = PENDING ->
     discard d = true /\ reaction d = PENDING) /\
  (forall i d, 1 <= i -> conditions w !! i = Some d -> state d = PENDING ->
     discard d = true /\ reaction d = PENDING).

End LoopReadings.

(** The slow loop after its bootstrap: it waits for the first value. *)
Definition waiting : @World nat nat :=
  default fresh (steps slow_iterate slow_body [(1, Deliver)] fresh).

(** The caller has discarded before the bootstrap, the bootstrap and the
    hook have run, and [body]'s future ignores the request. *)
Definition deafened : @World nat nat :=
  default fresh
    (steps counting_iterate deaf_body
           [(0, DiscardOuter); (5, Deliver); (0, Deliver)] fresh).

(** The loop waits on the second future of [patient_body], whose producer
    honours discard requests. *)
Definition paused : @World nat nat :=
  default fresh (steps counting_iterate patient_body [(5, Deliver)] fresh).

(** The loop waits on the first future of [yielding_iterate], whose
    producer honours discard requests; the caller has discarded and the
    hook is the next closure on [Pid]. *)
Definition asked : @World nat nat :=
  default fresh
    (steps yielding_iterate eager_body [(5, Deliver); (0, DiscardOuter)] fresh).

(** The helper's loop, settled, with the cleanup attached. *)
Definition attached : @World nat nat :=
  default fresh
    (steps counting_iterate counting_body [(5, Deliver); (0, Attach)]
           (loop_helper 0)).

(** * The CVMFS store (slave/containerizer/mesos/provisioner/cvmfs/store.cpp) *)

Module cvmfs.

(** [mesos::Image::Cvmfs] and [mesos::Image], as far as the store reads
    them. *)
Record Cvmfs : Type := mkCvmfs {
  repository : String.string;
  path : String.string
}.

Record Image (Image_Type : Type) : Type := mkImage {
  type : Image_Type;
  cvmfs : Cvmfs
}.
Arguments mkImage {Image_Type}.
Arguments type {Image_Type}.
Arguments cvmfs {Image_Type}.

(** [ImageInfo]: the layers, and a manifest that this store never gives. *)
Record ImageInfo (Manifest : Type) : Type := mkImageInfo {
  layers : list String.string;
  manifest : option Manifest
}.
Arguments mkImageInfo {Manifest}.
Arguments layers {Manifest}.
Arguments manifest {Manifest}.

(** The one flag that [Store::create] reads. *)
Record Flags : Type := mkFlags {
  cvmfs_root : String.string
}.

Record StoreProcess : Type := mkStoreProcess {
  root : String.string
}.

Section Store.

(** The values of [mesos::Image::Type] are declared in mesos.proto, which
    is not among the sources; the store only compares with
    [Image::CVMFS]. *)
Context {Image_Type : Type} `{EqDecision Image_Type}.
Variable CVMFS : Image_Type.
Context {Manifest : Type}.

(** [os::exists] and [path::join] of stout are not among the sources: the
    file system and the joining of three paths are taken as they are. *)
Variable os_exists : String.string -> bool.
Variable path_join : String.string -> String.string -> String.string -> String.string.

Local Open Scope string_scope.

(** [Store::create]: an error message, or the process of the new store. *)
Definition Store_create (flags : Flags) : String.string + StoreProcess :=
  if negb (os_exists (cvmfs_root flags))
  then inl (String.append "CVMFS root '"
              (String.append (cvmfs_root flags) "' does not exist"))
  else inr (mkStoreProcess (cvmfs_root flags)).

(** [StoreProcess::recover] *)
Definition StoreProcess_recover (self : StoreProcess) : State unit := READY tt.

(** [StoreProcess::get] *)
Definition StoreProcess_get (self : StoreProcess) (image : Image Image_Type)
  : State (ImageInfo Manifest) :=
  if negb (bool_decide (type image = CVMFS))
  then FAILED "CVMFS privisioner store only supports CVMFS images"
  else
    let rootfs :=
      path_join (root self) (repository (cvmfs image)) (path (cvmfs image)) in
    if negb (os_exists rootfs)
    then FAILED (String.append "Rootfs cannot be found at '"
                   (String.append rootfs "'"))
    else READY (mkImageInfo [rootfs] None).

Local Close Scope string_scope.

End Store.

(** The image of the test (tests/containerizer/provisioner_cvmfs_tests.cpp)
    on a file system that holds it under /cvmfs. *)
Local Open Scope string_scope.
Definition precise : Image nat := mkImage 3 (mkCvmfs "mesosphere.com" "precise").
Definition slashed (a b c : String.string) : String.string :=
  String.append a (String.append "/" (String.append b (String.append "/" c))).
Definition mounted (p : String.string) : bool :=
  String.eqb p "/cvmfs" || String.eqb p "/cvmfs/mesosphere.com/precise".
Definition flags_cvmfs : Flags := mkFlags "/cvmfs".
Local Close Scope string_scope.

End cvmfs.


(** * Properties *)

Section LoopFacts.

Context {U T : Type}.
Variable iterate : U -> U * Returned T.
Variable body : T -> U -> U * Returned bool.

Implicit Types w : @World U T.

(** ** Cells *)

Lemma pending_or_not {A} (s : State A) : s = PENDING \/ s <> PENDING.
Proof. destruct s; auto; right; discriminate. Qed.

Lemma terminal_not_pending {A} (s : State A) : terminal s = true -> s <> PENDING.
Proof. destruct s; simpl; congruence. Qed.

Lemma isPending_true {A} (d : Data A) : isPending d = true -> state d = PENDING.
Proof. unfold isPending. destruct (state d); congruence. Qed.

Lemma settle_pending {A} (s : State A) (d : Data A) :
  state d = PENDING ->
  settle s d = (mkData s (discard d) [] [] (reaction d), onAnyCallbacks d).
Proof. intros H. unfold settle. now rewrite H. Qed.

(** What a discard request does to a cell nobody hooked with [onDiscard]. *)
Lemma request_discard_cases {A} (d : Data A) :
  onDiscardCallbacks d = [] ->
  request_discard d = (d, []) \/
  (state d = PENDING /\ discard d = false /\ reaction d = PENDING /\
   request_discard d = (mkData PENDING true [] (onAnyCallbacks d) PENDING, [])) \/
  (state d = PENDING /\ discard d = false /\ reaction d <> PENDING /\
   request_discard d = (mkData (reaction d) true [] [] (reaction d), onAnyCallbacks d)).
Proof.
  intros Hd. unfold request_discard, isPending, settle.
  destruct d as [st di od oa re]; simpl in *; subst od.
  destruct di; simpl; [now left|].
  destruct st; simpl; try (now left).
  destruct re; simpl.
  - right; left; auto.
  - right; right; repeat split; auto; discriminate.
  - right; right; repeat split; auto; discriminate.
  - right; right; repeat split; auto; discriminate.
Qed.

Lemma subscribe_onAny_pending {A} f (d : Data A) :
  state d = PENDING ->
  subscribe_onAny f d =
    (mkData PENDING (discard d) (onDiscardCallbacks d) (onAnyCallbacks d ++ [f])
            (reaction d), []).
Proof. intros H. unfold subscribe_onAny. now rewrite H. Qed.

Lemma subscribe_onAny_settled {A} f (d : Data A) :
  state d <> PENDING -> subscribe_onAny f d = (d, [f]).
Proof. intros H. unfold subscribe_onAny. destruct (state d); congruence. Qed.

(** ** Posting *)

Lemma wakes_app w m :
  List.filter is_wake (mailbox w ++ m) = wakes w ++ List.filter is_wake m.
Proof. unfold wakes. apply List.filter_app. Qed.

(** ** The store *)

Lemma Store_frame w w' :
  futures w' = futures w -> conditions w' = conditions w ->
  cur_future w' = cur_future w -> cur_condition w' = cur_condition w ->
  Store w -> Store w'.
Proof.
  intros Hf Hc Hcf Hcc [].
  constructor; rewrite ?Hf, ?Hc, ?Hcf, ?Hcc; assumption.
Qed.

Lemma Store_set_future w w' d' :
  Store w ->
  futures w' = <[cur_future w := d']> (futures w) ->
  conditions w' = conditions w ->
  cur_future w' = cur_future w -> cur_condition w' = cur_condition w ->
  onDiscardCallbacks d' = [] ->
  (state d' <> PENDING -> onAnyCallbacks d' = []) ->
  (1 <= cur_future w -> cur_future w <= cur_condition w ->
   exists v, state d' = READY v) ->
  (cur_future w = 0 ->
   state d' = PENDING /\ onAnyCallbacks d' = [] /\ reaction d' = PENDING) ->
  Store w'.
Proof.
  intros [] Hf Hc Hcf Hcc Hd Ha Hr H0.
  constructor; rewrite ?Hf, ?Hc, ?Hcf, ?Hcc; try assumption.
  - now rewrite length_insert.
  - destruct (decide (cur_future w = 0)) as [E|E].
    + exists d'. rewrite E. rewrite list_lookup_insert_eq by lia. auto.
    + rewrite list_lookup_insert_ne by lia. assumption.
  - intros i d Hi H1 H2. apply list_lookup_insert_Some in Hi as [(Ei & Ed & _)|[Hne Hi]].
    + subst i d. auto.
    + eauto.
  - intros i d Hi Hs. apply list_lookup_insert_Some in Hi as [(Ei & Ed & _)|[Hne Hi]].
    + subst i d. auto.
    + eauto.
  - intros i d Hi. apply list_lookup_insert_Some in Hi as [(Ei & Ed & _)|[Hne Hi]].
    + subst i d. auto.
    + eauto.
Qed.

Lemma Store_set_condition w w' d' :
  Store w ->
  conditions w' = <[cur_condition w := d']> (conditions w) ->
  futures w' = futures w ->
  cur_future w' = cur_future w -> cur_condition w' = cur_condition w ->
  onDiscardCallbacks d' = [] ->
  (state d' <> PENDING -> onAnyCallbacks d' = []) ->
  (1 <= cur_condition w -> cur_condition w < cur_future w ->
   state d' = READY true) ->
  (cur_condition w = 0 ->
   state d' = PENDING /\ onAnyCallbacks d' = [] /\ reaction d' = PENDING) ->
  Store w'.
Proof.
  intros [] Hc Hf Hcf Hcc Hd Ha Hr H0.
  constructor; rewrite ?Hf, ?Hc, ?Hcf, ?Hcc; try assumption.
  - now rewrite length_insert.
  - destruct (decide (cur_condition w = 0)) as [E|E].
    + exists d'. rewrite E. rewrite list_lookup_insert_eq by lia. auto.
    + rewrite list_lookup_insert_ne by lia. assumption.
  - intros i d Hi H1 H2. apply list_lookup_insert_Some in Hi as [(Ei & Ed & _)|[Hne Hi]].
    + subst i d. auto.
    + eauto.
  - intros i d Hi Hs. apply list_lookup_insert_Some in Hi as [(Ei & Ed & _)|[Hne Hi]].
    + subst i d. auto.
    + eauto.
  - intros i d Hi. apply list_lookup_insert_Some in Hi as [(Ei & Ed & _)|[Hne Hi]].
    + subst i d. auto.
    + eauto.
Qed.

Lemma lookup_snoc_Some_inv {A} (l : list A) (x y : A) i :
  (l ++ [x]) !! i = Some y ->
  (i < length l /\ l !! i = Some y) \/ (i = length l /\ y = x).
Proof.
  intros H. destruct (decide (i < length l)) as [Hlt|Hge].
  - left. split; [assumption|]. now rewrite lookup_app_l in H.
  - right. rewrite lookup_app_r in H by lia.
    destruct (i - length l) as [|k] eqn:E; simpl in H.
    + split; [lia|congruence].
    + destruct k; discriminate.
Qed.

Lemma Store_push_future w w' r :
  Store w ->
  futures w' = futures w ++ [Future_of r] ->
  conditions w' = conditions w ->
  cur_future w' = length (futures w) -> cur_condition w' = cur_condition w ->
  cur_future w = cur_condition w ->
  (cur_condition w = 0 \/ state (the_condition w) = READY true) ->
  Store w'.
Proof.
  intros [st_future st_condition st_le st_ge st_future0 st_condition0 st_consumed
          st_continued st_future_cbs st_condition_cbs st_future_hooks
          st_condition_hooks]
    Hf Hc Hcf Hcc Heq Hgo.
  constructor; rewrite ?Hf, ?Hc, ?Hcf, ?Hcc; try assumption.
  - rewrite length_app. simpl. lia.
  - lia.
  - lia.
  - destruct st_future0 as (d & Hd & ?). exists d. split; [|assumption].
    rewrite lookup_app_l; [assumption|]. lia.
  - intros i d Hi H1 H2. apply lookup_snoc_Some_inv in Hi as [[_ Hi]|[-> ->]].
    + eauto.
    + lia.
  - intros i d Hi H1 H2.
    destruct (decide (i < cur_future w)) as [Hlt|Hge]; [eauto|].
    assert (i = cur_condition w) as -> by lia.
    destruct Hgo as [Hgo|Hgo]; [lia|].
    unfold the_condition in Hgo. unfold cur_condition in Hi.
    now rewrite Hi in Hgo.
  - intros i d Hi Hs. apply lookup_snoc_Some_inv in Hi as [[_ Hi]|[-> ->]].
    + eauto.
    + reflexivity.
  - intros i d Hi. apply lookup_snoc_Some_inv in Hi as [[_ Hi]|[-> ->]].
    + eauto.
    + reflexivity.
Qed.

Lemma Store_push_condition w w' r v :
  Store w ->
  conditions w' = conditions w ++ [Future_of r] ->
  futures w' = futures w ->
  cur_condition w' = length (conditions w) -> cur_future w' = cur_future w ->
  cur_future w = S (cur_condition w) ->
  state (the_future w) = READY v ->
  Store w'.
Proof.
  intros [st_future st_condition st_le st_ge st_future0 st_condition0 st_consumed
          st_continued st_future_cbs st_condition_cbs st_future_hooks
          st_condition_hooks]
    Hc Hf Hcc Hcf Heq Hv.
  constructor; rewrite ?Hf, ?Hc, ?Hcf, ?Hcc; try assumption.
  - rewrite length_app. simpl. lia.
  - lia.
  - lia.
  - destruct st_condition0 as (d & Hd & ?). exists d. split; [|assumption].
    rewrite lookup_app_l; [assumption|]. lia.
  - intros i d Hi H1 H2.
    destruct (decide (i <= cur_condition w)) as [Hle|Hgt]; [eauto|].
    assert (i = cur_future w) as -> by lia.
    unfold the_future in Hv. unfold cur_future in Hi.
    rewrite Hi in Hv. eauto.
  - intros i d Hi H1 H2. apply lookup_snoc_Some_inv in Hi as [[_ Hi]|[-> ->]].
    + eauto.
    + lia.
  - intros i d Hi Hs. apply lookup_snoc_Some_inv in Hi as [[_ Hi]|[-> ->]].
    + eauto.
    + reflexivity.
  - intros i d Hi. apply lookup_snoc_Some_inv in Hi as [[_ Hi]|[-> ->]].
    + eauto.
    + reflexivity.
Qed.

(** ** The history *)

Lemma iterations_app (h k : list (@Event T)) :
  iterations (h ++ k) = iterations h + iterations k.
Proof. induction h as [|[] h IH]; simpl; auto. Qed.

Lemma bodies_app (h k : list (@Event T)) : bodies (h ++ k) = bodies h ++ bodies k.
Proof. induction h as [|[] h IH]; simpl; auto. now rewrite IH. Qed.

Lemma runs_app (h k : list (@Event T)) : runs (h ++ k) = runs h + runs k.
Proof. induction h as [|[] h IH]; simpl; auto. Qed.

Lemma subscriptions_app (h k : list (@Event T)) :
  subscriptions (h ++ k) = subscriptions h + subscriptions k.
Proof. induction h as [|[] h IH]; simpl; auto. Qed.

Lemma settlements_app (h k : list (@Event T)) :
  settlements (h ++ k) = settlements h + settlements k.
Proof. induction h as [|[] h IH]; simpl; auto. Qed.

Lemma due_snoc (h : list (@Event T)) e : due (h ++ [e]) = turn (due h) e.
Proof. unfold due. now rewrite foldl_app. Qed.

Lemma turn_alternates (h : list (@Event T)) b b' :
  foldl turn (Some b) h = Some b' -> alternates b h = true.
Proof.
  revert b. induction h as [|e h IH]; intros b; simpl; [reflexivity|].
  assert (Hnone : forall k : list (@Event T), foldl turn None k = None).
  { induction k as [|[] k IHk]; simpl; auto. }
  destruct e; simpl; try apply IH.
  - destruct b; simpl; [apply IH|]. rewrite Hnone. discriminate.
  - destruct b; simpl; [|apply IH]. rewrite Hnone. discriminate.
Qed.

Lemma Chronicle_frame w w' :
  iterations (history w') = iterations (history w) ->
  bodies (history w') = bodies (history w) ->
  due (history w') = due (history w) ->
  settlements (history w') = settlements (history w) ->
  (forall i d v, futures w !! i = Some d -> state d = READY v ->
                 exists d', futures w' !! i = Some d' /\ state d' = READY v) ->
  cur_future w' = cur_future w -> cur_condition w' = cur_condition w ->
  state (outer w') = state (outer w) ->
  Chronicle w -> Chronicle w'.
Proof.
  intros Hi Hb Hd Hs Hf Hcf Hcc Ho
    [ch_iterations ch_bodies ch_values ch_due ch_settlements].
  constructor; rewrite ?Hi, ?Hb, ?Hd, ?Hs, ?Hcf, ?Hcc, ?Ho; try assumption.
  intros i v Hv. destruct (ch_values i v Hv) as (d & Hl & Hst). eauto.
Qed.

Lemma Chronicle_push_future w w' r :
  Chronicle w -> Store w ->
  history w' = history w ++ [EvIterate] ->
  futures w' = futures w ++ [r] ->
  cur_future w' = length (futures w) -> cur_condition w' = cur_condition w ->
  state (outer w') = state (outer w) ->
  cur_future w = cur_condition w ->
  Chronicle w'.
Proof.
  intros [ch_iterations ch_bodies ch_values ch_due ch_settlements]
    [st_future st_condition st_le st_ge st_future0 st_condition0 st_consumed
          st_continued st_future_cbs st_condition_cbs st_future_hooks
          st_condition_hooks]
    Hh Hf Hcf Hcc Ho Heq.
  constructor; rewrite ?Hh, ?Hf, ?Hcf, ?Hcc, ?Ho.
  - rewrite iterations_app. simpl. lia.
  - rewrite bodies_app. simpl. rewrite app_nil_r. assumption.
  - rewrite bodies_app. simpl. rewrite app_nil_r. intros i v Hv.
    destruct (ch_values i v Hv) as (d & Hl & Hst). exists d. split; [|assumption].
    rewrite lookup_app_l; [assumption|]. eapply lookup_lt_Some; eauto.
  - rewrite due_snoc, ch_due. rewrite Heq, Nat.eqb_refl. simpl.
    f_equal. symmetry. apply Nat.eqb_neq. lia.
  - rewrite settlements_app. simpl. lia.
Qed.

Lemma Chronicle_push_condition w w' v :
  Chronicle w -> Store w ->
  history w' = history w ++ [EvBody v] ->
  futures w' = futures w ->
  cur_condition w' = length (conditions w) -> cur_future w' = cur_future w ->
  state (outer w') = state (outer w) ->
  cur_future w = S (cur_condition w) ->
  state (the_future w) = READY v ->
  Chronicle w'.
Proof.
  intros [ch_iterations ch_bodies ch_values ch_due ch_settlements]
    [st_future st_condition st_le st_ge st_future0 st_condition0 st_consumed
          st_continued st_future_cbs st_condition_cbs st_future_hooks
          st_condition_hooks]
    Hh Hf Hcc Hcf Ho Heq Hv.
  constructor; rewrite ?Hh, ?Hf, ?Hcf, ?Hcc, ?Ho.
  - rewrite iterations_app. simpl. lia.
  - rewrite bodies_app, length_app. simpl. lia.
  - rewrite bodies_app. simpl. intros i x Hx.
    apply lookup_snoc_Some_inv in Hx as [[_ Hx]|[-> ->]]; [auto|].
    rewrite ch_bodies, <- Heq. unfold the_future in Hv.
    destruct (futures w !! future (loop_state w)) as [d|] eqn:E.
    + exists d. split; assumption.
    + apply lookup_ge_None in E. unfold cur_future in *. lia.
  - rewrite due_snoc, ch_due.
    assert ((cur_future w =? cur_condition w) = false) as -> by (apply Nat.eqb_neq; lia).
    simpl. f_equal. symmetry. apply Nat.eqb_eq. lia.
  - rewrite settlements_app. simpl. lia.
Qed.

Lemma Chronicle_settle w w' e :
  Chronicle w ->
  history w' = history w ++ [e] -> settling e = true ->
  futures w' = futures w ->
  cur_future w' = cur_future w -> cur_condition w' = cur_condition w ->
  state (outer w) = PENDING -> state (outer w') <> PENDING ->
  Chronicle w'.
Proof.
  intros [ch_iterations ch_bodies ch_values ch_due ch_settlements] Hh He Hf Hcf Hcc Ho Ho'.
  rewrite Ho in ch_settlements. simpl in ch_settlements.
  constructor; rewrite ?Hh, ?Hf, ?Hcf, ?Hcc.
  - rewrite iterations_app. destruct e; simpl; try discriminate; lia.
  - rewrite bodies_app. destruct e; simpl; try discriminate;
      rewrite app_nil_r; assumption.
  - rewrite bodies_app. destruct e; simpl; try discriminate;
      rewrite app_nil_r; assumption.
  - rewrite due_snoc. destruct e; simpl; try discriminate; assumption.
  - rewrite settlements_app, ch_settlements.
    destruct (state (outer w')); [congruence| | |];
      destruct e; simpl; try discriminate; reflexivity.
Qed.

(** ** The hooks *)

Lemma Hooks_frame w w' :
  outer w' = outer w -> process w' = process w -> executor w' = executor w ->
  Hooks w -> Hooks w'.
Proof.
  intros Ho Hp He []. constructor; rewrite ?Ho, ?Hp, ?He; assumption.
Qed.

(** Goals that follow from the same fact about a world with the same
    store, the same history and the same hooks. *)
Ltac by_frame x :=
  match goal with
  | |- Store _ => eapply Store_frame with (w := x); eauto
  | |- Chronicle _ => eapply Chronicle_frame with (w := x); eauto
  | |- Hooks _ => eapply Hooks_frame with (w := x); eauto
  end.

(** ** The operations, spelled out *)

Lemma invoke_eq fs w :
  invoke fs w =
  mkWorld (user w) (futures w) (conditions w) (loop_state w)
          (mailbox w ++ posted Pid fs) (executor w ++ posted Executor fs)
          (process w) (history w).
Proof.
  revert w. induction fs as [|[[] f] fs IH]; intros w.
  - destruct w; simpl. now rewrite !app_nil_r.
  - change (invoke ((Pid, f) :: fs) w) with (invoke fs (dispatch Pid f w)).
    rewrite IH. simpl. now rewrite <- app_assoc.
  - change (invoke ((Executor, f) :: fs) w) with (invoke fs (dispatch Executor f w)).
    rewrite IH. simpl. now rewrite <- app_assoc.
Qed.

Lemma Store_lookup_future w :
  Store w -> futures w !! cur_future w = Some (the_future w).
Proof.
  intros []. unfold the_future, cur_future in *.
  destruct (futures w !! future (loop_state w)) eqn:E; [reflexivity|].
  apply lookup_ge_None in E. lia.
Qed.

Lemma Store_lookup_condition w :
  Store w -> conditions w !! cur_condition w = Some (the_condition w).
Proof.
  intros []. unfold the_condition, cur_condition in *.
  destruct (conditions w !! condition (loop_state w)) eqn:E; [reflexivity|].
  apply lookup_ge_None in E. lia.
Qed.

Lemma the_future_insert w w' d :
  Store w -> futures w' = <[cur_future w := d]> (futures w) ->
  cur_future w' = cur_future w -> the_future w' = d.
Proof.
  intros [] Hf Hc. unfold the_future, cur_future in *. rewrite Hf, Hc.
  rewrite list_lookup_insert_eq by lia. reflexivity.
Qed.

Lemma the_condition_insert w w' d :
  Store w -> conditions w' = <[cur_condition w := d]> (conditions w) ->
  cur_condition w' = cur_condition w -> the_condition w' = d.
Proof.
  intros [] Hf Hc. unfold the_condition, cur_condition in *. rewrite Hf, Hc.
  rewrite list_lookup_insert_eq by lia. reflexivity.
Qed.

Lemma the_future_frame w w' :
  futures w' = futures w -> cur_future w' = cur_future w ->
  the_future w' = the_future w.
Proof. intros Hf Hc. unfold the_future, cur_future in *. now rewrite Hf, Hc. Qed.

Lemma the_future_push w w' d :
  futures w' = futures w ++ [d] -> cur_future w' = length (futures w) ->
  the_future w' = d.
Proof.
  intros Hf Hc. unfold the_future, cur_future in *. rewrite Hf, Hc.
  rewrite lookup_app_r by lia. now rewrite Nat.sub_diag.
Qed.

Lemma the_condition_push w w' d :
  conditions w' = conditions w ++ [d] -> cur_condition w' = length (conditions w) ->
  the_condition w' = d.
Proof.
  intros Hf Hc. unfold the_condition, cur_condition in *. rewrite Hf, Hc.
  rewrite lookup_app_r by lia. now rewrite Nat.sub_diag.
Qed.

(** ** Inside a closure *)

Lemma AtIterate_assign_future w :
  AtIterate w -> AtFuture (assign_future iterate w).
Proof.
  intros [ai_store ai_chronicle ai_hooks ai_slots ai_outer ai_continue ai_wakes].
  unfold assign_future. destruct (iterate (user w)) as [u r].
  pose proof (st_future _ ai_store) as Hlen.
  constructor.
  - eapply Store_push_future with (w := w) (r := r); eauto.
  - eapply Chronicle_push_future with (w := w); eauto; reflexivity.
  - by_frame w.
  - unfold cur_future, cur_condition in *. simpl. lia.
  - assumption.
  - erewrite the_future_push with (w := w) (d := Future_of r); reflexivity.
  - assumption.
Qed.

Lemma AtFuture_assign_condition w v :
  AtFuture w -> state (the_future w) = READY v ->
  AtCondition (assign_condition body v w).
Proof.
  intros [af_store af_chronicle af_hooks af_slots af_outer af_cbs af_wakes] Hv.
  unfold assign_condition. destruct (body v (user w)) as [u r].
  pose proof (st_condition _ af_store) as Hlen.
  constructor.
  - eapply Store_push_condition with (w := w) (r := r); eauto.
  - eapply Chronicle_push_condition with (w := w); eauto; reflexivity.
  - by_frame w.
  - unfold cur_future, cur_condition in *. simpl. lia.
  - unfold cur_future, cur_condition in *. simpl. lia.
  - assumption.
  - erewrite the_condition_push with (w := w) (d := Future_of r); reflexivity.
  - assumption.
Qed.

Lemma AtFuture_log w e :
  settling e = false -> e <> EvIterate -> (forall v, e <> EvBody v) ->
  AtFuture w -> AtFuture (log e w).
Proof.
  intros He Hi Hb [af_store af_chronicle af_hooks af_slots af_outer af_cbs
      af_wakes]. constructor; try assumption.
  - by_frame w.
  - eapply Chronicle_frame with (w := w); eauto; simpl.
    + rewrite iterations_app. destruct e; simpl; try lia. congruence.
    + rewrite bodies_app. destruct e; simpl; rewrite ?app_nil_r; try reflexivity.
      now destruct (Hb v).
    + rewrite due_snoc. destruct e; simpl; try reflexivity; try congruence.
    + rewrite settlements_app. destruct e; simpl; try lia; discriminate.
  - by_frame w.
Qed.

Lemma world_eta w :
  mkWorld (user w) (futures w) (conditions w) (loop_state w) (mailbox w)
          (executor w) (process w) (history w) = w.
Proof. now destruct w. Qed.

Lemma put_future_same w : Store w -> put_future (the_future w) w = w.
Proof.
  intros Hs. unfold put_future, set_futures.
  rewrite list_insert_id by (apply Store_lookup_future; assumption).
  apply world_eta.
Qed.

Lemma put_condition_same w : Store w -> put_condition (the_condition w) w = w.
Proof.
  intros Hs. unfold put_condition, set_conditions.
  rewrite list_insert_id by (apply Store_lookup_condition; assumption).
  apply world_eta.
Qed.

(** The three things [loop->future.discard()] can do. *)
Lemma future_discard_cases w :
  Store w ->
  future_discard w = w \/
  (state (the_future w) = PENDING /\ reaction (the_future w) = PENDING /\
   exists d', same_but_flag (the_future w) d' /\ discard d' = true /\
              future_discard w = put_future d' w) \/
  (state (the_future w) = PENDING /\ reaction (the_future w) <> PENDING /\
   future_discard w =
     invoke (onAnyCallbacks (the_future w))
            (put_future (mkData (reaction (the_future w)) true [] []
                                (reaction (the_future w))) w)).
Proof.
  intros Hst.
  pose proof (Store_lookup_future _ Hst) as Hl.
  pose proof (st_future_hooks _ Hst _ _ Hl) as Hh.
  unfold future_discard, update_future.
  destruct (request_discard_cases (the_future w) Hh)
    as [E|[(Hs & Hd & Hr & E)|(Hs & Hd & Hr & E)]]; rewrite E; simpl.
  - left. now apply put_future_same.
  - right; left. repeat split; try assumption.
    eexists. split; [|split; [|reflexivity]]; [|reflexivity].
    unfold same_but_flag; simpl. auto.
  - right; right. auto.
Qed.

Lemma condition_discard_cases w :
  Store w ->
  condition_discard w = w \/
  (state (the_condition w) = PENDING /\ reaction (the_condition w) = PENDING /\
   exists d', same_but_flag (the_condition w) d' /\ discard d' = true /\
              condition_discard w = put_condition d' w) \/
  (state (the_condition w) = PENDING /\ reaction (the_condition w) <> PENDING /\
   condition_discard w =
     invoke (onAnyCallbacks (the_condition w))
            (put_condition (mkData (reaction (the_condition w)) true [] []
                                   (reaction (the_condition w))) w)).
Proof.
  intros Hst.
  pose proof (Store_lookup_condition _ Hst) as Hl.
  pose proof (st_condition_hooks _ Hst _ _ Hl) as Hh.
  unfold condition_discard, update_condition.
  destruct (request_discard_cases (the_condition w) Hh)
    as [E|[(Hs & Hd & Hr & E)|(Hs & Hd & Hr & E)]]; rewrite E; simpl.
  - left. now apply put_condition_same.
  - right; left. repeat split; try assumption.
    eexists. split; [|split; [|reflexivity]]; [|reflexivity].
    unfold same_but_flag; simpl. auto.
  - right; right. auto.
Qed.

Lemma ready_kept_insert (fs : list (Data T)) k (d' : Data T) :
  (forall d v, fs !! k = Some d -> state d = READY v -> state d' = READY v) ->
  forall i d v, fs !! i = Some d -> state d = READY v ->
    exists d0, <[k := d']> fs !! i = Some d0 /\ state d0 = READY v.
Proof.
  intros H i d v Hi Hv. destruct (decide (i = k)) as [->|Hne].
  - exists d'. split; [|eauto].
    apply list_lookup_insert_eq. eapply lookup_lt_Some; eauto.
  - exists d. rewrite list_lookup_insert_ne by auto. auto.
Qed.

Lemma AtFuture_replace w d' :
  AtFuture w -> onAnyCallbacks d' = [] -> onDiscardCallbacks d' = [] ->
  (forall v, state (the_future w) = READY v -> state d' = READY v) ->
  AtFuture (put_future d' w).
Proof.
  intros [af_store af_chronicle af_hooks af_slots af_outer af_cbs af_wakes] Ha Hd Hv.
  pose proof (Store_lookup_future _ af_store) as Hl.
  pose proof (st_le _ af_store).
  constructor; try assumption.
  - eapply Store_set_future with (w := w);
      [eassumption|reflexivity|reflexivity|reflexivity|reflexivity|..];
      auto; intros; lia.
  - by_frame w.
    apply ready_kept_insert. intros d v Hd0 Hv0. apply Hv.
    fold (cur_future w) in Hd0. congruence.
  - by_frame w.
  - erewrite (the_future_insert w _ _ af_store) by reflexivity. assumption.
Qed.

Lemma AtCondition_replace w d' :
  AtCondition w -> onAnyCallbacks d' = [] -> onDiscardCallbacks d' = [] ->
  AtCondition (put_condition d' w).
Proof.
  intros [ac_store ac_chronicle ac_hooks ac_slots ac_called ac_outer ac_cbs ac_wakes] Ha Hd.
  pose proof (Store_lookup_condition _ ac_store) as Hl.
  constructor; try assumption.
  - eapply Store_set_condition with (w := w);
      [eassumption|reflexivity|reflexivity|reflexivity|reflexivity|..];
      auto; intros; lia.
  - by_frame w.
  - by_frame w.
  - erewrite (the_condition_insert w _ _ ac_store) by reflexivity. assumption.
Qed.

Lemma AtFuture_future_discard w : AtFuture w -> AtFuture (future_discard w).
Proof.
  intros H. pose proof (af_store _ H) as Hst. pose proof (af_cbs _ H) as Hc.
  destruct (future_discard_cases w Hst)
    as [E|[(Hs & Hr & d' & (S1 & S2 & S3 & S4) & _ & E)|(Hs & Hr & E)]]; rewrite E.
  - assumption.
  - pose proof (Store_lookup_future _ Hst) as Hl.
    apply AtFuture_replace; try congruence.
    rewrite S3. eapply st_future_hooks; eauto.
  - rewrite Hc. apply AtFuture_replace; auto. congruence.
Qed.

Lemma AtCondition_condition_discard w :
  AtCondition w -> AtCondition (condition_discard w).
Proof.
  intros H. pose proof (ac_store _ H) as Hst. pose proof (ac_cbs _ H) as Hc.
  destruct (condition_discard_cases w Hst)
    as [E|[(Hs & Hr & d' & (S1 & S2 & S3 & S4) & _ & E)|(Hs & Hr & E)]]; rewrite E.
  - assumption.
  - pose proof (Store_lookup_condition _ Hst) as Hl.
    apply AtCondition_replace; try congruence.
    rewrite S3. eapply st_condition_hooks; eauto.
  - rewrite Hc. apply AtCondition_replace; auto.
Qed.

Lemma AtCondition_continue w :
  AtCondition w -> state (the_condition w) = READY true -> AtIterate w.
Proof.
  intros [ac_store ac_chronicle ac_hooks ac_slots ac_called ac_outer ac_cbs
      ac_wakes] Hv. constructor; auto. Qed.

(** ** Between two closures *)

Lemma consumed_ready w :
  Store w -> cur_future w = cur_condition w -> 1 <= cur_condition w ->
  exists v, state (the_future w) = READY v.
Proof.
  intros Hs E H1. eapply st_consumed; eauto using Store_lookup_future; lia.
Qed.

Lemma continued_ready w :
  Store w -> cur_future w = S (cur_condition w) -> 1 <= cur_condition w ->
  state (the_condition w) = READY true.
Proof.
  intros Hs E H1. eapply st_continued; eauto using Store_lookup_condition; lia.
Qed.

Lemma Phase_frame w w' :
  cur_future w' = cur_future w -> cur_condition w' = cur_condition w ->
  state (outer w') = state (outer w) ->
  state (the_future w') = state (the_future w) ->
  onAnyCallbacks (the_future w') = onAnyCallbacks (the_future w) ->
  state (the_condition w') = state (the_condition w) ->
  onAnyCallbacks (the_condition w') = onAnyCallbacks (the_condition w) ->
  wakes w' = wakes w ->
  Phase w -> Phase w'.
Proof.
  intros Hcf Hcc Ho Hfs Hfa Hcs Hca Hw H.
  destruct H; [constructor 1|constructor 2|constructor 3|constructor 4|
               constructor 5|constructor 6];
    unfold outcome, outcome_of in *; rewrite ?Hcf, ?Hcc, ?Ho, ?Hfs, ?Hfa, ?Hcs, ?Hca, ?Hw;
    assumption.
Qed.

(** A change of the recorded request alone goes unnoticed. *)
Lemma Inv_put_future w d' :
  Inv w -> same_but_flag (the_future w) d' -> Inv (put_future d' w).
Proof.
  intros [Hs Hc Hh Hp] (S1 & S2 & S3 & S4).
  pose proof (Store_lookup_future _ Hs) as Hl.
  assert (Ht : the_future (put_future d' w) = d')
    by (erewrite (the_future_insert w _ _ Hs) by reflexivity; reflexivity).
  constructor.
  - eapply Store_set_future with (w := w);
      [eassumption|reflexivity|reflexivity|reflexivity|reflexivity|..].
    + rewrite S3. eapply st_future_hooks; eauto.
    + rewrite S1, S2. eapply st_future_cbs; eauto.
    + intros H1 H2. rewrite S1. eapply st_consumed; eauto.
    + intros E0. destruct (st_future0 _ Hs) as (d0 & Hd0 & ? & ? & ?).
      rewrite E0 in Hl. assert (d0 = the_future w) as -> by congruence.
      rewrite S1, S2, S4. auto.
  - by_frame w.
    apply ready_kept_insert. intros d v Hd0 Hv0.
    fold (cur_future w) in Hd0. congruence.
  - by_frame w.
  - eapply Phase_frame with (w := w); eauto; rewrite Ht; assumption.
Qed.

Lemma Inv_put_condition w d' :
  Inv w -> same_but_flag (the_condition w) d' -> Inv (put_condition d' w).
Proof.
  intros [Hs Hc Hh Hp] (S1 & S2 & S3 & S4).
  pose proof (Store_lookup_condition _ Hs) as Hl.
  assert (Ht : the_condition (put_condition d' w) = d')
    by (erewrite (the_condition_insert w _ _ Hs) by reflexivity; reflexivity).
  constructor.
  - eapply Store_set_condition with (w := w);
      [eassumption|reflexivity|reflexivity|reflexivity|reflexivity|..].
    + rewrite S3. eapply st_condition_hooks; eauto.
    + rewrite S1, S2. eapply st_condition_cbs; eauto.
    + intros H1 H2. rewrite S1. eapply st_continued; eauto.
    + intros E0. destruct (st_condition0 _ Hs) as (d0 & Hd0 & ? & ? & ?).
      rewrite E0 in Hl. assert (d0 = the_condition w) as -> by congruence.
      rewrite S1, S2, S4. auto.
  - by_frame w.
  - by_frame w.
  - eapply Phase_frame with (w := w); eauto; rewrite Ht; assumption.
Qed.

(** A pending value can only be the one the driver is waiting for. *)
Lemma pending_future_awaited w :
  Inv w -> state (the_future w) = PENDING -> 1 <= cur_future w ->
  cur_future w = S (cur_condition w) /\ state (outer w) = PENDING /\
  onAnyCallbacks (the_future w) = [(Pid, FutureWake)] /\ wakes w = [].
Proof.
  intros [Hs Hc Hh Hp] Hpen H1.
  assert (Hno : cur_future w = cur_condition w -> 1 <= cur_condition w -> False).
  { intros E H. destruct (consumed_ready w Hs E H) as [v Hv]. congruence. }
  destruct Hp as [? ? ? ?|? ? ? ? ?|? ? ? ?|? ? ? ? ? ?|? ? ? ? ?|Ho ?];
    try (exfalso; lia); try (exfalso; congruence);
    try (exfalso; auto; fail); try (repeat split; assumption).
  - exfalso. unfold outcome, outcome_of in Ho. destruct (state (outer w)).
    + assumption.
    + destruct Ho as (? & ? & ?); auto.
    + destruct Ho as [[? ?]|(? & ? & ?)]; [congruence|auto].
    + destruct Ho as [[? ?]|(? & ? & ?)]; [congruence|auto].
Qed.

Lemma pending_condition_awaited w :
  Inv w -> state (the_condition w) = PENDING -> 1 <= cur_condition w ->
  cur_future w = cur_condition w /\ state (outer w) = PENDING /\
  onAnyCallbacks (the_condition w) = [(Pid, ConditionWake)] /\ wakes w = [].
Proof.
  intros [Hs Hc Hh Hp] Hpen H1.
  assert (Hno : cur_future w = S (cur_condition w) -> False).
  { intros E. pose proof (continued_ready w Hs E H1). congruence. }
  destruct Hp as [? ? ? ?|? ? ? ? ?|? ? ? ?|? ? ? ? ? ?|? ? ? ? ?|Ho ?];
    try (exfalso; lia); try (exfalso; congruence);
    try (exfalso; auto; fail); try (repeat split; assumption).
  - exfalso. unfold outcome, outcome_of in Ho. destruct (state (outer w)).
    + assumption.
    + destruct Ho as (? & ? & ?); congruence.
    + destruct Ho as [[? ?]|(? & ? & ?)]; [auto|congruence].
    + destruct Ho as [[? ?]|(? & ? & ?)]; [auto|congruence].
Qed.

Lemma Inv_settle_future w s b r :
  Inv w -> state (the_future w) = PENDING -> 1 <= cur_future w ->
  s <> PENDING ->
  Inv (invoke (onAnyCallbacks (the_future w)) (put_future (mkData s b [] [] r) w)).
Proof.
  intros H Hpen H1 Hs.
  destruct (pending_future_awaited w H Hpen H1) as (E & Ho & Ha & Hw).
  destruct H as [Hst Hc Hh Hp]. rewrite Ha, invoke_eq.
  pose proof (st_le _ Hst).
  assert (Ht : forall m e,
    the_future (mkWorld (user w) (<[cur_future w := mkData s b [] [] r]> (futures w))
                  (conditions w) (loop_state w) m e (process w) (history w))
    = mkData s b [] [] r)
    by (intros; erewrite (the_future_insert w _ _ Hst) by reflexivity; reflexivity).
  constructor.
  - eapply Store_set_future with (w := w);
      [eassumption|reflexivity|reflexivity|reflexivity|reflexivity|..];
      simpl; auto; intros; lia.
  - by_frame w.
    apply ready_kept_insert. intros d v Hd0 Hv0.
    pose proof (Store_lookup_future _ Hst) as Hl.
    fold (cur_future w) in Hd0. congruence.
  - eapply Hooks_frame with (w := w); simpl; rewrite ?app_nil_r; eauto.
  - apply FutureSettled; try assumption.
    + unfold put_future; simpl. fold (cur_future w). rewrite Ht. assumption.
    + unfold wakes; simpl. rewrite wakes_app, Hw. reflexivity.
Qed.

Lemma Inv_settle_condition w s b r :
  Inv w -> state (the_condition w) = PENDING -> 1 <= cur_condition w ->
  s <> PENDING ->
  Inv (invoke (onAnyCallbacks (the_condition w))
              (put_condition (mkData s b [] [] r) w)).
Proof.
  intros H Hpen H1 Hs.
  destruct (pending_condition_awaited w H Hpen H1) as (E & Ho & Ha & Hw).
  destruct H as [Hst Hc Hh Hp]. rewrite Ha, invoke_eq.
  assert (Ht : forall m e,
    the_condition (mkWorld (user w) (futures w)
                  (<[cur_condition w := mkData s b [] [] r]> (conditions w))
                  (loop_state w) m e (process w) (history w))
    = mkData s b [] [] r)
    by (intros; erewrite (the_condition_insert w _ _ Hst) by reflexivity; reflexivity).
  constructor.
  - eapply Store_set_condition with (w := w);
      [eassumption|reflexivity|reflexivity|reflexivity|reflexivity|..];
      simpl; auto; intros; lia.
  - by_frame w.
  - eapply Hooks_frame with (w := w); simpl; rewrite ?app_nil_r; eauto.
  - apply ConditionSettled; try assumption.
    + unfold put_condition; simpl. fold (cur_condition w). rewrite Ht. assumption.
    + unfold wakes; simpl. rewrite wakes_app, Hw. reflexivity.
Qed.

Lemma reacting_future_called w :
  Store w -> reaction (the_future w) <> PENDING -> 1 <= cur_future w.
Proof.
  intros Hs Hr. destruct (decide (cur_future w = 0)) as [E|E]; [|lia].
  destruct (st_future0 _ Hs) as (d0 & Hd0 & ? & ? & ?).
  pose proof (Store_lookup_future _ Hs) as Hl. rewrite E in Hl. congruence.
Qed.

Lemma reacting_condition_called w :
  Store w -> reaction (the_condition w) <> PENDING -> 1 <= cur_condition w.
Proof.
  intros Hs Hr. destruct (decide (cur_condition w = 0)) as [E|E]; [|lia].
  destruct (st_condition0 _ Hs) as (d0 & Hd0 & ? & ? & ?).
  pose proof (Store_lookup_condition _ Hs) as Hl. rewrite E in Hl. congruence.
Qed.

Lemma Inv_future_discard w : Inv w -> Inv (future_discard w).
Proof.
  intros H. pose proof (inv_store _ H) as Hst.
  destruct (future_discard_cases w Hst)
    as [E|[(Hs & Hr & d' & Hsame & _ & E)|(Hs & Hr & E)]]; rewrite E.
  - assumption.
  - now apply Inv_put_future.
  - apply Inv_settle_future; auto using reacting_future_called.
Qed.

Lemma Inv_condition_discard w : Inv w -> Inv (condition_discard w).
Proof.
  intros H. pose proof (inv_store _ H) as Hst.
  destruct (condition_discard_cases w Hst)
    as [E|[(Hs & Hr & d' & Hsame & _ & E)|(Hs & Hr & E)]]; rewrite E.
  - assumption.
  - now apply Inv_put_condition.
  - apply Inv_settle_condition; auto using reacting_condition_called.
Qed.

Lemma Inv_root_discard w : Inv w -> Inv (root_discard w).
Proof.
  intros H. unfold root_discard.
  now apply Inv_condition_discard, Inv_future_discard.
Qed.

(** Subscribing to the value the driver has to wait for. *)
Lemma AtFuture_onAny w :
  AtFuture w -> (forall v, state (the_future w) <> READY v) ->
  Inv (future_onAny (Pid, FutureWake) w).
Proof.
  intros H Hv.
  assert (H' : AtFuture (log EvOnAny w))
    by (apply AtFuture_log; auto; discriminate).
  destruct H as [Hst Hch Hhk Hsl Ho Hcb Hw].
  destruct H' as [Hst' Hch' Hhk' _ _ _ _].
  unfold future_onAny, update_future. rewrite invoke_eq.
  destruct (pending_or_not (state (the_future w))) as [Hp|Hp].
  - rewrite subscribe_onAny_pending by assumption. rewrite Hcb. simpl.
    rewrite !app_nil_r.
    set (d' := mkData PENDING (discard (the_future w))
                      (onDiscardCallbacks (the_future w)) [(Pid, FutureWake)]
                      (reaction (the_future w))).
    set (w' := mkWorld _ _ _ _ _ _ _ _).
    assert (Ht : the_future w' = d')
      by (erewrite (the_future_insert (log EvOnAny w) _ _ Hst') by reflexivity;
          reflexivity).
    pose proof (st_le _ Hst).
    constructor.
    + eapply Store_set_future with (w := log EvOnAny w);
        [eassumption|reflexivity|reflexivity|reflexivity|reflexivity|..];
        simpl; try congruence.
      * exact (st_future_hooks _ Hst _ _ (Store_lookup_future _ Hst)).
      * unfold cur_future, cur_condition in *; simpl; intros; lia.
      * unfold cur_future, cur_condition in *; simpl; intros; lia.
    + by_frame (log EvOnAny w).
      apply ready_kept_insert. intros d v Hd0 Hv0.
      pose proof (Store_lookup_future _ Hst) as Hl.
      simpl in Hd0. fold (cur_future w) in Hd0. congruence.
    + by_frame (log EvOnAny w).
    + apply AwaitingFuture; try assumption; rewrite Ht; reflexivity.
  - rewrite subscribe_onAny_settled by assumption. simpl.
    rewrite !app_nil_r.
    rewrite list_insert_id by (apply (Store_lookup_future _ Hst)).
    constructor.
    + by_frame w.
    + by_frame (log EvOnAny w).
    + by_frame w.
    + apply FutureSettled; try assumption.
      unfold wakes; simpl. rewrite wakes_app, Hw. reflexivity.
Qed.

Lemma AtCondition_log w e :
  settling e = false -> e <> EvIterate -> (forall v, e <> EvBody v) ->
  AtCondition w -> AtCondition (log e w).
Proof.
  intros He Hi Hb [ac_store ac_chronicle ac_hooks ac_slots ac_called ac_outer
      ac_cbs ac_wakes]. constructor; try assumption.
  - by_frame w.
  - eapply Chronicle_frame with (w := w); eauto; simpl.
    + rewrite iterations_app. destruct e; simpl; try lia. congruence.
    + rewrite bodies_app. destruct e; simpl; rewrite ?app_nil_r; try reflexivity.
      now destruct (Hb v).
    + rewrite due_snoc. destruct e; simpl; try reflexivity; try congruence.
    + rewrite settlements_app. destruct e; simpl; try lia; discriminate.
  - by_frame w.
Qed.

Lemma AtCondition_onAny w :
  AtCondition w -> (forall b, state (the_condition w) <> READY b) ->
  Inv (condition_onAny (Pid, ConditionWake) w).
Proof.
  intros H Hv.
  assert (H' : AtCondition (log EvOnAny w))
    by (apply AtCondition_log; auto; discriminate).
  destruct H as [Hst Hch Hhk Hsl H1 Ho Hcb Hw].
  destruct H' as [Hst' Hch' Hhk' _ _ _ _ _].
  unfold condition_onAny, update_condition. rewrite invoke_eq.
  destruct (pending_or_not (state (the_condition w))) as [Hp|Hp].
  - rewrite subscribe_onAny_pending by assumption. rewrite Hcb. simpl.
    rewrite !app_nil_r.
    set (d' := mkData PENDING (discard (the_condition w))
                      (onDiscardCallbacks (the_condition w)) [(Pid, ConditionWake)]
                      (reaction (the_condition w))).
    set (w' := mkWorld _ _ _ _ _ _ _ _).
    assert (Ht : the_condition w' = d')
      by (erewrite (the_condition_insert (log EvOnAny w) _ _ Hst') by reflexivity;
          reflexivity).
    constructor.
    + eapply Store_set_condition with (w := log EvOnAny w);
        [eassumption|reflexivity|reflexivity|reflexivity|reflexivity|..];
        simpl; try congruence.
      * exact (st_condition_hooks _ Hst _ _ (Store_lookup_condition _ Hst)).
      * unfold cur_future, cur_condition in *; simpl; intros; lia.
      * unfold cur_future, cur_condition in *; simpl; intros; lia.
    + by_frame (log EvOnAny w).
    + by_frame (log EvOnAny w).
    + apply AwaitingCondition; try assumption; rewrite Ht; reflexivity.
  - rewrite subscribe_onAny_settled by assumption. simpl.
    rewrite !app_nil_r.
    rewrite list_insert_id by (apply (Store_lookup_condition _ Hst)).
    constructor.
    + by_frame w.
    + by_frame (log EvOnAny w).
    + by_frame w.
    + apply ConditionSettled; try assumption.
      unfold wakes; simpl. rewrite wakes_app, Hw. reflexivity.
Qed.

(** Settling the promise. *)
Lemma Inv_settle_promise w s e :
  Store w -> Chronicle w -> Hooks w ->
  state (outer w) = PENDING -> wakes w = [] ->
  settling e = true -> outcome_of s w ->
  Inv (update_promise (settle s (outer w)) (log e w)).
Proof.
  intros Hst Hch Hhk Ho Hw He Hout.
  assert (Hs : s <> PENDING) by (intros ->; exact Hout).
  unfold update_promise. rewrite settle_pending by assumption.
  cbn [fst snd]. rewrite invoke_eq.
  assert (Hpost : posted Pid (onAnyCallbacks (outer w)) = [] /\
    match process w with
    | Supplied | Spawned => executor w ++ posted Executor (onAnyCallbacks (outer w)) = []
    | Attached => executor w ++ posted Executor (onAnyCallbacks (outer w)) = [Cleanup]
    | Deleted => False
    end).
  { destruct Hhk as [_ _ Hh]. destruct (process w).
    - destruct Hh as [-> ->]. auto.
    - destruct Hh as [-> ->]. auto.
    - destruct Hh as [(_ & -> & ->)|(? & _)]; [auto|congruence].
    - destruct Hh as (? & _). congruence. }
  destruct Hpost as [Hp He']. rewrite Hp, app_nil_r.
  set (ex := _ ++ posted Executor _) in *.
  set (w' := mkWorld _ _ _ _ _ _ _ _).
  constructor.
  - by_frame w.
  - eapply Chronicle_settle with (w := w); eauto.
  - destruct Hhk as [Hr _ _]. constructor; simpl.
    + assumption.
    + unfold outer, isPending; simpl.
      destruct s; [congruence| | |]; now rewrite andb_false_r.
    + destruct (process w); tauto.
  - apply Settled; [|assumption].
    unfold outcome. simpl.
    destruct s; simpl in *; try assumption.
Qed.

Lemma AtCondition_stop w :
  AtCondition w -> state (the_condition w) = READY false -> Inv (promise_set w).
Proof.
  intros [ac_store ac_chronicle ac_hooks ac_slots ac_called ac_outer ac_cbs
      ac_wakes] Hv. apply Inv_settle_promise; simpl; auto.
Qed.

Lemma AtCondition_fail w r :
  AtCondition w -> state (the_condition w) = FAILED r -> Inv (promise_fail r w).
Proof.
  intros [ac_store ac_chronicle ac_hooks ac_slots ac_called ac_outer ac_cbs
      ac_wakes] Hv. apply Inv_settle_promise; simpl; auto.
Qed.

Lemma AtCondition_discarded w :
  AtCondition w -> state (the_condition w) = DISCARDED -> Inv (promise_discard w).
Proof.
  intros [ac_store ac_chronicle ac_hooks ac_slots ac_called ac_outer ac_cbs
      ac_wakes] Hv. apply Inv_settle_promise; simpl; auto.
Qed.

Lemma AtFuture_fail w r :
  AtFuture w -> state (the_future w) = FAILED r -> Inv (promise_fail r w).
Proof.
  intros [af_store af_chronicle af_hooks af_slots af_outer af_cbs af_wakes]
      Hv. apply Inv_settle_promise; simpl; auto.
Qed.

Lemma AtFuture_discarded w :
  AtFuture w -> state (the_future w) = DISCARDED -> Inv (promise_discard w).
Proof.
  intros [af_store af_chronicle af_hooks af_slots af_outer af_cbs af_wakes]
      Hv. apply Inv_settle_promise; simpl; auto.
Qed.

(** ** [run] keeps the invariant *)

Lemma AtIterate_next w :
  AtIterate w ->
  AtFuture (let w := assign_future iterate w in
            if hasDiscard (promise (loop_state w)) then future_discard w else w).
Proof.
  intros H. apply AtIterate_assign_future in H. simpl.
  destruct (hasDiscard _); auto using AtFuture_future_discard.
Qed.

Lemma run_while_Inv fuel : forall w w',
  AtFuture w -> run_while iterate body fuel w = Some w' -> Inv w'.
Proof.
  induction fuel as [|fuel IH]; intros w w' H Hrun; simpl in Hrun.
  - destruct (state (the_future w)) eqn:E; try discriminate;
      injection Hrun as <-; apply AtFuture_onAny; auto; congruence.
  - destruct (state (the_future w)) as [|v| |] eqn:E;
      try (injection Hrun as <-; apply AtFuture_onAny; auto; congruence).
    pose proof (AtFuture_assign_condition w v H E) as Hc.
    set (w1 := assign_condition body v w) in *.
    assert (Hc2 : AtCondition (if hasDiscard (promise (loop_state w1))
                               then condition_discard w1 else w1))
      by (destruct (hasDiscard _); auto using AtCondition_condition_discard).
    set (w2 := if hasDiscard (promise (loop_state w1))
               then condition_discard w1 else w1) in *.
    destruct (state (the_condition w2)) as [|[|]| |] eqn:E2.
    + injection Hrun as <-. apply AtCondition_onAny; auto; congruence.
    + eapply IH; [|exact Hrun].
      apply AtIterate_next. now apply AtCondition_continue.
    + injection Hrun as <-. now apply AtCondition_stop.
    + injection Hrun as <-. apply AtCondition_onAny; auto; congruence.
    + injection Hrun as <-. apply AtCondition_onAny; auto; congruence.
Qed.

Lemma run_Inv fuel w w' :
  AtFuture w -> run iterate body fuel w = Some w' -> Inv w'.
Proof.
  intros H Hrun. unfold run in Hrun. eapply run_while_Inv; [|exact Hrun].
  apply AtFuture_log; auto; discriminate.
Qed.

(** ** Every step keeps the invariant *)

Lemma Inv_execute_Pid fuel f rest w w' :
  Inv w -> mailbox w = f :: rest ->
  execute iterate body Pid fuel f (set_mailbox rest w) = Some w' -> Inv w'.
Proof.
  intros [Hst Hch Hhk Hp] Hm Hex.
  assert (Hst' : Store (set_mailbox rest w))
    by (eapply Store_frame with (w := w); eauto).
  assert (Hch' : Chronicle (set_mailbox rest w))
    by (eapply Chronicle_frame with (w := w); eauto).
  assert (Hhk' : Hooks (set_mailbox rest w))
    by (eapply Hooks_frame with (w := w); eauto).
  assert (Hw : wakes w = if is_wake f then f :: List.filter is_wake rest
                         else List.filter is_wake rest)
    by (unfold wakes; rewrite Hm; reflexivity).
  destruct f; simpl in Hw, Hex.
  - (* Bootstrap *)
    destruct Hp as [? ? ? Hk|? ? ? ? Hk|? ? ? Hk|? ? ? ? ? Hk|? ? ? ? Hk|? Hk];
      rewrite Hk in Hw; try discriminate.
    injection Hw as Hw. unfold bootstrap in Hex.
    eapply run_Inv; [|exact Hex]. apply AtIterate_next.
    constructor; auto;
      unfold wakes, cur_future, cur_condition in *; simpl; congruence.
  - (* ConditionWake *)
    destruct Hp as [? ? ? Hk|? ? ? ? Hk|? ? ? Hk|? ? ? ? ? Hk|? ? ? Hne Hk|? Hk];
      rewrite Hk in Hw; try discriminate.
    injection Hw as Hw.
    assert (Hat : AtCondition (set_mailbox rest w)).
    { constructor; auto; try (unfold wakes; simpl; congruence).
      change (the_condition (set_mailbox rest w)) with (the_condition w).
      exact (st_condition_cbs _ Hst _ _ (Store_lookup_condition _ Hst) Hne). }
    unfold condition_wake in Hex.
    change (the_condition (set_mailbox rest w)) with (the_condition w) in Hex.
    destruct (state (the_condition w)) as [|[|]|r|] eqn:E.
    + congruence.
    + eapply run_Inv; [|exact Hex]. apply AtIterate_next.
      now apply AtCondition_continue.
    + injection Hex as <-. now apply AtCondition_stop.
    + injection Hex as <-. now apply AtCondition_fail.
    + injection Hex as <-. now apply AtCondition_discarded.
  - (* FutureWake *)
    destruct Hp as [? ? ? Hk|? ? ? ? Hk|? ? Hne Hk|? ? ? ? ? Hk|? ? ? ? Hk|? Hk];
      rewrite Hk in Hw; try discriminate.
    injection Hw as Hw.
    assert (Hat : AtFuture (set_mailbox rest w)).
    { constructor; auto; try (unfold wakes; simpl; congruence).
      change (the_future (set_mailbox rest w)) with (the_future w).
      exact (st_future_cbs _ Hst _ _ (Store_lookup_future _ Hst) Hne). }
    unfold future_wake in Hex.
    change (the_future (set_mailbox rest w)) with (the_future w) in Hex.
    destruct (state (the_future w)) as [|v|r|] eqn:E.
    + congruence.
    + eapply run_Inv; [|exact Hex]. assumption.
    + injection Hex as <-. now apply AtFuture_fail.
    + injection Hex as <-. now apply AtFuture_discarded.
  - (* RootDiscard *)
    injection Hex as <-. apply Inv_root_discard. constructor; auto.
    eapply Phase_frame with (w := w); eauto.
  - (* Cleanup *)
    discriminate.
Qed.

Lemma settled_phase w :
  Phase w -> state (outer w) <> PENDING -> outcome w /\ wakes w = [].
Proof. intros [] Hne; auto; congruence. Qed.

Lemma Inv_execute_Executor fuel f rest w w' :
  Inv w -> executor w = f :: rest ->
  execute iterate body Executor fuel f (set_executor rest w) = Some w' -> Inv w'.
Proof.
  intros [Hst Hch Hhk Hp] Hm Hex.
  pose proof (hk_helper _ Hhk) as Hh. rewrite Hm in Hh.
  destruct (process w) eqn:Ep; try (destruct Hh as (? & ? & ?); discriminate);
    try (destruct Hh as (? & ?); discriminate).
  destruct Hh as [(_ & _ & ?)|(Ho & Ha & E)]; [discriminate|].
  injection E as -> ->. simpl in Hex. injection Hex as <-.
  destruct (settled_phase w Hp Ho) as [Hout Hw].
  constructor.
  - by_frame w.
  - by_frame w.
  - destruct Hhk as [Hr Hd _]. constructor; simpl; auto.
  - apply Settled; auto.
Qed.

Lemma Inv_outer w d' m :
  Inv w ->
  state d' = state (outer w) -> onAnyCallbacks d' = onAnyCallbacks (outer w) ->
  reaction d' = reaction (outer w) ->
  onDiscardCallbacks d' =
    (if negb (discard d') && isPending d' then [(Pid, RootDiscard)] else []) ->
  List.filter is_wake m = [] ->
  Inv (mkWorld (user w) (futures w) (conditions w)
               (mkLoop d' (cur_future w) (cur_condition w))
               (mailbox w ++ m) (executor w) (process w) (history w)).
Proof.
  intros [Hst Hch Hhk Hp] Hs Ha Hr Hd Hm.
  constructor.
  - by_frame w.
  - by_frame w.
  - destruct Hhk as [Hr' Hd' Hh]. unfold outer in *.
    constructor; unfold outer; simpl.
    + congruence.
    + auto.
    + rewrite Hs, Ha. exact Hh.
  - eapply Phase_frame with (w := w); eauto.
    unfold wakes; simpl. rewrite wakes_app, Hm. apply app_nil_r.
Qed.

Lemma Inv_discard_outer w :
  Inv w -> Inv (update_promise (request_discard (promise (loop_state w))) w).
Proof.
  intros H. pose proof (inv_hooks _ H) as [Hr Hd Hh].
  unfold update_promise. rewrite invoke_eq.
  change (promise (loop_state w)) with (outer w).
  unfold request_discard.
  destruct (negb (discard (outer w)) && isPending (outer w)) eqn:E.
  - apply andb_prop in E as [_ E]. apply isPending_true in E.
    rewrite Hr, Hd. simpl. rewrite (app_nil_r (executor w)).
    apply (Inv_outer w _ [RootDiscard]); auto.
  - simpl. rewrite (app_nil_r (executor w)).
    apply (Inv_outer w (outer w) []); auto. now rewrite E.
Qed.

Lemma Inv_attach w : Inv w -> process w = Spawned -> Inv (attach w).
Proof.
  intros [Hst Hch Hhk Hp] Hsp. unfold attach, update_promise.
  rewrite invoke_eq.
  pose proof (hk_helper _ Hhk) as Hh. rewrite Hsp in Hh. destruct Hh as [Ha He].
  destruct Hhk as [Hr Hd _].
  change (promise (loop_state w)) with (outer w).
  destruct (pending_or_not (state (outer w))) as [Ho|Ho].
  - rewrite subscribe_onAny_pending by assumption. rewrite Ha. simpl.
    rewrite !app_nil_r.
    constructor.
    + by_frame w.
    + by_frame w.
    + unfold outer, isPending in *. constructor; unfold outer, isPending;
        simpl; auto.
      rewrite Hd, Ho. reflexivity.
    + eapply Phase_frame with (w := w); eauto.
  - rewrite subscribe_onAny_settled by assumption. simpl.
    rewrite !app_nil_r, He. simpl.
    constructor.
    + by_frame w.
    + by_frame w.
    + unfold outer in *. constructor; simpl; auto.
    + eapply Phase_frame with (w := w); eauto.
Qed.

(** A pending cell a producer may still settle is the one in the slot. *)
Lemma pending_future_current w i d :
  Store w -> futures w !! i = Some d -> 1 <= i -> state d = PENDING ->
  i = cur_future w /\ d = the_future w.
Proof.
  intros Hst Hi H1 Hp.
  assert (i = cur_future w) as ->.
  { pose proof (lookup_lt_Some _ _ _ Hi). pose proof (st_future _ Hst).
    pose proof (st_ge _ Hst).
    destruct (decide (i <= cur_condition w)) as [Hle|Hgt]; [|lia].
    destruct (st_consumed _ Hst _ _ Hi H1 Hle) as [v Hv]. congruence. }
  split; [reflexivity|].
  pose proof (Store_lookup_future _ Hst). congruence.
Qed.

Lemma pending_condition_current w i d :
  Store w -> conditions w !! i = Some d -> 1 <= i -> state d = PENDING ->
  i = cur_condition w /\ d = the_condition w.
Proof.
  intros Hst Hi H1 Hp.
  assert (i = cur_condition w) as ->.
  { pose proof (lookup_lt_Some _ _ _ Hi). pose proof (st_condition _ Hst).
    pose proof (st_le _ Hst).
    destruct (decide (i < cur_future w)) as [Hlt|Hge]; [|lia].
    pose proof (st_continued _ Hst _ _ Hi H1 Hlt). congruence. }
  split; [reflexivity|].
  pose proof (Store_lookup_condition _ Hst). congruence.
Qed.

Theorem exec_Inv fuel l w w' :
  Inv w -> exec iterate body fuel l w = Some w' -> Inv w'.
Proof.
  intros H Hex. destruct l; simpl in Hex.
  - destruct (mailbox w) as [|f rest] eqn:Hm; [discriminate|].
    destruct (alive (process w)); [|discriminate].
    eapply Inv_execute_Pid; eauto.
  - destruct (executor w) as [|f rest] eqn:Hm; [discriminate|].
    eapply Inv_execute_Executor; eauto.
  - destruct i as [|i]; [discriminate|].
    destruct (futures w !! S i) as [d|] eqn:Hi; [|discriminate].
    destruct (isPending d) eqn:Hp; [|discriminate].
    destruct (terminal s) eqn:Ht; [|discriminate].
    simpl in Hex. injection Hex as <-.
    apply isPending_true in Hp. apply terminal_not_pending in Ht.
    destruct (pending_future_current w (S i) d (inv_store _ H) Hi) as [Ei ->];
      [lia|assumption|].
    rewrite settle_pending by assumption. simpl. rewrite Ei.
    apply Inv_settle_future; auto. lia.
  - destruct i as [|i]; [discriminate|].
    destruct (conditions w !! S i) as [d|] eqn:Hi; [|discriminate].
    destruct (isPending d) eqn:Hp; [|discriminate].
    destruct (terminal s) eqn:Ht; [|discriminate].
    simpl in Hex. injection Hex as <-.
    apply isPending_true in Hp. apply terminal_not_pending in Ht.
    destruct (pending_condition_current w (S i) d (inv_store _ H) Hi) as [Ei ->];
      [lia|assumption|].
    rewrite settle_pending by assumption. simpl. rewrite Ei.
    apply Inv_settle_condition; auto. lia.
  - injection Hex as <-. now apply Inv_discard_outer.
  - injection Hex as <-. destruct H as [Hst Hch Hhk Hp]. constructor.
    + by_frame w.
    + by_frame w.
    + by_frame w.
    + eapply Phase_frame with (w := w); eauto.
  - destruct (process w) eqn:Ep; try discriminate.
    injection Hex as <-. now apply Inv_attach.
Qed.

Lemma loop_Inv (u : U) : Inv (loop (T:=T) u).
Proof.
  constructor.
  - constructor; unfold cur_future, cur_condition; simpl;
      try reflexivity; try lia;
      try (exists Future_default; auto; fail);
      intros [|[|i]] d Hi; simpl in Hi; try discriminate;
      injection Hi as <-; simpl; solve [congruence | reflexivity].
  - constructor; simpl; try reflexivity.
    intros i v Hi. destruct i; discriminate.
  - constructor; simpl; auto.
  - apply Booting; reflexivity.
Qed.

Lemma loop_helper_Inv (u : U) : Inv (loop_helper (T:=T) u).
Proof.
  destruct (loop_Inv u) as [Hst Hch Hhk Hp]. unfold loop_helper. constructor.
  - by_frame (loop (T:=T) u).
  - by_frame (loop (T:=T) u).
  - constructor; simpl; auto.
  - eapply Phase_frame with (w := loop u); eauto.
Qed.

Lemma reachable_Inv w0 w :
  Inv w0 -> reachable iterate body w0 w -> Inv w.
Proof.
  intros H0 Hr. induction Hr as [|fuel l w w' _ IH Hex]; eauto using exec_Inv.
Qed.

(** ** Settled cells stay as they are *)

Lemma evolves_refl {A} (d : Data A) : evolves d d.
Proof. repeat split; auto. Qed.

Lemma evolves_trans {A} (d1 d2 d3 : Data A) :
  evolves d1 d2 -> evolves d2 d3 -> evolves d1 d3.
Proof.
  intros (H1 & H2 & H3) (H4 & H5 & H6). split; [|split; [auto|congruence]].
  intros Hne. rewrite <- (H1 Hne). apply H4. rewrite (H1 Hne). assumption.
Qed.

Lemma evolves_settle {A} (s : State A) (d : Data A) : evolves d (fst (settle s d)).
Proof.
  unfold settle. destruct (state d) eqn:E; simpl; try apply evolves_refl.
  repeat split; simpl; [congruence|auto].
Qed.

Lemma evolves_request_discard {A} (d : Data A) : evolves d (fst (request_discard d)).
Proof.
  unfold request_discard, isPending, settle.
  destruct (discard d) eqn:Ed; simpl; [apply evolves_refl|].
  destruct (state d) eqn:E; simpl; try apply evolves_refl.
  destruct (reaction d) eqn:Er; simpl; repeat split; simpl; congruence.
Qed.

Lemma evolves_subscribe {A} f (d : Data A) : evolves d (fst (subscribe_onAny f d)).
Proof.
  unfold subscribe_onAny.
  destruct (state d) eqn:E; simpl; try apply evolves_refl.
  repeat split; simpl; [congruence|auto].
Qed.

Lemma kept_refl w : kept w w.
Proof. repeat split; eauto using evolves_refl. Qed.

Lemma kept_trans w1 w2 w3 : kept w1 w2 -> kept w2 w3 -> kept w1 w3.
Proof.
  intros (Hf & Hc & Ho) (Hf' & Hc' & Ho'). split; [|split].
  - intros i d Hi. destruct (Hf i d Hi) as (d2 & H2 & E2).
    destruct (Hf' i d2 H2) as (d3 & H3 & E3). eauto using evolves_trans.
  - intros i d Hi. destruct (Hc i d Hi) as (d2 & H2 & E2).
    destruct (Hc' i d2 H2) as (d3 & H3 & E3). eauto using evolves_trans.
  - eauto using evolves_trans.
Qed.

Lemma kept_frame w w' :
  futures w' = futures w -> conditions w' = conditions w ->
  promise (loop_state w') = promise (loop_state w) -> kept w w'.
Proof.
  intros Hf Hc Ho. unfold kept. rewrite Hf, Hc, Ho.
  repeat split; eauto using evolves_refl.
Qed.

Lemma kept_invoke fs w : kept w (invoke fs w).
Proof. rewrite invoke_eq. now apply kept_frame. Qed.

Lemma kept_update_future r w :
  evolves (the_future w) (fst r) -> kept w (update_future r w).
Proof.
  intros He. unfold update_future. eapply kept_trans; [|apply kept_invoke].
  split; [|split]; simpl; eauto using evolves_refl.
  intros i d Hi. destruct (decide (i = future (loop_state w))) as [->|Hne].
  - exists (fst r). split.
    + apply list_lookup_insert_eq. eapply lookup_lt_Some; eauto.
    + unfold the_future in He. now rewrite Hi in He.
  - exists d. rewrite list_lookup_insert_ne by auto. auto using evolves_refl.
Qed.

Lemma kept_update_condition r w :
  evolves (the_condition w) (fst r) -> kept w (update_condition r w).
Proof.
  intros He. unfold update_condition. eapply kept_trans; [|apply kept_invoke].
  split; [|split]; simpl; eauto using evolves_refl.
  intros i d Hi. destruct (decide (i = condition (loop_state w))) as [->|Hne].
  - exists (fst r). split.
    + apply list_lookup_insert_eq. eapply lookup_lt_Some; eauto.
    + unfold the_condition in He. now rewrite Hi in He.
  - exists d. rewrite list_lookup_insert_ne by auto. auto using evolves_refl.
Qed.

Lemma kept_update_promise r w :
  evolves (promise (loop_state w)) (fst r) -> kept w (update_promise r w).
Proof.
  intros He. unfold update_promise. eapply kept_trans; [|apply kept_invoke].
  split; [|split]; simpl; eauto using evolves_refl.
Qed.

Lemma kept_log e w : kept w (log e w).
Proof. now apply kept_frame. Qed.

Lemma kept_assign_future w : kept w (assign_future iterate w).
Proof.
  unfold assign_future. destruct (iterate (user w)) as [u r].
  split; [|split]; simpl; eauto using evolves_refl.
  intros i d Hi. exists d. split; [|apply evolves_refl].
  rewrite lookup_app_l; [assumption|]. eapply lookup_lt_Some; eauto.
Qed.

Lemma kept_assign_condition v w : kept w (assign_condition body v w).
Proof.
  unfold assign_condition. destruct (body v (user w)) as [u r].
  split; [|split]; simpl; eauto using evolves_refl.
  intros i d Hi. exists d. split; [|apply evolves_refl].
  rewrite lookup_app_l; [assumption|]. eapply lookup_lt_Some; eauto.
Qed.

Lemma kept_future_discard w : kept w (future_discard w).
Proof. apply kept_update_future, evolves_request_discard. Qed.

Lemma kept_condition_discard w : kept w (condition_discard w).
Proof. apply kept_update_condition, evolves_request_discard. Qed.

Lemma kept_future_onAny f w : kept w (future_onAny f w).
Proof.
  unfold future_onAny. eapply kept_trans; [apply (kept_log EvOnAny)|].
  apply kept_update_future. apply evolves_subscribe.
Qed.

Lemma kept_condition_onAny f w : kept w (condition_onAny f w).
Proof.
  unfold condition_onAny. eapply kept_trans; [apply (kept_log EvOnAny)|].
  apply kept_update_condition. apply evolves_subscribe.
Qed.

Lemma kept_promise_set w : kept w (promise_set w).
Proof.
  unfold promise_set. eapply kept_trans; [apply (kept_log EvSet)|].
  apply kept_update_promise. apply evolves_settle.
Qed.

Lemma kept_promise_fail r w : kept w (promise_fail r w).
Proof.
  unfold promise_fail. eapply kept_trans; [apply (kept_log (EvFail r))|].
  apply kept_update_promise. apply evolves_settle.
Qed.

Lemma kept_promise_discard w : kept w (promise_discard w).
Proof.
  unfold promise_discard. eapply kept_trans; [apply (kept_log EvDiscard)|].
  apply kept_update_promise. apply evolves_settle.
Qed.

Lemma kept_root_discard w : kept w (root_discard w).
Proof.
  unfold root_discard.
  eapply kept_trans; [apply kept_future_discard|apply kept_condition_discard].
Qed.

Lemma kept_next_future w :
  kept w (let w := assign_future iterate w in
          if hasDiscard (promise (loop_state w)) then future_discard w else w).
Proof.
  simpl. eapply kept_trans; [apply kept_assign_future|].
  destruct (hasDiscard _); [apply kept_future_discard|apply kept_refl].
Qed.

Lemma kept_run_while fuel : forall w w',
  run_while iterate body fuel w = Some w' -> kept w w'.
Proof.
  induction fuel as [|fuel IH]; intros w w' Hrun; simpl in Hrun.
  - destruct (state (the_future w)); try discriminate;
      injection Hrun as <-; apply kept_future_onAny.
  - destruct (state (the_future w)) as [|v| |];
      try (injection Hrun as <-; apply kept_future_onAny).
    set (w1 := assign_condition body v w) in *.
    set (w2 := if hasDiscard (promise (loop_state w1))
               then condition_discard w1 else w1) in *.
    assert (K2 : kept w w2).
    { eapply kept_trans; [apply (kept_assign_condition v)|]. fold w1.
      subst w2. destruct (hasDiscard _);
        [apply kept_condition_discard|apply kept_refl]. }
    destruct (state (the_condition w2)) as [|[|]| |].
    + injection Hrun as <-.
      eapply kept_trans; [exact K2|apply kept_condition_onAny].
    + eapply kept_trans; [exact K2|].
      eapply kept_trans; [apply kept_next_future|]. apply IH. exact Hrun.
    + injection Hrun as <-.
      eapply kept_trans; [exact K2|apply kept_promise_set].
    + injection Hrun as <-.
      eapply kept_trans; [exact K2|apply kept_condition_onAny].
    + injection Hrun as <-.
      eapply kept_trans; [exact K2|apply kept_condition_onAny].
Qed.

Lemma kept_run fuel w w' : run iterate body fuel w = Some w' -> kept w w'.
Proof.
  intros H. eapply kept_trans; [apply (kept_log EvRun)|].
  eapply kept_run_while; eauto.
Qed.

Lemma kept_execute self fuel f w w' :
  execute iterate body self fuel f w = Some w' -> kept w w'.
Proof.
  destruct f; simpl; intros H.
  - unfold bootstrap in H.
    eapply kept_trans; [apply kept_next_future|]. eapply kept_run; eauto.
  - unfold condition_wake in H.
    destruct (state (the_condition w)) as [|[|]| |].
    + injection H as <-. apply kept_refl.
    + eapply kept_trans; [apply kept_next_future|]. eapply kept_run; eauto.
    + injection H as <-. apply kept_promise_set.
    + injection H as <-. apply kept_promise_fail.
    + injection H as <-. apply kept_promise_discard.
  - unfold future_wake in H.
    destruct (state (the_future w)).
    + injection H as <-. apply kept_refl.
    + eapply kept_run; eauto.
    + injection H as <-. apply kept_promise_fail.
    + injection H as <-. apply kept_promise_discard.
  - injection H as <-. apply kept_root_discard.
  - destruct self; [discriminate|]. injection H as <-. now apply kept_frame.
Qed.

Lemma kept_exec fuel l w w' :
  exec iterate body fuel l w = Some w' -> kept w w'.
Proof.
  destruct l; simpl; intros H.
  - destruct (mailbox w) as [|f rest]; [discriminate|].
    destruct (alive (process w)); [|discriminate].
    eapply kept_trans; [|eapply kept_execute; eauto]. now apply kept_frame.
  - destruct (executor w) as [|f rest]; [discriminate|].
    eapply kept_trans; [|eapply kept_execute; eauto]. now apply kept_frame.
  - destruct i as [|i]; [discriminate|].
    destruct (futures w !! S i) as [d|] eqn:Hi; [|discriminate].
    destruct (isPending d && terminal s); [|discriminate].
    injection H as <-. eapply kept_trans; [|apply kept_invoke].
    split; [|split]; simpl; eauto using evolves_refl.
    intros j d0 Hj. destruct (decide (j = S i)) as [->|Hne].
    + exists (fst (settle s d)). split.
      * apply list_lookup_insert_eq. eapply lookup_lt_Some; eauto.
      * assert (d0 = d) as -> by congruence. apply evolves_settle.
    + exists d0. rewrite list_lookup_insert_ne by auto. auto using evolves_refl.
  - destruct i as [|i]; [discriminate|].
    destruct (conditions w !! S i) as [d|] eqn:Hi; [|discriminate].
    destruct (isPending d && terminal s); [|discriminate].
    injection H as <-. eapply kept_trans; [|apply kept_invoke].
    split; [|split]; simpl; eauto using evolves_refl.
    intros j d0 Hj. destruct (decide (j = S i)) as [->|Hne].
    + exists (fst (settle s d)). split.
      * apply list_lookup_insert_eq. eapply lookup_lt_Some; eauto.
      * assert (d0 = d) as -> by congruence. apply evolves_settle.
    + exists d0. rewrite list_lookup_insert_ne by auto. auto using evolves_refl.
  - injection H as <-. apply kept_update_promise, evolves_request_discard.
  - injection H as <-. now apply kept_frame.
  - destruct (process w); try discriminate. injection H as <-.
    unfold attach. eapply kept_trans; [|now apply kept_frame].
    apply kept_update_promise, evolves_subscribe.
Qed.

Lemma kept_reachable w w' : reachable iterate body w w' -> kept w w'.
Proof.
  intros H. induction H as [|fuel l w1 w2 _ IH Hex]; [apply kept_refl|].
  eapply kept_trans; [exact IH|]. eapply kept_exec; eauto.
Qed.

(** ** The synchronous drain *)

Lemma assign_future_eq w u r :
  iterate (user w) = (u, r) ->
  assign_future iterate w =
  mkWorld u (futures w ++ [Future_of r]) (conditions w)
          (mkLoop (outer w) (length (futures w)) (cur_condition w))
          (mailbox w) (executor w) (process w) (history w ++ [EvIterate]).
Proof. intros E. unfold assign_future. now rewrite E. Qed.

Lemma assign_condition_eq v w u c :
  body v (user w) = (u, c) ->
  assign_condition body v w =
  mkWorld u (futures w) (conditions w ++ [Future_of c])
          (mkLoop (outer w) (cur_future w) (length (conditions w)))
          (mailbox w) (executor w) (process w) (history w ++ [EvBody v]).
Proof. intros E. unfold assign_condition. now rewrite E. Qed.

Lemma insert_default_id {A} (l : list A) i (x : A) :
  <[i := default x (l !! i)]> l = l.
Proof.
  destruct (l !! i) eqn:E; simpl.
  - now apply list_insert_id.
  - apply list_insert_ge. now apply lookup_ge_None.
Qed.

(** A discard request on a settled cell changes nothing. *)
Lemma future_discard_settled w :
  state (the_future w) <> PENDING -> future_discard w = w.
Proof.
  intros H. unfold future_discard, update_future, request_discard, isPending.
  destruct (state (the_future w)) eqn:E; [congruence| | |];
    rewrite andb_false_r; simpl; unfold the_future, set_futures;
    rewrite insert_default_id; apply world_eta.
Qed.

Lemma condition_discard_settled w :
  state (the_condition w) <> PENDING -> condition_discard w = w.
Proof.
  intros H. unfold condition_discard, update_condition, request_discard, isPending.
  destruct (state (the_condition w)) eqn:E; [congruence| | |];
    rewrite andb_false_r; simpl; unfold the_condition, set_conditions;
    rewrite insert_default_id; apply world_eta.
Qed.

Lemma drains_run_while m : forall w v fuel,
  state (the_future w) = READY v -> state (outer w) = PENDING ->
  drains iterate body m v (user w) = true -> m < fuel ->
  exists w',
    run_while iterate body fuel w = Some w' /\
    state (outer w') = READY tt /\
    iterations (history w') = iterations (history w) + m /\
    length (bodies (history w')) = length (bodies (history w)) + S m /\
    runs (history w') = runs (history w) /\
    subscriptions (history w') = subscriptions (history w) /\
    settlements (history w') = S (settlements (history w)) /\
    mailbox w' = mailbox w ++ posted Pid (onAnyCallbacks (outer w)) /\
    executor w' = executor w ++ posted Executor (onAnyCallbacks (outer w)).
Proof.
  induction m as [|m IH]; intros w v fuel Hv Ho Hdr Hlt;
    (destruct fuel as [|fuel]; [lia|]); simpl; rewrite Hv;
    simpl in Hdr; destruct (body v (user w)) as [u1 c] eqn:Eb;
    rewrite (assign_condition_eq v w u1 c Eb);
    set (w1 := mkWorld _ _ _ _ _ _ _ _);
    (assert (Hc : the_condition w1 = Future_of c)
      by (apply (the_condition_push w); reflexivity));
    (destruct (returned c) as [|b| |] eqn:Ec; try discriminate);
    (assert (Hw1 : (if hasDiscard (promise (loop_state w1))
                    then condition_discard w1 else w1) = w1)
      by (destruct (hasDiscard _); [|reflexivity];
          apply condition_discard_settled; rewrite Hc; simpl; congruence));
    rewrite Hw1, Hc; simpl; rewrite Ec.
  - destruct b; [discriminate|]. eexists. split; [reflexivity|].
    unfold promise_set, update_promise.
    rewrite settle_pending by exact Ho. cbn [fst snd]. rewrite invoke_eq.
    simpl. change (promise (loop_state w)) with (outer w).
    rewrite !iterations_app, !bodies_app, !runs_app, !subscriptions_app,
      !settlements_app, !length_app. simpl.
    repeat split; lia.
  - destruct b; [|discriminate]. simpl in Hdr.
    destruct (iterate u1) as [u2 r] eqn:Ei.
    rewrite (assign_future_eq w1 u2 r Ei).
    set (w2 := mkWorld _ _ _ _ _ _ _ _).
    assert (Hf : the_future w2 = Future_of r)
      by (apply (the_future_push w1); reflexivity).
    destruct (returned r) as [|v'| |] eqn:Er; try discriminate.
    assert (Hw2 : (if hasDiscard (promise (loop_state w2))
                   then future_discard w2 else w2) = w2)
      by (destruct (hasDiscard _); [|reflexivity];
          apply future_discard_settled; rewrite Hf; simpl; congruence).
    rewrite Hw2.
    destruct (IH w2 v' fuel) as (w' & Hrun & Hs & Hi & Hb & Hr & Hsub & Hset & Hm & He);
      auto; [rewrite Hf; exact Er|lia|].
    exists w'. split; [exact Hrun|]. split; [exact Hs|].
    rewrite Hi, Hb, Hr, Hsub, Hset, Hm, He. simpl.
    rewrite !iterations_app, !bodies_app, !runs_app, !subscriptions_app,
      !settlements_app, !length_app. simpl.
    repeat split; lia.
Qed.

(** ** A failed or discarded future dooms the loop *)

Lemma abnormal_not_pending {A} (s : State A) : abnormal s = true -> s <> PENDING.
Proof. destruct s; simpl; congruence. Qed.

Lemma abnormal_future_phase w k d :
  Inv w -> futures w !! k = Some d -> abnormal (state d) = true ->
  k = cur_future w /\ d = the_future w /\
  cur_future w = S (cur_condition w) /\
  ((state (outer w) = PENDING /\ wakes w = [FutureWake]) \/
   (state (outer w) = carry (state d) /\ wakes w = [])).
Proof.
  intros [Hst Hch Hhk Hp] Hk Hab.
  pose proof (lookup_lt_Some _ _ _ Hk) as Hlt.
  pose proof (st_future _ Hst) as Hlen. pose proof (st_ge _ Hst) as Hge.
  assert (H1 : 1 <= k).
  { destruct k; [|lia]. destruct (st_future0 _ Hst) as (d0 & Hd0 & Hs0 & _).
    assert (d0 = d) as -> by congruence. rewrite Hs0 in Hab. discriminate. }
  assert (Hk' : k = cur_future w /\ cur_future w = S (cur_condition w)).
  { destruct (decide (k <= cur_condition w)) as [Hle|Hgt]; [|lia].
    destruct (st_consumed _ Hst _ _ Hk H1 Hle) as [v Hv].
    rewrite Hv in Hab. discriminate. }
  destruct Hk' as [-> Hsl].
  assert (d = the_future w) as ->
    by (pose proof (Store_lookup_future _ Hst); congruence).
  repeat split; auto.
  pose proof (abnormal_not_pending _ Hab) as Hnp.
  destruct Hp as [? ? ? ?|? ? ? ? ?|? ? ? ?|? ? ? ? ? ?|? ? ? ? ?|Ho ?];
    try lia; try congruence; auto.
  right. split; [|assumption].
  unfold outcome, outcome_of in Ho.
  destruct (state (outer w)) eqn:Eo.
  - contradiction.
  - destruct Ho as (? & _). lia.
  - destruct Ho as [[_ E]|(? & _)]; [|lia]. rewrite E. reflexivity.
  - destruct Ho as [[_ E]|(? & _)]; [|lia]. rewrite E. reflexivity.
Qed.

Lemma abnormal_condition_phase w k d :
  Inv w -> conditions w !! k = Some d -> abnormal (state d) = true ->
  k = cur_condition w /\ d = the_condition w /\
  cur_future w = cur_condition w /\ 1 <= cur_condition w /\
  ((state (outer w) = PENDING /\ wakes w = [ConditionWake]) \/
   (state (outer w) = carry (state d) /\ wakes w = [])).
Proof.
  intros [Hst Hch Hhk Hp] Hk Hab.
  pose proof (lookup_lt_Some _ _ _ Hk) as Hlt.
  pose proof (st_condition _ Hst) as Hlen. pose proof (st_le _ Hst) as Hle.
  assert (H1 : 1 <= k).
  { destruct k; [|lia]. destruct (st_condition0 _ Hst) as (d0 & Hd0 & Hs0 & _).
    assert (d0 = d) as -> by congruence. rewrite Hs0 in Hab. discriminate. }
  assert (Hk' : k = cur_condition w /\ cur_future w = cur_condition w).
  { destruct (decide (k < cur_future w)) as [Hl|Hg]; [|lia].
    pose proof (st_continued _ Hst _ _ Hk H1 Hl) as Hv.
    rewrite Hv in Hab. discriminate. }
  destruct Hk' as [-> Hsl].
  assert (d = the_condition w) as ->
    by (pose proof (Store_lookup_condition _ Hst); congruence).
  repeat split; auto.
  pose proof (abnormal_not_pending _ Hab) as Hnp.
  destruct Hp as [? ? ? ?|? ? ? ? ?|? ? ? ?|? ? ? ? ? ?|? ? ? ? ?|Ho ?];
    try lia; try congruence; auto.
  right. split; [|assumption].
  unfold outcome, outcome_of in Ho.
  destruct (state (outer w)) eqn:Eo.
  - contradiction.
  - destruct Ho as (_ & _ & E). rewrite E in Hab. discriminate.
  - destruct Ho as [[? _]|(_ & _ & E)]; [lia|]. rewrite E. reflexivity.
  - destruct Ho as [[? _]|(_ & _ & E)]; [lia|]. rewrite E. reflexivity.
Qed.

Lemma doomed_kept s w w' : kept w w' -> doomed s w -> doomed s w'.
Proof.
  intros (Hf & Hc & _) [(k & d & Hk & Hab & Hs)|(k & d & Hk & Hab & Hs)].
  - left. destruct (Hf k d Hk) as (d' & Hk' & He & _).
    pose proof (He (abnormal_not_pending _ Hab)) as E.
    rewrite <- E in Hab, Hs. eauto.
  - right. destruct (Hc k d Hk) as (d' & Hk' & He & _).
    pose proof (He (abnormal_not_pending _ Hab)) as E.
    rewrite <- E in Hab, Hs. eauto.
Qed.

(** Where a doomed loop stands: the failure is on its way to the promise,
    or has reached it. *)
Lemma doomed_phase s w :
  Inv w -> doomed s w ->
  (state (outer w) = PENDING /\
   ((wakes w = [FutureWake] /\ cur_future w = S (cur_condition w) /\
     abnormal (state (the_future w)) = true /\ carry (state (the_future w)) = s) \/
    (wakes w = [ConditionWake] /\ cur_future w = cur_condition w /\
     1 <= cur_condition w /\
     abnormal (state (the_condition w)) = true /\
     carry (state (the_condition w)) = s))) \/
  (state (outer w) = s /\ wakes w = []).
Proof.
  intros H [(k & d & Hk & Hab & Hs)|(k & d & Hk & Hab & Hs)].
  - destruct (abnormal_future_phase w k d H Hk Hab) as (-> & -> & Hsl & [[? ?]|[? ?]]).
    + left. split; [assumption|]. left. auto.
    + right. split; congruence.
  - destruct (abnormal_condition_phase w k d H Hk Hab)
      as (-> & -> & Hsl & H1 & [[? ?]|[? ?]]).
    + left. split; [assumption|]. right. auto.
    + right. split; congruence.
Qed.

Lemma doomed_slots s w w' :
  Inv w -> Inv w' -> kept w w' -> doomed s w ->
  cur_future w' = cur_future w /\ cur_condition w' = cur_condition w.
Proof.
  intros H H' (Hf & Hc & _) [(k & d & Hk & Hab & Hs)|(k & d & Hk & Hab & Hs)].
  - destruct (Hf k d Hk) as (d' & Hk' & He & _).
    pose proof (He (abnormal_not_pending _ Hab)) as E. rewrite <- E in Hab.
    destruct (abnormal_future_phase w k d H Hk) as (E1 & _ & E2 & _);
      [congruence|].
    destruct (abnormal_future_phase w' k d' H' Hk' Hab) as (E1' & _ & E2' & _).
    lia.
  - destruct (Hc k d Hk) as (d' & Hk' & He & _).
    pose proof (He (abnormal_not_pending _ Hab)) as E. rewrite <- E in Hab.
    destruct (abnormal_condition_phase w k d H Hk) as (E1 & _ & E2 & _);
      [congruence|].
    destruct (abnormal_condition_phase w' k d' H' Hk' Hab) as (E1' & _ & E2' & _).
    lia.
Qed.

Lemma hooks_posted_pid w : Hooks w -> posted Pid (onAnyCallbacks (outer w)) = [].
Proof.
  intros [_ _ Hh]. destruct (process w).
  - destruct Hh as [-> _]. reflexivity.
  - destruct Hh as [-> _]. reflexivity.
  - destruct Hh as [(_ & -> & _)|(_ & -> & _)]; reflexivity.
  - destruct Hh as (_ & -> & _). reflexivity.
Qed.

Lemma settle_promise_quiet w s e :
  Hooks w ->
  mailbox (update_promise (settle s (outer w)) (log e w)) = mailbox w /\
  process (update_promise (settle s (outer w)) (log e w)) = process w.
Proof.
  intros Hh. unfold update_promise. rewrite invoke_eq.
  split; [|reflexivity]. cbn [mailbox].
  unfold settle. destruct (state (outer w)); cbn [fst snd];
    [rewrite hooks_posted_pid by assumption| | |]; apply app_nil_r.
Qed.

Lemma root_discard_quiet w :
  Store w -> state (the_future w) <> PENDING ->
  (state (the_condition w) <> PENDING \/ reaction (the_condition w) = PENDING) ->
  mailbox (root_discard w) = mailbox w /\ process (root_discard w) = process w.
Proof.
  intros Hst Hf Hc. unfold root_discard.
  rewrite (future_discard_settled w Hf).
  destruct (condition_discard_cases w Hst)
    as [E|[(Hs & Hr & d' & _ & _ & E)|(Hs & Hr & E)]]; rewrite E; auto.
  destruct Hc; congruence.
Qed.

Lemma doomed_cells s w :
  Inv w -> doomed s w ->
  state (the_future w) <> PENDING /\
  (state (the_condition w) <> PENDING \/ reaction (the_condition w) = PENDING).
Proof.
  intros H [(k & d & Hk & Hab & Hs)|(k & d & Hk & Hab & Hs)].
  - destruct (abnormal_future_phase w k d H Hk Hab) as (-> & -> & Hsl & _).
    split; [now apply abnormal_not_pending|].
    pose proof (inv_store _ H) as Hst.
    destruct (decide (cur_condition w = 0)) as [E0|E0].
    + right. destruct (st_condition0 _ Hst) as (d0 & Hd0 & _ & _ & Hr).
      pose proof (Store_lookup_condition _ Hst) as Hl. rewrite E0 in Hl.
      congruence.
    + left. rewrite (continued_ready w Hst Hsl) by lia. discriminate.
  - destruct (abnormal_condition_phase w k d H Hk Hab) as (-> & -> & Hsl & H1 & _).
    split; [|left; now apply abnormal_not_pending].
    destruct (consumed_ready w (inv_store _ H) Hsl H1) as [v Hv].
    rewrite Hv. discriminate.
Qed.

(** In a doomed loop every closure in the inbox runs without entering the
    [while], and posts nothing. *)
Lemma doomed_deliver s w f rest :
  Inv w -> doomed s w -> alive (process w) = true -> mailbox w = f :: rest ->
  exists w1, exec iterate body 0 Deliver w = Some w1 /\
             mailbox w1 = rest /\ process w1 = process w.
Proof.
  intros H Hd Hal Hm. simpl. rewrite Hm, Hal.
  pose proof (inv_store _ H) as Hst. pose proof (inv_hooks _ H) as Hhk.
  assert (Hst0 : Store (set_mailbox rest w))
    by (eapply Store_frame with (w := w); eauto).
  assert (Hhk0 : Hooks (set_mailbox rest w))
    by (eapply Hooks_frame with (w := w); eauto).
  assert (Hw : wakes w = if is_wake f then f :: List.filter is_wake rest
                         else List.filter is_wake rest)
    by (unfold wakes; rewrite Hm; reflexivity).
  destruct (doomed_cells s w H Hd) as [Hcf Hcc].
  destruct (doomed_phase s w H Hd)
    as [(Ho & [(Hk & Hsl & Hab & Hs)|(Hk & Hsl & H1 & Hab & Hs)])|(Ho & Hk)];
    rewrite Hk in Hw; destruct f; simpl in Hw; try discriminate; simpl.
  - (* the wake of a failed value *)
    unfold future_wake.
    change (the_future (set_mailbox rest w)) with (the_future w).
    destruct (state (the_future w)) eqn:E; try discriminate; eexists;
      (split; [reflexivity|]);
      apply (settle_promise_quiet (set_mailbox rest w)); assumption.
  - eexists. split; [reflexivity|].
    apply (root_discard_quiet (set_mailbox rest w)); assumption.
  - unfold condition_wake.
    change (the_condition (set_mailbox rest w)) with (the_condition w).
    destruct (state (the_condition w)) eqn:E; try discriminate; eexists;
      (split; [reflexivity|]);
      apply (settle_promise_quiet (set_mailbox rest w)); assumption.
  - eexists. split; [reflexivity|].
    apply (root_discard_quiet (set_mailbox rest w)); assumption.
  - eexists. split; [reflexivity|].
    apply (root_discard_quiet (set_mailbox rest w)); assumption.
Qed.

Lemma doomed_drains s n : forall w,
  Inv w -> doomed s w -> alive (process w) = true -> length (mailbox w) = n ->
  exists w', deliveries iterate body n 0 w = Some w' /\ state (outer w') = s.
Proof.
  induction n as [|n IH]; intros w H Hd Hal Hlen.
  - exists w. split; [reflexivity|].
    assert (Hw : wakes w = [])
      by (unfold wakes; destruct (mailbox w); [reflexivity|discriminate]).
    destruct (doomed_phase s w H Hd) as [(_ & [(Hk & _)|(Hk & _)])|(Ho & _)];
      congruence.
  - destruct (mailbox w) as [|f rest] eqn:Hm; [discriminate|].
    destruct (doomed_deliver s w f rest H Hd Hal Hm) as (w1 & Hex & Hm1 & Hp1).
    destruct (IH w1) as (w' & Hdel & Ho).
    + eapply exec_Inv; eauto.
    + eapply doomed_kept; [eapply kept_exec|]; eauto.
    + congruence.
    + simpl in Hlen. congruence.
    + exists w'. split; [|assumption]. cbn [deliveries]. rewrite Hex. assumption.
Qed.

(** ** The closures of the loop leave the process alone *)

Lemma process_update_future r w : process (update_future r w) = process w.
Proof. unfold update_future. now rewrite invoke_eq. Qed.
Lemma process_update_condition r w : process (update_condition r w) = process w.
Proof. unfold update_condition. now rewrite invoke_eq. Qed.
Lemma process_update_promise r w : process (update_promise r w) = process w.
Proof. unfold update_promise. now rewrite invoke_eq. Qed.
Lemma process_assign_future w : process (assign_future iterate w) = process w.
Proof. unfold assign_future. now destruct (iterate (user w)). Qed.
Lemma process_assign_condition v w : process (assign_condition body v w) = process w.
Proof. unfold assign_condition. now destruct (body v (user w)). Qed.

Lemma process_next_future w :
  process (let w := assign_future iterate w in
           if hasDiscard (promise (loop_state w)) then future_discard w else w)
  = process w.
Proof.
  simpl. destruct (hasDiscard _); unfold future_discard;
    rewrite ?process_update_future; apply process_assign_future.
Qed.

Lemma process_run_while fuel : forall w w',
  run_while iterate body fuel w = Some w' -> process w' = process w.
Proof.
  induction fuel as [|fuel IH]; intros w w' Hrun; simpl in Hrun.
  - destruct (state (the_future w)); try discriminate; injection Hrun as <-;
      unfold future_onAny; now rewrite process_update_future.
  - destruct (state (the_future w)) as [|v| |];
      try (injection Hrun as <-; unfold future_onAny;
           now rewrite process_update_future).
    set (w1 := assign_condition body v w) in *.
    set (w2 := if hasDiscard (promise (loop_state w1))
               then condition_discard w1 else w1) in *.
    assert (P2 : process w2 = process w).
    { subst w2. destruct (hasDiscard _); unfold condition_discard;
        rewrite ?process_update_condition; apply process_assign_condition. }
    destruct (state (the_condition w2)) as [|[|]| |];
      try (injection Hrun as <-; unfold condition_onAny, promise_set;
           rewrite ?process_update_condition, ?process_update_promise;
           exact P2).
    rewrite (IH _ _ Hrun), process_next_future. exact P2.
Qed.

Lemma process_execute_Pid fuel f w w' :
  execute iterate body Pid fuel f w = Some w' -> process w' = process w.
Proof.
  destruct f; simpl; intros H.
  - unfold bootstrap, run in H. apply process_run_while in H.
    rewrite H. simpl. apply process_next_future.
  - unfold condition_wake in H.
    destruct (state (the_condition w)) as [|[|]| |];
      try (injection H as <-; unfold promise_set, promise_fail, promise_discard;
           rewrite ?process_update_promise; reflexivity).
    unfold run in H. apply process_run_while in H.
    rewrite H. simpl. apply process_next_future.
  - unfold future_wake in H.
    destruct (state (the_future w));
      try (injection H as <-; unfold promise_fail, promise_discard;
           rewrite ?process_update_promise; reflexivity).
    unfold run in H. apply process_run_while in H. rewrite H. reflexivity.
  - injection H as <-. unfold root_discard, condition_discard, future_discard.
    now rewrite process_update_condition, process_update_future.
  - discriminate.
Qed.

Lemma exec_supplied fuel l w w' :
  Inv w -> process w = Supplied ->
  exec iterate body fuel l w = Some w' -> process w' = Supplied.
Proof.
  intros H Hp Hex. destruct l; simpl in Hex.
  - destruct (mailbox w) as [|f rest]; [discriminate|].
    destruct (alive (process w)); [|discriminate].
    apply process_execute_Pid in Hex. rewrite Hex. exact Hp.
  - pose proof (hk_helper _ (inv_hooks _ H)) as Hh. rewrite Hp in Hh.
    destruct Hh as [_ He]. rewrite He in Hex. discriminate.
  - destruct i as [|i]; [discriminate|].
    destruct (futures w !! S i); [|discriminate].
    destruct (isPending d && terminal s); [|discriminate].
    injection Hex as <-. rewrite invoke_eq. exact Hp.
  - destruct i as [|i]; [discriminate|].
    destruct (conditions w !! S i); [|discriminate].
    destruct (isPending d && terminal s); [|discriminate].
    injection Hex as <-. rewrite invoke_eq. exact Hp.
  - injection Hex as <-. rewrite process_update_promise. exact Hp.
  - injection Hex as <-. exact Hp.
  - rewrite Hp in Hex. discriminate.
Qed.

Lemma loop_reachable (u : U) w :
  reachable iterate body (loop u) w -> Inv w /\ process w = Supplied.
Proof.
  intros Hr. induction Hr as [|fuel l w w' _ [IH1 IH2] Hex].
  - split; [apply loop_Inv|reflexivity].
  - split; [eapply exec_Inv|eapply exec_supplied]; eauto.
Qed.

Lemma reachable_trans w0 w1 w2 :
  reachable iterate body w0 w1 -> reachable iterate body w1 w2 ->
  reachable iterate body w0 w2.
Proof.
  intros H1 H2. induction H2; [assumption|].
  eapply reachable_step; eauto.
Qed.

Lemma steps_reachable ls : forall w w',
  steps iterate body ls w = Some w' -> reachable iterate body w w'.
Proof.
  induction ls as [|[fuel l] ls IH]; intros w w' H; simpl in H.
  - injection H as <-. apply reachable_start.
  - destruct (exec iterate body fuel l w) as [w1|] eqn:E; [|discriminate].
    eapply reachable_trans; [|apply IH; exact H].
    eapply reachable_step; [apply reachable_start|exact E].
Qed.

(** ** New cells and a recorded discard *)

Lemma request_discard_flag {A} (r : Returned A) :
  state (fst (request_discard (Future_of r))) = PENDING ->
  discard (fst (request_discard (Future_of r))) = true /\
  reaction (fst (request_discard (Future_of r))) = PENDING.
Proof.
  unfold request_discard, isPending, settle, Future_of. simpl.
  destruct (returned r) eqn:E; simpl; rewrite ?E; try congruence.
  destruct (honors r) eqn:Eh; simpl; rewrite ?Eh; auto; congruence.
Qed.

Lemma guarded_same_size w w' :
  length (futures w') = length (futures w) ->
  length (conditions w') = length (conditions w) -> guarded w w'.
Proof.
  intros Hf Hc. split; intros i d Hi Hl; apply lookup_lt_Some in Hl; lia.
Qed.

Lemma evolves_pending {A} (d d' : Data A) :
  evolves d d' -> state d' = PENDING -> state d = PENDING.
Proof.
  intros (He & _) Hp. destruct (pending_or_not (state d)) as [|Hn]; [assumption|].
  rewrite (He Hn) in Hp. contradiction.
Qed.

Lemma guarded_trans w w1 w2 :
  guarded w w1 -> kept w1 w2 -> guarded w1 w2 -> guarded w w2.
Proof.
  intros [Gf Gc] (Kf & Kc & _) [Gf' Gc']. split.
  - intros i d Hi Hl Hp. destruct (futures w1 !! i) as [d1|] eqn:E1.
    + destruct (Kf i d1 E1) as (d2 & H2 & He).
      assert (d2 = d) as -> by congruence.
      destruct (Gf i d1 Hi E1 (evolves_pending _ _ He Hp)) as [? ?].
      destruct He as (_ & He2 & He3). split; [auto|congruence].
    + apply lookup_ge_None in E1. eauto.
  - intros i d Hi Hl Hp. destruct (conditions w1 !! i) as [d1|] eqn:E1.
    + destruct (Kc i d1 E1) as (d2 & H2 & He).
      assert (d2 = d) as -> by congruence.
      destruct (Gc i d1 Hi E1 (evolves_pending _ _ He Hp)) as [? ?].
      destruct He as (_ & He2 & He3). split; [auto|congruence].
    + apply lookup_ge_None in E1. eauto.
Qed.

Lemma size_update_future r w :
  length (futures (update_future r w)) = length (futures w) /\
  length (conditions (update_future r w)) = length (conditions w).
Proof. unfold update_future. rewrite invoke_eq. simpl. now rewrite length_insert. Qed.

Lemma size_update_condition r w :
  length (futures (update_condition r w)) = length (futures w) /\
  length (conditions (update_condition r w)) = length (conditions w).
Proof.
  unfold update_condition. rewrite invoke_eq. simpl. now rewrite length_insert.
Qed.

Lemma size_update_promise r w :
  length (futures (update_promise r w)) = length (futures w) /\
  length (conditions (update_promise r w)) = length (conditions w).
Proof. unfold update_promise. rewrite invoke_eq. simpl. auto. Qed.

Lemma guarded_future_onAny f w : guarded w (future_onAny f w).
Proof. apply guarded_same_size; apply (size_update_future _ (log EvOnAny w)). Qed.
Lemma guarded_condition_onAny f w : guarded w (condition_onAny f w).
Proof. apply guarded_same_size; apply (size_update_condition _ (log EvOnAny w)). Qed.
Lemma guarded_promise_set w : guarded w (promise_set w).
Proof. apply guarded_same_size; apply (size_update_promise _ (log EvSet w)). Qed.
Lemma guarded_promise_fail r w : guarded w (promise_fail r w).
Proof. apply guarded_same_size; apply (size_update_promise _ (log (EvFail r) w)). Qed.
Lemma guarded_promise_discard w : guarded w (promise_discard w).
Proof. apply guarded_same_size; apply (size_update_promise _ (log EvDiscard w)). Qed.

Lemma guarded_root_discard w : guarded w (root_discard w).
Proof.
  unfold root_discard, condition_discard, future_discard.
  apply guarded_same_size.
  - rewrite (proj1 (size_update_condition _ _)). apply size_update_future.
  - rewrite (proj2 (size_update_condition _ _)). apply size_update_future.
Qed.

(** The future just made by [iterate] is flagged at once. *)
Lemma guarded_next_future w :
  hasDiscard (outer w) = true ->
  guarded w (let w := assign_future iterate w in
             if hasDiscard (promise (loop_state w)) then future_discard w else w).
Proof.
  intros Hd. destruct (iterate (user w)) as [u r] eqn:Ei.
  cbv zeta. rewrite (assign_future_eq w u r Ei).
  set (w1 := mkWorld _ _ _ _ _ _ _ _).
  change (hasDiscard (promise (loop_state w1))) with (hasDiscard (outer w)).
  rewrite Hd.
  assert (Hf : the_future w1 = Future_of r)
    by (apply (the_future_push w); reflexivity).
  unfold future_discard, update_future. rewrite invoke_eq, Hf. simpl.
  split; simpl.
  - intros i d Hi Hl Hp.
    apply list_lookup_insert_Some in Hl as [(Ei' & Ed & _)|[Hne Hl]].
    + subst d. now apply request_discard_flag.
    + apply lookup_lt_Some in Hl. rewrite length_app in Hl. simpl in Hl. lia.
  - intros i d Hi Hl. apply lookup_lt_Some in Hl. lia.
Qed.

Lemma guarded_next_condition v w :
  hasDiscard (outer w) = true ->
  guarded w (let w := assign_condition body v w in
             if hasDiscard (promise (loop_state w)) then condition_discard w else w).
Proof.
  intros Hd. destruct (body v (user w)) as [u r] eqn:Ei.
  cbv zeta. rewrite (assign_condition_eq v w u r Ei).
  set (w1 := mkWorld _ _ _ _ _ _ _ _).
  change (hasDiscard (promise (loop_state w1))) with (hasDiscard (outer w)).
  rewrite Hd.
  assert (Hf : the_condition w1 = Future_of r)
    by (apply (the_condition_push w); reflexivity).
  unfold condition_discard, update_condition. rewrite invoke_eq, Hf. simpl.
  split; simpl.
  - intros i d Hi Hl. apply lookup_lt_Some in Hl. lia.
  - intros i d Hi Hl Hp.
    apply list_lookup_insert_Some in Hl as [(Ei' & Ed & _)|[Hne Hl]].
    + subst d. now apply request_discard_flag.
    + apply lookup_lt_Some in Hl. rewrite length_app in Hl. simpl in Hl. lia.
Qed.

Lemma kept_next_condition v w :
  kept w (let w := assign_condition body v w in
          if hasDiscard (promise (loop_state w)) then condition_discard w else w).
Proof.
  simpl. eapply kept_trans; [apply (kept_assign_condition v)|].
  destruct (hasDiscard _); [apply kept_condition_discard|apply kept_refl].
Qed.

Lemma kept_hasDiscard w w' :
  kept w w' -> hasDiscard (outer w) = true -> hasDiscard (outer w') = true.
Proof. intros (_ & _ & _ & H & _). exact H. Qed.

Lemma guarded_run_while fuel : forall w w',
  hasDiscard (outer w) = true ->
  run_while iterate body fuel w = Some w' -> guarded w w'.
Proof.
  induction fuel as [|fuel IH]; intros w w' Hd Hrun; simpl in Hrun.
  - destruct (state (the_future w)); try discriminate;
      injection Hrun as <-; apply guarded_future_onAny.
  - destruct (state (the_future w)) as [|v| |];
      try (injection Hrun as <-; apply guarded_future_onAny).
    pose proof (guarded_next_condition v w Hd) as G2.
    pose proof (kept_next_condition v w) as K2. cbv zeta in G2, K2.
    set (w2 := if hasDiscard (promise (loop_state (assign_condition body v w)))
               then condition_discard (assign_condition body v w)
               else assign_condition body v w) in *.
    pose proof (kept_hasDiscard _ _ K2 Hd) as Hd2.
    destruct (state (the_condition w2)) as [|[|]| |].
    + injection Hrun as <-. eapply guarded_trans;
        [exact G2|apply kept_condition_onAny|apply guarded_condition_onAny].
    + pose proof (guarded_next_future w2 Hd2) as G3.
      pose proof (kept_next_future w2) as K3. cbv zeta in G3, K3.
      eapply guarded_trans; [exact G2| |].
      * eapply kept_trans; [exact K3|]. eapply kept_run_while; eauto.
      * eapply guarded_trans; [exact G3|eapply kept_run_while; eauto|].
        eapply IH; [|exact Hrun]. eapply kept_hasDiscard; eauto.
    + injection Hrun as <-. eapply guarded_trans;
        [exact G2|apply kept_promise_set|apply guarded_promise_set].
    + injection Hrun as <-. eapply guarded_trans;
        [exact G2|apply kept_condition_onAny|apply guarded_condition_onAny].
    + injection Hrun as <-. eapply guarded_trans;
        [exact G2|apply kept_condition_onAny|apply guarded_condition_onAny].
Qed.

Lemma guarded_run fuel w w' :
  hasDiscard (outer w) = true -> run iterate body fuel w = Some w' -> guarded w w'.
Proof.
  intros Hd Hrun. unfold run in Hrun.
  apply (guarded_run_while fuel (log EvRun w)); assumption.
Qed.

Lemma guarded_after_next_future fuel w w' :
  hasDiscard (outer w) = true ->
  run iterate body fuel
      (let w := assign_future iterate w in
       if hasDiscard (promise (loop_state w)) then future_discard w else w)
    = Some w' ->
  guarded w w'.
Proof.
  intros Hd Hrun.
  pose proof (guarded_next_future w Hd) as G. pose proof (kept_next_future w) as K.
  eapply guarded_trans; [exact G|eapply kept_run; eauto|].
  eapply guarded_run; [|exact Hrun]. eapply kept_hasDiscard; eauto.
Qed.

Lemma guarded_execute self fuel f w w' :
  hasDiscard (outer w) = true ->
  execute iterate body self fuel f w = Some w' -> guarded w w'.
Proof.
  intros Hd H. destruct f; simpl in H.
  - eapply guarded_after_next_future; eauto.
  - unfold condition_wake in H.
    destruct (state (the_condition w)) as [|[|]| |].
    + injection H as <-. now apply guarded_same_size.
    + eapply guarded_after_next_future; eauto.
    + injection H as <-. apply guarded_promise_set.
    + injection H as <-. apply guarded_promise_fail.
    + injection H as <-. apply guarded_promise_discard.
  - unfold future_wake in H.
    destruct (state (the_future w)).
    + injection H as <-. now apply guarded_same_size.
    + eapply guarded_run; eauto.
    + injection H as <-. apply guarded_promise_fail.
    + injection H as <-. apply guarded_promise_discard.
  - injection H as <-. apply guarded_root_discard.
  - destruct self; [discriminate|]. injection H as <-. now apply guarded_same_size.
Qed.

(** ** The properties of the loop *)

Lemma booting_phase w rest :
  Inv w -> mailbox w = Bootstrap :: rest ->
  cur_future w = 0 /\ cur_condition w = 0 /\ state (outer w) = PENDING.
Proof.
  intros [_ _ _ Hp] Hm.
  assert (Hw : wakes w = Bootstrap :: List.filter is_wake rest)
    by (unfold wakes; rewrite Hm; reflexivity).
  destruct Hp as [? ? ? Hk|? ? ? ? Hk|? ? ? Hk|? ? ? ? ? Hk|? ? ? ? Hk|? Hk];
    rewrite Hk in Hw; try discriminate; auto.
Qed.

(** C1 (termination law).  Take the loop as [loop(pid, iterate, body)] left
    it, its bootstrap still in the inbox of [pid].  If from the state the
    callables are in every call of [iterate] returns a ready future and
    [body] returns ready-true for the first [n-1] values and ready-false
    for the [n]-th, then running the bootstrap returns, the future
    returned by [loop] is ready with [Nothing], and [iterate] and [body]
    have each been called exactly [n] times. *)
Theorem termination_law (u0 : U) w rest n fuel :
  reachable iterate body (loop u0) w ->
  mailbox w = Bootstrap :: rest ->
  stops_after iterate body n (user w) = true ->
  n <= fuel ->
  exists w',
    exec iterate body fuel Deliver w = Some w' /\
    state (outer w') = READY tt /\
    iterations (history w') = n /\
    length (bodies (history w')) = n.
Proof.
  intros Hr Hm Hs Hle.
  destruct (loop_reachable u0 w Hr) as [H Hp].
  destruct (booting_phase w rest H Hm) as (Hf & Hc & Ho).
  pose proof (ch_iterations _ (inv_chronicle _ H)) as Hi.
  pose proof (ch_bodies _ (inv_chronicle _ H)) as Hb.
  destruct n as [|m]; [discriminate|]. simpl in Hs.
  destruct (iterate (user w)) as [u1 r] eqn:Ei.
  destruct (returned r) as [|v| |] eqn:Er; try discriminate.
  simpl. rewrite Hm, Hp. simpl. unfold bootstrap.
  rewrite (assign_future_eq (set_mailbox rest w) u1 r Ei).
  set (w1 := mkWorld _ _ _ _ _ _ _ _).
  assert (Hf1 : the_future w1 = Future_of r)
    by (apply (the_future_push (set_mailbox rest w)); reflexivity).
  assert (Hw1 : (if hasDiscard (promise (loop_state w1))
                 then future_discard w1 else w1) = w1)
    by (destruct (hasDiscard _); [|reflexivity];
        apply future_discard_settled; rewrite Hf1; simpl; congruence).
  rewrite Hw1. unfold run.
  destruct (drains_run_while m (log EvRun w1) v fuel)
    as (w' & Hrun & Ho' & Hi' & Hb' & _); auto.
  - change (the_future (log EvRun w1)) with (the_future w1).
    rewrite Hf1. exact Er.
  - exists w'. split; [exact Hrun|]. split; [exact Ho'|].
    rewrite Hi', Hb'. simpl.
    rewrite !iterations_app, !bodies_app. simpl. rewrite !app_nil_r.
    rewrite Hi, Hb, Hf, Hc. split; lia.
Qed.




(** C5 (strict alternation).  In the history of the driver the calls of
    [iterate] and [body] alternate, [iterate] first; the [n]-th call of
    [body] was given the value of the [n]-th future of [iterate], which
    was ready; and when [iterate] has been called more than [n] times the
    condition of the [n]-th call of [body] is ready-true. *)
Theorem strict_alternation (u0 : U) w :
  reachable iterate body (loop u0) w ->
  alternates true (history w) = true /\
  length (bodies (history w)) <= iterations (history w) /\
  iterations (history w) <= S (length (bodies (history w))) /\
  S (iterations (history w)) = length (futures w) /\
  S (length (bodies (history w))) = length (conditions w) /\
  (forall n v, bodies (history w) !! n = Some v ->
     exists d, futures w !! S n = Some d /\ state d = READY v) /\
  (forall n d, 1 <= n -> n < iterations (history w) ->
     conditions w !! n = Some d -> state d = READY true).
Proof.
  intros Hr. destruct (loop_reachable u0 w Hr) as [[Hst Hch Hhk Hph] Hp].
  destruct Hch as [Hi Hb Hv Hd _]. destruct Hst.
  rewrite Hi, Hb. repeat split; auto.
  - eapply turn_alternates. exact Hd.
  - intros n d H1 Hlt Hn. eauto.
Qed.

(** C6 (synchronous drain).  When the value in the slot is ready and the
    callables answer at once for [m] more rounds, one call of [run] goes
    through all [m+1] calls of [body] and [m] calls of [iterate] and
    settles the promise: [run] is entered once, not once per round, so
    that the rounds stack no frames, and no [onAny] continuation is
    subscribed on the way. *)
Theorem synchronous_drain m w v fuel :
  state (the_future w) = READY v -> state (outer w) = PENDING ->
  drains iterate body m v (user w) = true -> m < fuel ->
  exists w',
    run iterate body fuel w = Some w' /\
    state (outer w') = READY tt /\
    runs (history w') = S (runs (history w)) /\
    subscriptions (history w') = subscriptions (history w) /\
    length (bodies (history w')) = length (bodies (history w)) + S m /\
    iterations (history w') = iterations (history w) + m.
Proof.
  intros Hv Ho Hdr Hlt. unfold run.
  destruct (drains_run_while m (log EvRun w) v fuel)
    as (w' & Hrun & Ho' & Hi & Hb & Hr & Hs & _); auto.
  exists w'. split; [exact Hrun|]. split; [exact Ho'|].
  rewrite Hi, Hb, Hr, Hs. simpl.
  rewrite iterations_app, bodies_app, runs_app, subscriptions_app. simpl.
  rewrite app_nil_r. repeat split; lia.
Qed.

(** C7 (discard checked at construction).  Whatever step the system takes
    while a discard is recorded on the returned future, every future that
    [iterate] or [body] hands out during the step (in the bootstrap, in
    the [while] of [run], in the continuation on the condition) has been
    asked to discard before the step ends: it is settled by then, or it
    carries the request and its producer is one that ignores requests. *)
Theorem discard_checked_at_construction fuel l w w' :
  exec iterate body fuel l w = Some w' ->
  hasDiscard (outer w) = true ->
  guarded w w'.
Proof.
  intros Hex Hd. destruct l; simpl in Hex.
  - destruct (mailbox w) as [|f rest]; [discriminate|].
    destruct (alive (process w)); [|discriminate].
    apply (guarded_execute Pid fuel f (set_mailbox rest w)); assumption.
  - destruct (executor w) as [|f rest]; [discriminate|].
    apply (guarded_execute Executor fuel f (set_executor rest w)); assumption.
  - destruct i as [|i]; [discriminate|].
    destruct (futures w !! S i); [|discriminate].
    destruct (isPending d && terminal s); [|discriminate].
    injection Hex as <-. rewrite invoke_eq.
    apply guarded_same_size; simpl; [apply length_insert|reflexivity].
  - destruct i as [|i]; [discriminate|].
    destruct (conditions w !! S i); [|discriminate].
    destruct (isPending d && terminal s); [|discriminate].
    injection Hex as <-. rewrite invoke_eq.
    apply guarded_same_size; simpl; [reflexivity|apply length_insert].
  - injection Hex as <-. apply guarded_same_size; apply size_update_promise.
  - injection Hex as <-. now apply guarded_same_size.
  - destruct (process w); try discriminate. injection Hex as <-.
    unfold attach. apply guarded_same_size; simpl; apply size_update_promise.
Qed.

Lemma request_discard_flagged {A} (d : Data A) :
  state (fst (request_discard d)) = PENDING ->
  discard (fst (request_discard d)) = true.
Proof.
  unfold request_discard, isPending, settle.
  destruct (discard d) eqn:Ed; simpl; [auto|].
  destruct (state d) eqn:E; simpl; try congruence.
  destruct (reaction d); simpl; congruence.
Qed.

Lemma the_future_discarded w :
  Store w -> the_future (future_discard w) = fst (request_discard (the_future w)).
Proof.
  intros Hst. unfold future_discard, update_future. rewrite invoke_eq.
  now erewrite (the_future_insert w _ _ Hst) by reflexivity.
Qed.

Lemma the_condition_discarded w :
  Store w ->
  the_condition (condition_discard w) = fst (request_discard (the_condition w)).
Proof.
  intros Hst. unfold condition_discard, update_condition. rewrite invoke_eq.
  now erewrite (the_condition_insert w _ _ Hst) by reflexivity.
Qed.

(** C8 (one discard hook).  [loop] attaches one [onDiscard] callback to
    the future it returns, deferred onto [pid]; later the returned future
    never holds more than that one callback and no [onAny] callback, and
    no future of [iterate] or [body] ever holds an [onDiscard] callback.
    A first discard request posts the hook to [pid] and drops it from the
    future; run on [pid], the hook requests discard on the two futures
    the slots hold at that moment and leaves the slots as they are. *)
Theorem single_discard_hook (u0 : U) w :
  reachable iterate body (loop u0) w ->
  onDiscardCallbacks (outer (loop (T:=T) u0)) = [(Pid, RootDiscard)] /\
  length (onDiscardCallbacks (outer w)) <= 1 /\
  onAnyCallbacks (outer w) = [] /\
  (forall i d, futures w !! i = Some d -> onDiscardCallbacks d = []) /\
  (forall i d, conditions w !! i = Some d -> onDiscardCallbacks d = []) /\
  (hasDiscard (outer w) = false -> state (outer w) = PENDING ->
   exists w', exec iterate body 0 DiscardOuter w = Some w' /\
              mailbox w' = mailbox w ++ [RootDiscard] /\
              onDiscardCallbacks (outer w') = [] /\
              hasDiscard (outer w') = true) /\
  (forall fuel rest, mailbox w = RootDiscard :: rest ->
     exec iterate body fuel Deliver w =
       Some (condition_discard (future_discard (set_mailbox rest w)))) /\
  (cur_future (root_discard w) = cur_future w /\
   cur_condition (root_discard w) = cur_condition w /\
   (state (the_future (root_discard w)) = PENDING ->
    hasDiscard (the_future (root_discard w)) = true) /\
   (state (the_condition (root_discard w)) = PENDING ->
    hasDiscard (the_condition (root_discard w)) = true)).
Proof.
  intros Hr. destruct (loop_reachable u0 w Hr) as [H Hp].
  pose proof (inv_hooks _ H) as [Hre Hd Hh]. rewrite Hp in Hh.
  destruct Hh as [Ha He].
  split; [reflexivity|]. split; [|split; [exact Ha|]].
  { rewrite Hd. destruct (_ && _); simpl; lia. }
  split; [exact (st_future_hooks _ (inv_store _ H))|].
  split; [exact (st_condition_hooks _ (inv_store _ H))|].
  split; [|split].
  - intros Hf Hs. eexists. split; [reflexivity|].
    unfold update_promise. rewrite invoke_eq.
    change (promise (loop_state w)) with (outer w).
    unfold hasDiscard in Hf.
    unfold request_discard, isPending. rewrite Hf, Hs, Hre, Hd.
    unfold isPending. rewrite Hf, Hs. simpl. auto.
  - intros fuel rest Hm. simpl. rewrite Hm, Hp. reflexivity.
  - pose proof (Inv_future_discard w H) as H1.
    assert (E : loop_state (root_discard w) = loop_state w).
    { unfold root_discard, condition_discard, future_discard, update_condition,
        update_future. now rewrite !invoke_eq. }
    unfold cur_future, cur_condition. rewrite E.
    split; [reflexivity|]. split; [reflexivity|].
    unfold root_discard, hasDiscard. split.
    + assert (Ef : the_future (condition_discard (future_discard w)) =
                   the_future (future_discard w)).
      { apply the_future_frame;
          unfold condition_discard, update_condition; now rewrite invoke_eq. }
      rewrite Ef, (the_future_discarded w (inv_store _ H)).
      apply request_discard_flagged.
    + rewrite (the_condition_discarded _ (inv_store _ H1)).
      apply request_discard_flagged.
Qed.

Lemma exec_not_supplied fuel l w w' :
  Inv w -> process w <> Supplied ->
  exec iterate body fuel l w = Some w' -> process w' <> Supplied.
Proof.
  intros H Hp Hex. destruct l; simpl in Hex.
  - destruct (mailbox w) as [|f rest]; [discriminate|].
    destruct (alive (process w)); [|discriminate].
    apply process_execute_Pid in Hex. rewrite Hex. exact Hp.
  - destruct (executor w) as [|f rest] eqn:Hm; [discriminate|].
    pose proof (hk_helper _ (inv_hooks _ H)) as Hh. rewrite Hm in Hh.
    destruct (process w); try (destruct Hh as (? & ?); discriminate);
      try (destruct Hh as (? & ? & ?); discriminate).
    destruct Hh as [(_ & _ & ?)|(_ & _ & E)]; [discriminate|].
    injection E as -> ->. simpl in Hex. injection Hex as <-. discriminate.
  - destruct i as [|i]; [discriminate|].
    destruct (futures w !! S i); [|discriminate].
    destruct (isPending d && terminal s); [|discriminate].
    injection Hex as <-. rewrite invoke_eq. exact Hp.
  - destruct i as [|i]; [discriminate|].
    destruct (conditions w !! S i); [|discriminate].
    destruct (isPending d && terminal s); [|discriminate].
    injection Hex as <-. rewrite invoke_eq. exact Hp.
  - injection Hex as <-. rewrite process_update_promise. exact Hp.
  - injection Hex as <-. exact Hp.
  - destruct (process w); try discriminate. injection Hex as <-. discriminate.
Qed.

Lemma loop_helper_reachable (u : U) w :
  reachable iterate body (loop_helper u) w -> Inv w /\ process w <> Supplied.
Proof.
  intros Hr. induction Hr as [|fuel l w w' _ [IH1 IH2] Hex].
  - split; [apply loop_helper_Inv|discriminate].
  - split; [eapply exec_Inv|eapply exec_not_supplied]; eauto.
Qed.

Lemma no_cleanup_on_pid w : Phase w -> ~ In Cleanup (mailbox w).
Proof.
  intros Hp Hin.
  assert (Hw : In Cleanup (wakes w))
    by (unfold wakes; apply List.filter_In; auto).
  destruct Hp as [? ? ? Hk|? ? ? ? Hk|? ? ? Hk|? ? ? ? ? Hk|? ? ? ? Hk|? Hk];
    rewrite Hk in Hw; simpl in Hw; intuition discriminate.
Qed.

(** C9 (cleanup of the helper).  In a loop started by the helper the
    cleanup never sits in the inbox of the spawned process.  Once the
    returned future is settled, in whatever state, the cleanup is in the
    inbox of the other context, or gets there as soon as the helper
    attaches it, or has already run; when it runs there it returns and
    the process is deleted, which never happens before the future is
    settled.  Run by the spawned process itself it would not return. *)
Theorem helper_cleanup (u0 : U) w :
  reachable iterate body (loop_helper u0) w ->
  ~ In Cleanup (mailbox w) /\
  (state (outer w) <> PENDING ->
   (process w = Spawned /\
    exists w', exec iterate body 0 Attach w = Some w' /\
               process w' = Attached /\ executor w' = [Cleanup]) \/
   (process w = Attached /\ executor w = [Cleanup]) \/
   process w = Deleted) /\
  (process w = Deleted -> state (outer w) <> PENDING) /\
  (forall fuel rest, executor w = Cleanup :: rest ->
     exists w', exec iterate body fuel DeliverExecutor w = Some w' /\
                process w' = Deleted) /\
  (forall fuel w0, execute iterate body Pid fuel Cleanup w0 = None).
Proof.
  intros Hr. destruct (loop_helper_reachable u0 w Hr) as [H Hp].
  pose proof (hk_helper _ (inv_hooks _ H)) as Hh.
  split; [apply no_cleanup_on_pid, H|].
  split; [|split; [|split]].
  - intros Ho. destruct (process w) eqn:Ep; [congruence| | |].
    + left. split; [reflexivity|]. destruct Hh as [Ha He].
      eexists. split; [simpl; rewrite Ep; reflexivity|].
      split; [reflexivity|].
      unfold attach, update_promise. rewrite invoke_eq.
      change (promise (loop_state w)) with (outer w).
      rewrite subscribe_onAny_settled by assumption. simpl. now rewrite He.
    + right; left. split; [reflexivity|]. destruct Hh as [(? & _)|(_ & _ & ?)];
        [contradiction|assumption].
    + right; right. reflexivity.
  - intros Ep. rewrite Ep in Hh. tauto.
  - intros fuel rest He. simpl. rewrite He. simpl. eauto.
  - reflexivity.
Qed.

(** C10 (ready-false beats a recorded discard).  With a discard recorded
    on the returned future, which is still pending: if [body] answers the
    ready value in the slot with a future that is ready-false, [run]
    settles the promise ready; so does the continuation on a condition
    that is ready-false when it wakes; and in both cases the returned
    future stays ready ever after. *)
Theorem ready_false_beats_discard w fuel :
  state (outer w) = PENDING -> hasDiscard (outer w) = true ->
  (forall v, state (the_future w) = READY v ->
     returned (snd (body v (user w))) = READY false ->
     exists w', run iterate body (S fuel) w = Some w' /\
                state (outer w') = READY tt /\
                forall w2, reachable iterate body w' w2 ->
                           state (outer w2) = READY tt) /\
  (state (the_condition w) = READY false ->
     exists w', condition_wake iterate body fuel w = Some w' /\
                state (outer w') = READY tt /\
                forall w2, reachable iterate body w' w2 ->
                           state (outer w2) = READY tt).
Proof.
  intros Ho Hd.
  assert (Hstay : forall w', state (outer w') = READY tt ->
            forall w2, reachable iterate body w' w2 -> state (outer w2) = READY tt).
  { intros w' Hs w2 Hr2. destruct (kept_reachable _ _ Hr2) as (_ & _ & He & _).
    unfold outer in *. rewrite He; [assumption|]. rewrite Hs. discriminate. }
  split.
  - intros v Hv Hb.
    destruct (drains_run_while 0 (log EvRun w) v (S fuel))
      as (w' & Hrun & Ho' & _); auto; [|lia|exists w'; eauto].
    simpl. destruct (body v (user w)) as [u1 c]. simpl in Hb. now rewrite Hb.
  - intros Hc. unfold condition_wake. rewrite Hc.
    eexists. split; [reflexivity|].
    assert (Hs : state (outer (promise_set w)) = READY tt).
    { unfold promise_set, update_promise. rewrite invoke_eq.
      change (promise (loop_state (log EvSet w))) with (outer w).
      now rewrite settle_pending. }
    eauto.
Qed.

(** ** The loop as long as the callables answer at once *)

Lemma next_condition_ready w v u1 c :
  body v (user w) = (u1, c) -> returned c <> PENDING ->
  (let w := assign_condition body v w in
   if hasDiscard (promise (loop_state w)) then condition_discard w else w)
  = assign_condition body v w /\
  the_condition (assign_condition body v w) = Future_of c /\
  user (assign_condition body v w) = u1 /\
  outer (assign_condition body v w) = outer w.
Proof.
  intros Eb Hc. cbv zeta. rewrite (assign_condition_eq v w u1 c Eb).
  set (w1 := mkWorld _ _ _ _ _ _ _ _).
  assert (Hw1 : the_condition w1 = Future_of c)
    by (apply (the_condition_push w); reflexivity).
  repeat split; auto.
  destruct (hasDiscard _); [|reflexivity].
  apply condition_discard_settled. now rewrite Hw1.
Qed.

Lemma next_future_ready w u1 r :
  iterate (user w) = (u1, r) -> returned r <> PENDING ->
  (let w := assign_future iterate w in
   if hasDiscard (promise (loop_state w)) then future_discard w else w)
  = assign_future iterate w /\
  the_future (assign_future iterate w) = Future_of r /\
  user (assign_future iterate w) = u1 /\
  outer (assign_future iterate w) = outer w.
Proof.
  intros Ei Hr. cbv zeta. rewrite (assign_future_eq w u1 r Ei).
  set (w1 := mkWorld _ _ _ _ _ _ _ _).
  assert (Hw1 : the_future w1 = Future_of r)
    by (apply (the_future_push w); reflexivity).
  repeat split; auto.
  destruct (hasDiscard _); [|reflexivity].
  apply future_discard_settled. now rewrite Hw1.
Qed.

Lemma run_while_never_returns :
  (forall u, exists v, returned (snd (iterate u)) = READY v) ->
  (forall v u, returned (snd (body v u)) = READY true) ->
  forall fuel w v, state (the_future w) = READY v ->
    run_while iterate body fuel w = None.
Proof.
  intros Hi Hb. induction fuel as [|fuel IH]; intros w v Hv; simpl; rewrite Hv;
    [reflexivity|].
  destruct (body v (user w)) as [u1 c] eqn:Eb.
  assert (Ec : returned c = READY true) by (specialize (Hb v (user w)); now rewrite Eb in Hb).
  destruct (next_condition_ready w v u1 c Eb) as (E1 & E2 & E3 & _);
    [congruence|].
  cbv zeta in E1. rewrite E1, E2. simpl. rewrite Ec.
  set (w1 := assign_condition body v w) in *.
  destruct (iterate (user w1)) as [u2 r] eqn:Ei.
  destruct (Hi (user w1)) as [v' Er]. rewrite Ei in Er. simpl in Er.
  destruct (next_future_ready w1 u2 r Ei) as (F1 & F2 & _); [congruence|].
  cbv zeta in F1. rewrite F1. apply (IH _ v'). now rewrite F2.
Qed.

(** X6.  [run] has no bound of its own on the turns of its [while]: with an
    [iterate] whose futures are always ready and a [body] that always
    answers ready-true, the closure that starts the loop does not return
    within any number of turns, whatever the state the callables start
    from.  (The step is enabled, the closure being the oldest in the inbox
    of a live process: [None] says that the bound was reached.) *)
Theorem drain_unbounded (u0 : U) w rest fuel :
  (forall u, exists v, returned (snd (iterate u)) = READY v) ->
  (forall v u, returned (snd (body v u)) = READY true) ->
  reachable iterate body (loop u0) w ->
  mailbox w = Bootstrap :: rest ->
  exec iterate body fuel Deliver w = None.
Proof.
  intros Hi Hb Hr Hm.
  destruct (loop_reachable u0 w Hr) as [_ Hp].
  simpl. rewrite Hm, Hp. simpl. unfold bootstrap, run.
  set (w0 := set_mailbox rest w).
  destruct (iterate (user w0)) as [u1 r] eqn:Ei.
  destruct (Hi (user w0)) as [v Er]. rewrite Ei in Er. simpl in Er.
  destruct (next_future_ready w0 u1 r Ei) as (F1 & F2 & _); [congruence|].
  cbv zeta in F1. rewrite F1.
  apply (run_while_never_returns Hi Hb fuel _ v).
  change (the_future (log EvRun (assign_future iterate w0)))
    with (the_future (assign_future iterate w0)).
  now rewrite F2.
Qed.

Lemma do_while_run_while n : forall w u r u',
  iterate u = (user w, r) -> state (the_future w) = returned r ->
  state (outer w) = PENDING ->
  do_while iterate body n u = Some u' ->
  exists w', run_while iterate body n w = Some w' /\
             user w' = u' /\ state (outer w') = READY tt.
Proof.
  induction n as [|n IH]; intros w u r u' Ei Hf Ho Hd; [discriminate|].
  simpl in Hd. rewrite Ei in Hd.
  destruct (returned r) as [|v| |] eqn:Er; try discriminate.
  simpl. rewrite Hf.
  destruct (body v (user w)) as [u1 c] eqn:Eb.
  destruct (returned c) as [|b| |] eqn:Ec; try discriminate.
  destruct (next_condition_ready w v u1 c Eb) as (E1 & E2 & E3 & E4);
    [congruence|].
  cbv zeta in E1. rewrite E1, E2. simpl. rewrite Ec.
  set (w1 := assign_condition body v w) in *.
  destruct b.
  - destruct (iterate (user w1)) as [u2 r2] eqn:Ei2.
    assert (Er2 : returned r2 <> PENDING).
    { destruct n; [discriminate|]. simpl in Hd. rewrite <- E3, Ei2 in Hd.
      destruct (returned r2); congruence. }
    destruct (next_future_ready w1 u2 r2 Ei2 Er2) as (F1 & F2 & F3 & F4).
    cbv zeta in F1. rewrite F1.
    apply (IH _ (user w1) r2 u').
    + now rewrite F3.
    + now rewrite F2.
    + rewrite F4, E4. exact Ho.
    + now rewrite E3.
  - eexists. split; [reflexivity|]. unfold promise_set, update_promise.
    change (promise (loop_state w1)) with (outer w1).
    rewrite settle_pending by (change (outer (log EvSet w1)) with (outer w1);
                               rewrite E4; exact Ho).
    cbn [fst snd]. rewrite invoke_eq. simpl. split; [|reflexivity].
    rewrite E3. congruence.
Qed.

(** X7.  The loop does what its synchronous reading in the header does:
    when the [do]-[while] over callables that answer at once ends within
    [n] rounds leaving them in state [u'], the closure that starts the loop
    returns within [n] turns, leaves the callables in [u'] and the returned
    future ready. *)
Theorem refines_do_while (u0 : U) w rest n u' :
  reachable iterate body (loop u0) w ->
  mailbox w = Bootstrap :: rest ->
  do_while iterate body n (user w) = Some u' ->
  exists w', exec iterate body n Deliver w = Some w' /\
             user w' = u' /\ state (outer w') = READY tt.
Proof.
  intros Hr Hm Hd.
  destruct (loop_reachable u0 w Hr) as [HI Hp].
  destruct (booting_phase w rest HI Hm) as (_ & _ & Ho).
  simpl. rewrite Hm, Hp. simpl. unfold bootstrap, run.
  set (w0 := set_mailbox rest w).
  destruct (iterate (user w0)) as [u1 r] eqn:Ei.
  assert (Er : returned r <> PENDING).
  { destruct n; [discriminate|]. simpl in Hd.
    change (user w) with (user w0) in Hd. rewrite Ei in Hd.
    destruct (returned r); congruence. }
  destruct (next_future_ready w0 u1 r Ei Er) as (F1 & F2 & F3 & F4).
  cbv zeta in F1. rewrite F1.
  apply (do_while_run_while n _ (user w0) r u').
  - simpl. now rewrite F3.
  - change (the_future (log EvRun (assign_future iterate w0)))
      with (the_future (assign_future iterate w0)).
    now rewrite F2.
  - change (outer (log EvRun (assign_future iterate w0)))
      with (outer (assign_future iterate w0)).
    rewrite F4. exact Ho.
  - exact Hd.
Qed.

(** ** What resumes the loop *)

Lemma subscribed_none {A} (cells : list (Data A)) :
  (forall i d, cells !! i = Some d -> onAnyCallbacks d = []) ->
  subscribed cells = 0.
Proof.
  induction cells as [|d cells IH]; intros H; [reflexivity|]. simpl.
  rewrite (H 0 d eq_refl). simpl. apply IH. intros i d' Hi. exact (H (S i) d' Hi).
Qed.

Lemma subscribed_single {A} (cells : list (Data A)) : forall k d,
  cells !! k = Some d ->
  (forall i d', cells !! i = Some d' -> i <> k -> onAnyCallbacks d' = []) ->
  subscribed cells = length (onAnyCallbacks d).
Proof.
  induction cells as [|d0 cells IH]; intros k d Hk H; [discriminate|].
  destruct k as [|k]; simpl in *.
  - injection Hk as ->. rewrite subscribed_none; [lia|].
    intros i d' Hi. apply (H (S i) d' Hi). lia.
  - rewrite (H 0 d0 eq_refl) by lia. simpl. apply (IH k d Hk).
    intros i d' Hi Hne. apply (H (S i) d' Hi). lia.
Qed.

Lemma future_subscriptions w :
  Store w -> subscribed (futures w) = length (onAnyCallbacks (the_future w)).
Proof.
  intros Hst. apply (subscribed_single _ (cur_future w)).
  - now apply Store_lookup_future.
  - intros i d Hi Hne.
    destruct i as [|i].
    + destruct (st_future0 _ Hst) as (d0 & H0 & _ & Hcb & _). congruence.
    + pose proof (lookup_lt_Some _ _ _ Hi). pose proof (st_future _ Hst).
      pose proof (st_ge _ Hst).
      destruct (st_consumed _ Hst _ _ Hi) as [v Hv]; [lia|lia|].
      apply (st_future_cbs _ Hst _ _ Hi). congruence.
Qed.

Lemma condition_subscriptions w :
  Store w -> subscribed (conditions w) = length (onAnyCallbacks (the_condition w)).
Proof.
  intros Hst. apply (subscribed_single _ (cur_condition w)).
  - now apply Store_lookup_condition.
  - intros i d Hi Hne.
    destruct i as [|i].
    + destruct (st_condition0 _ Hst) as (d0 & H0 & _ & Hcb & _). congruence.
    + pose proof (lookup_lt_Some _ _ _ Hi). pose proof (st_condition _ Hst).
      pose proof (st_le _ Hst).
      assert (Hv : state d = READY true)
        by (apply (st_continued _ Hst _ _ Hi); lia).
      apply (st_condition_cbs _ Hst _ _ Hi). congruence.
Qed.

(** A slot that the driver is not waiting on holds no continuation. *)
Lemma the_future_quiet w :
  Store w -> cur_future w = cur_condition w -> onAnyCallbacks (the_future w) = [].
Proof.
  intros Hst E. pose proof (Store_lookup_future _ Hst) as Hl.
  destruct (decide (cur_condition w = 0)) as [H0|H0].
  - destruct (st_future0 _ Hst) as (d0 & Hd0 & _ & Hcb & _).
    rewrite E, H0 in Hl. congruence.
  - destruct (consumed_ready w Hst E) as [v Hv]; [lia|].
    apply (st_future_cbs _ Hst _ _ Hl). congruence.
Qed.

Lemma the_condition_quiet w :
  Store w -> cur_future w = S (cur_condition w) ->
  onAnyCallbacks (the_condition w) = [].
Proof.
  intros Hst E. pose proof (Store_lookup_condition _ Hst) as Hl.
  destruct (decide (cur_condition w = 0)) as [H0|H0].
  - destruct (st_condition0 _ Hst) as (d0 & Hd0 & _ & Hcb & _).
    rewrite H0 in Hl. congruence.
  - pose proof (continued_ready w Hst E) as Hv.
    apply (st_condition_cbs _ Hst _ _ Hl). rewrite Hv by lia. congruence.
Qed.

Lemma settled_quiet {A} (cells : list (Data A)) k d :
  (forall i d, cells !! i = Some d -> state d <> PENDING -> onAnyCallbacks d = []) ->
  cells !! k = Some d -> state d <> PENDING -> length (onAnyCallbacks d) = 0.
Proof. intros H Hk Hs. now rewrite (H k d Hk Hs). Qed.

Lemma Inv_continuations w :
  Inv w -> continuations w = if terminal (state (outer w)) then 0 else 1.
Proof.
  intros [Hst Hch Hhk Hp]. unfold continuations.
  rewrite (future_subscriptions w Hst), (condition_subscriptions w Hst).
  pose proof (Store_lookup_future _ Hst) as Hlf.
  pose proof (Store_lookup_condition _ Hst) as Hlc.
  destruct Hp as [Hf Hc Ho Hw|Hs Ho Hf Hcb Hw|Hs Ho Hf Hw|Hs H1 Ho Hc Hcb Hw
                 |Hs H1 Ho Hc Hw|Hout Hw]; rewrite Hw; try rewrite Ho; simpl.
  - rewrite the_future_quiet by (auto; congruence).
    destruct (st_condition0 _ Hst) as (d0 & Hd0 & _ & Hcb & _).
    rewrite Hc in Hlc. replace (the_condition w) with d0 by congruence.
    now rewrite Hcb.
  - rewrite Hcb, the_condition_quiet by auto. reflexivity.
  - rewrite (settled_quiet _ _ _ (st_future_cbs _ Hst) Hlf Hf).
    rewrite the_condition_quiet by auto. reflexivity.
  - rewrite Hcb, the_future_quiet by auto. reflexivity.
  - rewrite (settled_quiet _ _ _ (st_condition_cbs _ Hst) Hlc Hc).
    rewrite the_future_quiet by auto. reflexivity.
  - unfold outcome in Hout.
    destruct (state (outer w)) as [|[]|r|] eqn:Ho; simpl in *; [contradiction| | |].
    + destruct Hout as (Hs & H1 & Hc).
      rewrite the_future_quiet by auto.
      rewrite (settled_quiet _ _ _ (st_condition_cbs _ Hst) Hlc) by congruence.
      reflexivity.
    + destruct Hout as [(Hs & Hf)|(Hs & H1 & Hc)].
      * rewrite (settled_quiet _ _ _ (st_future_cbs _ Hst) Hlf) by congruence.
        rewrite the_condition_quiet by auto. reflexivity.
      * rewrite the_future_quiet by auto.
        rewrite (settled_quiet _ _ _ (st_condition_cbs _ Hst) Hlc) by congruence.
        reflexivity.
    + destruct Hout as [(Hs & Hf)|(Hs & H1 & Hc)].
      * rewrite (settled_quiet _ _ _ (st_future_cbs _ Hst) Hlf) by congruence.
        rewrite the_condition_quiet by auto. reflexivity.
      * rewrite the_future_quiet by auto.
        rewrite (settled_quiet _ _ _ (st_condition_cbs _ Hst) Hlc) by congruence.
        reflexivity.
Qed.

(** X1.  The loop is resumed by exactly one thing as long as the returned
    future is pending, and by nothing once it is settled: counting the
    closures of the driver in the inbox of [pid] and the [onAny] callbacks
    on all futures that [iterate] and [body] have handed out, there is one
    while the loop runs (no wake-up is lost, none comes twice) and none
    afterwards (no subscription is left behind).  Once the returned future
    is settled the discard hook is not subscribed on it any more either. *)
Theorem one_continuation (u0 : U) w :
  reachable iterate body (loop u0) w ->
  continuations w = (if terminal (state (outer w)) then 0 else 1) /\
  (state (outer w) <> PENDING -> onDiscardCallbacks (outer w) = []).
Proof.
  intros Hr. destruct (loop_reachable u0 w Hr) as [HI _].
  split; [now apply Inv_continuations|].
  intros Hs. rewrite (hk_discard _ (inv_hooks _ HI)). unfold isPending.
  destruct (state (outer w)); [congruence| | |]; now rewrite andb_false_r.
Qed.

(** X2.  The loop is strictly sequential: at most one of the futures that
    the callables have handed out is unsettled.  While a value is awaited
    it is the last one from [iterate], [body] has not been called for it
    and every condition so far is ready and true; while a condition is
    awaited it is the last one from [body], [iterate] has not been called
    again and every value so far is ready. *)
Theorem one_future_in_flight (u0 : U) w :
  reachable iterate body (loop u0) w ->
  (forall i d, 1 <= i -> futures w !! i = Some d -> state d = PENDING ->
     i = iterations (history w) /\
     iterations (history w) = S (length (bodies (history w))) /\
     forall j c, 1 <= j -> conditions w !! j = Some c -> state c = READY true) /\
  (forall j c, 1 <= j -> conditions w !! j = Some c -> state c = PENDING ->
     j = length (bodies (history w)) /\
     iterations (history w) = length (bodies (history w)) /\
     forall i d, 1 <= i -> futures w !! i = Some d -> exists v, state d = READY v).
Proof.
  intros Hr. destruct (loop_reachable u0 w Hr) as [HI _].
  pose proof (inv_store _ HI) as Hst. pose proof (inv_chronicle _ HI) as Hch.
  rewrite (ch_iterations _ Hch), (ch_bodies _ Hch). split.
  - intros i d H1 Hi Hp.
    destruct (pending_future_current w i d Hst Hi H1 Hp) as [-> ->].
    destruct (pending_future_awaited w HI Hp H1) as (Hs & _).
    repeat split; auto.
    intros j c Hj Hc. apply (st_continued _ Hst _ _ Hc Hj).
    pose proof (lookup_lt_Some _ _ _ Hc). pose proof (st_condition _ Hst). lia.
  - intros j c H1 Hj Hp.
    destruct (pending_condition_current w j c Hst Hj H1 Hp) as [-> ->].
    destruct (pending_condition_awaited w HI Hp H1) as (Hs & _).
    repeat split; auto.
    intros i d Hi Hd. apply (st_consumed _ Hst _ _ Hd Hi).
    pose proof (lookup_lt_Some _ _ _ Hd). pose proof (st_future _ Hst). lia.
Qed.

(** X3.  The result is sound.  A ready result means that [body] has said
    stop: its last future is ready with [false], every one before is ready
    with [true], and every value from [iterate] was given to [body].  A
    result failed with [r] means that the last future from [iterate] or
    from [body] has failed with [r]. *)
Theorem result_sound (u0 : U) w :
  reachable iterate body (loop u0) w ->
  (state (outer w) = READY tt ->
   1 <= length (bodies (history w)) /\
   iterations (history w) = length (bodies (history w)) /\
   (exists c, conditions w !! length (bodies (history w)) = Some c /\
              state c = READY false) /\
   (forall j c, 1 <= j -> j < length (bodies (history w)) ->
      conditions w !! j = Some c -> state c = READY true)) /\
  (forall r, state (outer w) = FAILED r ->
     (exists d, futures w !! iterations (history w) = Some d /\
                state d = FAILED r) \/
     (exists c, conditions w !! length (bodies (history w)) = Some c /\
                state c = FAILED r)).
Proof.
  intros Hr. destruct (loop_reachable u0 w Hr) as [HI _].
  pose proof (inv_store _ HI) as Hst. pose proof (inv_chronicle _ HI) as Hch.
  rewrite (ch_iterations _ Hch), (ch_bodies _ Hch).
  pose proof (Store_lookup_future _ Hst) as Hlf.
  pose proof (Store_lookup_condition _ Hst) as Hlc.
  split.
  - intros Ho.
    destruct (settled_phase w (inv_phase _ HI)) as [Hout _]; [congruence|].
    unfold outcome in Hout. rewrite Ho in Hout. destruct Hout as (Hs & H1 & Hc).
    repeat split; auto.
    + eauto.
    + intros j c Hj Hlt Hjc. apply (st_continued _ Hst _ _ Hjc Hj). lia.
  - intros r Ho.
    destruct (settled_phase w (inv_phase _ HI)) as [Hout _]; [congruence|].
    unfold outcome in Hout. rewrite Ho in Hout.
    destruct Hout as [(Hs & Hf)|(Hs & H1 & Hc)]; eauto.
Qed.

(** ** The other context *)

Lemma Inv_executor w : Inv w -> executor w = [] \/ executor w = [Cleanup].
Proof.
  intros HI. pose proof (hk_helper _ (inv_hooks _ HI)) as H.
  destruct (process w); tauto.
Qed.

Lemma history_invoke fs w : history (invoke fs w) = history w.
Proof. now rewrite invoke_eq. Qed.

(** X4.  [iterate] and [body] are called by closures that [pid] executes
    and by nothing else.  In the helper, where a second context exists,
    its inbox holds at most the one cleanup closure, and no step of
    anything but [pid] (the cleanup, a producer settling a future, the
    caller discarding, the helper attaching its callback) adds to the
    record of calls. *)
Theorem callables_run_on_pid (u0 : U) w :
  reachable iterate body (loop_helper u0) w ->
  (executor w = [] \/ executor w = [Cleanup]) /\
  (forall fuel l w', l <> Deliver ->
     exec iterate body fuel l w = Some w' -> history w' = history w).
Proof.
  intros Hr. destruct (loop_helper_reachable u0 w Hr) as [HI _].
  split; [now apply Inv_executor|].
  intros fuel l w' Hl Hex. destruct l; simpl in Hex; try congruence.
  - destruct (Inv_executor w HI) as [He|He]; rewrite He in Hex; [discriminate|].
    simpl in Hex. now injection Hex as <-.
  - destruct i as [|i]; [discriminate|].
    destruct (futures w !! S i) as [d|]; [|discriminate].
    destruct (isPending d && terminal s); [|discriminate].
    injection Hex as <-. now rewrite history_invoke.
  - destruct i as [|i]; [discriminate|].
    destruct (conditions w !! S i) as [d|]; [|discriminate].
    destruct (isPending d && terminal s); [|discriminate].
    injection Hex as <-. now rewrite history_invoke.
  - injection Hex as <-. unfold update_promise. now rewrite history_invoke.
  - now injection Hex as <-.
  - destruct (process w); try discriminate. injection Hex as <-.
    unfold attach, update_promise. simpl. now rewrite history_invoke.
Qed.

(** ** First in, first out *)

Lemma kept_size w w' :
  kept w w' ->
  length (futures w) <= length (futures w') /\
  length (conditions w) <= length (conditions w').
Proof.
  intros (Hf & Hc & _). split.
  - destruct (futures w) as [|d l] eqn:E using rev_ind; [simpl; lia|].
    clear IHl. rewrite length_app. simpl.
    destruct (Hf (length l) d) as (d' & Hd' & _).
    { rewrite lookup_app_r by lia. now rewrite Nat.sub_diag. }
    pose proof (lookup_lt_Some _ _ _ Hd'). lia.
  - destruct (conditions w) as [|d l] eqn:E using rev_ind; [simpl; lia|].
    clear IHl. rewrite length_app. simpl.
    destruct (Hc (length l) d) as (d' & Hd' & _).
    { rewrite lookup_app_r by lia. now rewrite Nat.sub_diag. }
    pose proof (lookup_lt_Some _ _ _ Hd'). lia.
Qed.

Lemma mailbox_invoke fs w : mailbox (invoke fs w) = mailbox w ++ posted Pid fs.
Proof. now rewrite invoke_eq. Qed.

(** Steps of the environment only add to the inbox of [Pid]. *)
Lemma exec_appends fuel l w w' :
  exec iterate body fuel l w = Some w' -> l <> Deliver -> l <> DeliverExecutor ->
  exists m, mailbox w' = mailbox w ++ m.
Proof.
  intros Hex Hl Hl'. destruct l; simpl in Hex; try congruence.
  - destruct i as [|i]; [discriminate|].
    destruct (futures w !! S i) as [d|]; [|discriminate].
    destruct (isPending d && terminal s); [|discriminate].
    injection Hex as <-. rewrite mailbox_invoke. eauto.
  - destruct i as [|i]; [discriminate|].
    destruct (conditions w !! S i) as [d|]; [|discriminate].
    destruct (isPending d && terminal s); [|discriminate].
    injection Hex as <-. rewrite mailbox_invoke. eauto.
  - injection Hex as <-. unfold update_promise. rewrite mailbox_invoke. eauto.
  - injection Hex as <-. exists []. now rewrite app_nil_r.
  - destruct (process w); try discriminate. injection Hex as <-.
    unfold attach, update_promise. simpl. rewrite mailbox_invoke. eauto.
Qed.

Lemma size_next_future w :
  length (futures (let w := assign_future iterate w in
                   if hasDiscard (promise (loop_state w))
                   then future_discard w else w))
  = S (length (futures w)).
Proof.
  cbv zeta. destruct (iterate (user w)) as [u r] eqn:Ei.
  rewrite (assign_future_eq w u r Ei).
  set (w1 := mkWorld _ _ _ _ _ _ _ _).
  assert (length (futures w1) = S (length (futures w)))
    by (simpl; rewrite length_app; simpl; lia).
  destruct (hasDiscard _); [|assumption].
  unfold future_discard. now rewrite (proj1 (size_update_future _ _)).
Qed.

Lemma bootstrap_first_step fuel l w w' :
  Inv w -> process w = Supplied ->
  (iterations (history w) = 0 -> exists rest, mailbox w = Bootstrap :: rest) ->
  exec iterate body fuel l w = Some w' ->
  iterations (history w') = 0 -> exists rest, mailbox w' = Bootstrap :: rest.
Proof.
  intros HI Hp IH Hex H0.
  pose proof (exec_Inv fuel l w w' HI Hex) as HI'.
  pose proof (kept_exec fuel l w w' Hex) as Hk.
  destruct (kept_size w w' Hk) as [Hsz _].
  rewrite (ch_iterations _ (inv_chronicle _ HI')) in H0.
  pose proof (st_future _ (inv_store _ HI)) as Hl.
  pose proof (st_future _ (inv_store _ HI')) as Hl'.
  destruct IH as [rest Hm].
  { rewrite (ch_iterations _ (inv_chronicle _ HI)). lia. }
  assert (Hl0 : l = Deliver \/ l = DeliverExecutor \/
                (l <> Deliver /\ l <> DeliverExecutor))
    by (destruct l; auto; right; right; split; discriminate).
  destruct Hl0 as [->|[->|[Hl1 Hl2]]].
  - exfalso. simpl in Hex. rewrite Hm, Hp in Hex. simpl in Hex.
    unfold bootstrap in Hex. apply kept_run in Hex.
    destruct (kept_size _ _ Hex) as [Hsz' _].
    rewrite size_next_future in Hsz'. simpl in Hsz'. lia.
  - simpl in Hex. pose proof (hk_helper _ (inv_hooks _ HI)) as Hh.
    rewrite Hp in Hh. destruct Hh as [_ Hh]. rewrite Hh in Hex. discriminate.
  - destruct (exec_appends fuel l w w' Hex Hl1 Hl2) as [m Hm'].
    rewrite Hm', Hm. simpl. eauto.
Qed.

(** X5.  The inbox of [pid] is served first in, first out, so the closure
    that starts the loop runs before anything else of the loop: as long as
    [iterate] has not been called it is the oldest closure in the inbox.
    The discard hook therefore never runs on the default-constructed
    [loop->future]: when it is the oldest closure, [iterate] has been
    called. *)
Theorem bootstrap_first (u0 : U) w :
  reachable iterate body (loop u0) w ->
  (iterations (history w) = 0 -> exists rest, mailbox w = Bootstrap :: rest) /\
  (forall rest, mailbox w = RootDiscard :: rest -> 1 <= iterations (history w)).
Proof.
  intros Hr.
  assert (H : iterations (history w) = 0 ->
              exists rest, mailbox w = Bootstrap :: rest).
  { induction Hr as [|fuel l w w' Hr IH Hex].
    - intros _. exists []. reflexivity.
    - destruct (loop_reachable u0 w Hr) as [HI Hp].
      now apply (bootstrap_first_step fuel l w w'). }
  split; [exact H|].
  intros rest Hm. destruct (iterations (history w)) as [|n]; [|lia].
  destruct H as [rest' Hm']; [reflexivity|]. congruence.
Qed.

(** ** What the closures of the driver leave alone *)

Lemma handled_refl w : handled w w.
Proof. split; [|split]; auto. Qed.

Lemma handled_trans w1 w2 w3 : handled w1 w2 -> handled w2 w3 -> handled w1 w3.
Proof.
  intros (H1 & H2 & H3) (K1 & K2 & K3). split; [|split]; try congruence. auto.
Qed.

Lemma handled_frame w w' :
  mailbox w' = mailbox w -> outer w' = outer w ->
  futures w' = futures w -> conditions w' = conditions w -> handled w w'.
Proof.
  intros Hm Ho Hf Hc. unfold handled, hooks, Honest.
  rewrite Hm, Ho, Hf, Hc. auto.
Qed.

Lemma hooks_invoke fs w : hookless fs -> hooks (invoke fs w) = hooks w.
Proof.
  intros H. unfold hooks. rewrite mailbox_invoke, List.filter_app.
  unfold hookless in H. rewrite H. apply app_nil_r.
Qed.

Lemma hookless_nil : hookless [].
Proof. reflexivity. Qed.

Lemma honest_the_future w : Honest w -> honest (the_future w).
Proof.
  intros [H _]. unfold the_future.
  destruct (futures w !! future (loop_state w)) as [d|] eqn:E; simpl.
  - exact (Forall_lookup_1 _ _ _ _ H E).
  - intros _ _. reflexivity.
Qed.

Lemma honest_the_condition w : Honest w -> honest (the_condition w).
Proof.
  intros [_ H]. unfold the_condition.
  destruct (conditions w !! condition (loop_state w)) as [d|] eqn:E; simpl.
  - exact (Forall_lookup_1 _ _ _ _ H E).
  - intros _ _. reflexivity.
Qed.

Lemma handled_update_future r w :
  (honest (the_future w) -> honest (fst r)) -> hookless (snd r) ->
  handled w (update_future r w).
Proof.
  intros Hh Hq. unfold update_future. split; [|split].
  - now rewrite hooks_invoke.
  - now rewrite invoke_eq.
  - intros HH. pose proof (honest_the_future w HH) as Hd.
    destruct HH as [Hf Hc]. unfold Honest. rewrite invoke_eq. simpl. split; auto.
    apply Forall_insert; auto.
Qed.

Lemma handled_update_condition r w :
  (honest (the_condition w) -> honest (fst r)) -> hookless (snd r) ->
  handled w (update_condition r w).
Proof.
  intros Hh Hq. unfold update_condition. split; [|split].
  - now rewrite hooks_invoke.
  - now rewrite invoke_eq.
  - intros HH. pose proof (honest_the_condition w HH) as Hd.
    destruct HH as [Hf Hc]. unfold Honest. rewrite invoke_eq. simpl. split; auto.
    apply Forall_insert; auto.
Qed.

Lemma handled_update_promise r w :
  discard (fst r) = discard (outer w) -> hookless (snd r) ->
  handled w (update_promise r w).
Proof.
  intros Hd Hq. unfold update_promise. split; [|split].
  - now rewrite hooks_invoke.
  - rewrite invoke_eq. exact Hd.
  - unfold Honest. now rewrite invoke_eq.
Qed.

Lemma honest_request_discard {A} (d : Data A) :
  onDiscardCallbacks d = [] -> honest d -> honest (fst (request_discard d)).
Proof.
  intros Hd H.
  destruct (request_discard_cases d Hd)
    as [E|[(Hs & Hf & Hr & E)|(Hs & Hf & Hr & E)]]; rewrite E; auto;
    unfold honest; simpl; intros; congruence.
Qed.

Lemma hookless_request_discard {A} (d : Data A) :
  onDiscardCallbacks d = [] -> hookless (onAnyCallbacks d) ->
  hookless (snd (request_discard d)).
Proof.
  intros Hd H.
  destruct (request_discard_cases d Hd)
    as [E|[(Hs & Hf & Hr & E)|(Hs & Hf & Hr & E)]]; rewrite E; auto;
    apply hookless_nil.
Qed.

Lemma honest_subscribe {A} f (d : Data A) :
  honest d -> honest (fst (subscribe_onAny f d)).
Proof.
  intros H. unfold subscribe_onAny.
  destruct (state d) eqn:E; simpl; auto.
  intros Hd _. simpl in *. apply H; assumption.
Qed.

Lemma hookless_subscribe {A} f (d : Data A) :
  is_wake f = true -> hookless (snd (subscribe_onAny (Pid, f) d)).
Proof.
  intros Hf. unfold subscribe_onAny, hookless.
  destruct (state d); simpl; try rewrite Hf; reflexivity.
Qed.

Lemma honest_Future_of {A} (r : Returned A) : honest (Future_of r).
Proof. intros H. discriminate. Qed.

Lemma handled_log e w : handled w (log e w).
Proof. now apply handled_frame. Qed.

Lemma handled_assign_future w : handled w (assign_future iterate w).
Proof.
  destruct (iterate (user w)) as [u r] eqn:Ei.
  rewrite (assign_future_eq w u r Ei). split; [|split]; try reflexivity.
  intros [Hf Hc]. split; simpl; auto.
  apply Forall_app. split; auto. constructor; [apply honest_Future_of|constructor].
Qed.

Lemma handled_assign_condition v w : handled w (assign_condition body v w).
Proof.
  destruct (body v (user w)) as [u c] eqn:Eb.
  rewrite (assign_condition_eq v w u c Eb). split; [|split]; try reflexivity.
  intros [Hf Hc]. split; simpl; auto.
  apply Forall_app. split; auto. constructor; [apply honest_Future_of|constructor].
Qed.

Lemma handled_future_discard w :
  Store w -> hookless (onAnyCallbacks (the_future w)) ->
  handled w (future_discard w).
Proof.
  intros Hst Hq. pose proof (Store_lookup_future _ Hst) as Hl.
  pose proof (st_future_hooks _ Hst _ _ Hl) as Hd.
  apply handled_update_future.
  - now apply honest_request_discard.
  - now apply hookless_request_discard.
Qed.

Lemma handled_condition_discard w :
  Store w -> hookless (onAnyCallbacks (the_condition w)) ->
  handled w (condition_discard w).
Proof.
  intros Hst Hq. pose proof (Store_lookup_condition _ Hst) as Hl.
  pose proof (st_condition_hooks _ Hst _ _ Hl) as Hd.
  apply handled_update_condition.
  - now apply honest_request_discard.
  - now apply hookless_request_discard.
Qed.

Lemma handled_future_onAny f w :
  is_wake f = true -> handled w (future_onAny (Pid, f) w).
Proof.
  intros Hf. apply (handled_trans _ (log EvOnAny w)); [apply handled_log|].
  apply handled_update_future.
  - apply honest_subscribe.
  - now apply hookless_subscribe.
Qed.

Lemma handled_condition_onAny f w :
  is_wake f = true -> handled w (condition_onAny (Pid, f) w).
Proof.
  intros Hf. apply (handled_trans _ (log EvOnAny w)); [apply handled_log|].
  apply handled_update_condition.
  - apply honest_subscribe.
  - now apply hookless_subscribe.
Qed.

Lemma handled_settle_promise w s e :
  Hooks w -> handled w (update_promise (settle s (outer w)) (log e w)).
Proof.
  intros Hhk. apply (handled_trans _ (log e w)); [apply handled_log|].
  apply handled_update_promise.
  - unfold settle. change (outer (log e w)) with (outer w).
    destruct (state (outer w)); reflexivity.
  - pose proof (hooks_posted_pid w Hhk) as Hq. unfold hookless, settle.
    destruct (state (outer w)); cbn [snd]; try reflexivity. now rewrite Hq.
Qed.

Lemma handled_next_future w :
  AtIterate w ->
  handled w (let w := assign_future iterate w in
             if hasDiscard (promise (loop_state w)) then future_discard w else w).
Proof.
  intros H. apply AtIterate_assign_future in H. cbv zeta.
  destruct (hasDiscard _); [|apply handled_assign_future].
  apply (handled_trans _ (assign_future iterate w)); [apply handled_assign_future|].
  apply handled_future_discard; [exact (af_store _ H)|].
  rewrite (af_cbs _ H). apply hookless_nil.
Qed.

Lemma handled_next_condition v w :
  AtFuture w -> state (the_future w) = READY v ->
  handled w (let w := assign_condition body v w in
             if hasDiscard (promise (loop_state w)) then condition_discard w else w).
Proof.
  intros H Hv. pose proof (AtFuture_assign_condition w v H Hv) as Hc. cbv zeta.
  destruct (hasDiscard _); [|apply handled_assign_condition].
  apply (handled_trans _ (assign_condition body v w));
    [apply handled_assign_condition|].
  apply handled_condition_discard; [exact (ac_store _ Hc)|].
  rewrite (ac_cbs _ Hc). apply hookless_nil.
Qed.

Lemma handled_run_while fuel : forall w w',
  AtFuture w -> run_while iterate body fuel w = Some w' -> handled w w'.
Proof.
  induction fuel as [|fuel IH]; intros w w' H Hrun; simpl in Hrun.
  - destruct (state (the_future w)) eqn:E; try discriminate;
      injection Hrun as <-; now apply handled_future_onAny.
  - destruct (state (the_future w)) as [|v| |] eqn:E;
      try (injection Hrun as <-; now apply handled_future_onAny).
    pose proof (handled_next_condition v w H E) as Hh. cbv zeta in Hh.
    pose proof (AtFuture_assign_condition w v H E) as Hc.
    set (w1 := assign_condition body v w) in *.
    assert (Hc2 : AtCondition (if hasDiscard (promise (loop_state w1))
                               then condition_discard w1 else w1))
      by (destruct (hasDiscard _); auto using AtCondition_condition_discard).
    set (w2 := if hasDiscard (promise (loop_state w1))
               then condition_discard w1 else w1) in *.
    apply (handled_trans _ w2); [exact Hh|].
    destruct (state (the_condition w2)) as [|[|]| |] eqn:E2.
    + injection Hrun as <-. now apply handled_condition_onAny.
    + pose proof (AtCondition_continue w2 Hc2 E2) as Hi.
      eapply handled_trans; [apply (handled_next_future w2 Hi)|].
      eapply IH; [|exact Hrun]. now apply AtIterate_next.
    + injection Hrun as <-. apply handled_settle_promise. exact (ac_hooks _ Hc2).
    + injection Hrun as <-. now apply handled_condition_onAny.
    + injection Hrun as <-. now apply handled_condition_onAny.
Qed.

Lemma handled_run fuel w w' :
  AtFuture w -> run iterate body fuel w = Some w' -> handled w w'.
Proof.
  intros H Hrun. unfold run in Hrun.
  apply (handled_trans _ (log EvRun w)); [apply handled_log|].
  eapply handled_run_while; [|exact Hrun].
  apply AtFuture_log; auto; discriminate.
Qed.

(** The callbacks on the slots are the driver's own continuations. *)
Lemma Inv_future_cbs w : Inv w -> hookless (onAnyCallbacks (the_future w)).
Proof.
  intros HI. pose proof (inv_store _ HI) as Hst.
  pose proof (Store_lookup_future _ Hst) as Hl.
  destruct (pending_or_not (state (the_future w))) as [Hp|Hp].
  - destruct (decide (cur_future w = 0)) as [H0|H0].
    + destruct (st_future0 _ Hst) as (d0 & Hd0 & _ & Hcb & _).
      rewrite H0 in Hl. replace (the_future w) with d0 by congruence.
      rewrite Hcb. reflexivity.
    + destruct (pending_future_awaited w HI Hp) as (_ & _ & Hcb & _); [lia|].
      rewrite Hcb. reflexivity.
  - rewrite (st_future_cbs _ Hst _ _ Hl Hp). reflexivity.
Qed.

Lemma Inv_condition_cbs w : Inv w -> hookless (onAnyCallbacks (the_condition w)).
Proof.
  intros HI. pose proof (inv_store _ HI) as Hst.
  pose proof (Store_lookup_condition _ Hst) as Hl.
  destruct (pending_or_not (state (the_condition w))) as [Hp|Hp].
  - destruct (decide (cur_condition w = 0)) as [H0|H0].
    + destruct (st_condition0 _ Hst) as (d0 & Hd0 & _ & Hcb & _).
      rewrite H0 in Hl. replace (the_condition w) with d0 by congruence.
      rewrite Hcb. reflexivity.
    + destruct (pending_condition_awaited w HI Hp) as (_ & _ & Hcb & _); [lia|].
      rewrite Hcb. reflexivity.
  - rewrite (st_condition_cbs _ Hst _ _ Hl Hp). reflexivity.
Qed.

Lemma handled_root_discard w : Inv w -> handled w (root_discard w).
Proof.
  intros HI. unfold root_discard.
  apply (handled_trans _ (future_discard w)).
  - apply handled_future_discard; [exact (inv_store _ HI)|].
    now apply Inv_future_cbs.
  - pose proof (Inv_future_discard w HI) as HI'.
    apply handled_condition_discard; [exact (inv_store _ HI')|].
    now apply Inv_condition_cbs.
Qed.

Lemma Inv_dequeue_hook w rest :
  Inv w -> mailbox w = RootDiscard :: rest -> Inv (set_mailbox rest w).
Proof.
  intros [Hst Hch Hhk Hp] Hm. constructor.
  - by_frame w.
  - by_frame w.
  - by_frame w.
  - eapply Phase_frame with (w := w); eauto.
    unfold wakes. rewrite Hm. reflexivity.
Qed.

Lemma handled_execute_Pid fuel f rest w w' :
  Inv w -> mailbox w = f :: rest ->
  execute iterate body Pid fuel f (set_mailbox rest w) = Some w' ->
  handled (set_mailbox rest w) w'.
Proof.
  intros HI Hm Hex. pose proof HI as [Hst Hch Hhk Hp].
  assert (Hst' : Store (set_mailbox rest w))
    by (eapply Store_frame with (w := w); eauto).
  assert (Hch' : Chronicle (set_mailbox rest w))
    by (eapply Chronicle_frame with (w := w); eauto).
  assert (Hhk' : Hooks (set_mailbox rest w))
    by (eapply Hooks_frame with (w := w); eauto).
  assert (Hw : wakes w = if is_wake f then f :: List.filter is_wake rest
                         else List.filter is_wake rest)
    by (unfold wakes; rewrite Hm; reflexivity).
  destruct f; simpl in Hw, Hex.
  - (* Bootstrap *)
    destruct Hp as [? ? ? Hk|? ? ? ? Hk|? ? ? Hk|? ? ? ? ? Hk|? ? ? ? Hk|? Hk];
      rewrite Hk in Hw; try discriminate.
    injection Hw as Hw. unfold bootstrap in Hex.
    assert (Hi : AtIterate (set_mailbox rest w))
      by (constructor; auto;
          unfold wakes, cur_future, cur_condition in *; simpl; congruence).
    eapply handled_trans; [apply (handled_next_future _ Hi)|].
    eapply handled_run; [|exact Hex]. now apply AtIterate_next.
  - (* ConditionWake *)
    destruct Hp as [? ? ? Hk|? ? ? ? Hk|? ? ? Hk|? ? ? ? ? Hk|? ? ? Hne Hk|? Hk];
      rewrite Hk in Hw; try discriminate.
    injection Hw as Hw.
    assert (Hat : AtCondition (set_mailbox rest w)).
    { constructor; auto; try (unfold wakes; simpl; congruence).
      change (the_condition (set_mailbox rest w)) with (the_condition w).
      exact (st_condition_cbs _ Hst _ _ (Store_lookup_condition _ Hst) Hne). }
    unfold condition_wake in Hex.
    change (the_condition (set_mailbox rest w)) with (the_condition w) in Hex.
    destruct (state (the_condition w)) as [|[|]|r|] eqn:E.
    + congruence.
    + assert (Hi : AtIterate (set_mailbox rest w))
        by now apply AtCondition_continue.
      eapply handled_trans; [apply (handled_next_future _ Hi)|].
      eapply handled_run; [|exact Hex]. now apply AtIterate_next.
    + injection Hex as <-. now apply handled_settle_promise.
    + injection Hex as <-. now apply handled_settle_promise.
    + injection Hex as <-. now apply handled_settle_promise.
  - (* FutureWake *)
    destruct Hp as [? ? ? Hk|? ? ? ? Hk|? ? Hne Hk|? ? ? ? ? Hk|? ? ? ? Hk|? Hk];
      rewrite Hk in Hw; try discriminate.
    injection Hw as Hw.
    assert (Hat : AtFuture (set_mailbox rest w)).
    { constructor; auto; try (unfold wakes; simpl; congruence).
      change (the_future (set_mailbox rest w)) with (the_future w).
      exact (st_future_cbs _ Hst _ _ (Store_lookup_future _ Hst) Hne). }
    unfold future_wake in Hex.
    change (the_future (set_mailbox rest w)) with (the_future w) in Hex.
    destruct (state (the_future w)) as [|v|r|] eqn:E.
    + congruence.
    + eapply handled_run; [|exact Hex]. assumption.
    + injection Hex as <-. now apply handled_settle_promise.
    + injection Hex as <-. now apply handled_settle_promise.
  - (* RootDiscard *)
    injection Hex as <-. apply handled_root_discard.
    now apply Inv_dequeue_hook.
  - (* Cleanup *)
    discriminate.
Qed.

(** ** Discard requests on their way *)

Lemma Honest_frame w w' :
  futures w' = futures w -> conditions w' = conditions w -> Honest w -> Honest w'.
Proof. unfold Honest. intros -> ->. auto. Qed.

Lemma filter_split (p : Closure -> bool) (l : list Closure) :
  length (List.filter p l) + length (List.filter (fun f => negb (p f)) l)
  = length l.
Proof.
  induction l as [|f l IH]; simpl; [reflexivity|]. destruct (p f); simpl; lia.
Qed.

Lemma mailbox_split w : length (mailbox w) = length (wakes w) + length (hooks w).
Proof. unfold wakes, hooks. now rewrite filter_split. Qed.

Lemma Phase_wakes w : Phase w -> length (wakes w) <= 1.
Proof.
  intros [? ? ? H|? ? ? ? H|? ? ? H|? ? ? ? ? H|? ? ? ? H|? H]; rewrite H;
    simpl; lia.
Qed.

(** The caller's [discard()] on the returned future: the first one on a
    pending loop posts the hook, any other changes nothing. *)
Lemma discard_outer_cases w :
  Hooks w ->
  (discard (outer w) = false /\ state (outer w) = PENDING /\
   update_promise (request_discard (outer w)) w =
   mkWorld (user w) (futures w) (conditions w)
           (mkLoop (mkData PENDING true [] (onAnyCallbacks (outer w)) PENDING)
                   (cur_future w) (cur_condition w))
           (mailbox w ++ [RootDiscard]) (executor w) (process w) (history w)) \/
  ((discard (outer w) = true \/ state (outer w) <> PENDING) /\
   update_promise (request_discard (outer w)) w = w).
Proof.
  intros [Hr Hd _]. unfold update_promise. rewrite invoke_eq.
  unfold request_discard.
  destruct (negb (discard (outer w)) && isPending (outer w)) eqn:E.
  - left. apply andb_prop in E as [E1 E2].
    apply isPending_true in E2. apply negb_true_iff in E1.
    rewrite Hr, Hd, E2. simpl. rewrite (app_nil_r (executor w)). auto.
  - right. split.
    + apply andb_false_iff in E as [E|E].
      * left. now apply negb_false_iff in E.
      * right. unfold isPending in E. destruct (state (outer w)); congruence.
    + simpl. rewrite !app_nil_r. unfold set_promise, set_loop, outer. simpl.
      destruct w as [u fs cs [p f c] m e pr h]. reflexivity.
Qed.

Lemma handled_attach w : handled w (attach w).
Proof.
  unfold attach.
  apply (handled_trans _ (update_promise
           (subscribe_onAny (Executor, Cleanup) (promise (loop_state w))) w)).
  - apply handled_update_promise.
    + unfold subscribe_onAny. change (promise (loop_state w)) with (outer w).
      destruct (state (outer w)); reflexivity.
    + unfold subscribe_onAny, hookless. destruct (state _); reflexivity.
  - now apply handled_frame.
Qed.

Lemma exec_Honest fuel l w w' :
  Inv w -> Honest w -> exec iterate body fuel l w = Some w' -> Honest w'.
Proof.
  intros HI HH Hex. destruct l; simpl in Hex.
  - destruct (mailbox w) as [|f rest] eqn:Hm; [discriminate|].
    destruct (alive (process w)); [|discriminate].
    destruct (handled_execute_Pid fuel f rest w w' HI Hm Hex) as (_ & _ & H).
    apply H. now apply (Honest_frame w).
  - destruct (Inv_executor w HI) as [He|He]; rewrite He in Hex; [discriminate|].
    simpl in Hex. injection Hex as <-. now apply (Honest_frame w).
  - destruct i as [|i]; [discriminate|].
    destruct (futures w !! S i) as [d|] eqn:Hi; [|discriminate].
    destruct (isPending d) eqn:Hp; [|discriminate].
    destruct (terminal s) eqn:Ht; [|discriminate].
    simpl in Hex. injection Hex as <-.
    apply isPending_true in Hp. apply terminal_not_pending in Ht.
    rewrite settle_pending by assumption. cbn [fst snd].
    destruct HH as [Hf Hc]. unfold Honest. rewrite invoke_eq. simpl. split; auto.
    apply Forall_insert; auto. intros _ Hs. simpl in Hs. contradiction.
  - destruct i as [|i]; [discriminate|].
    destruct (conditions w !! S i) as [d|] eqn:Hi; [|discriminate].
    destruct (isPending d) eqn:Hp; [|discriminate].
    destruct (terminal s) eqn:Ht; [|discriminate].
    simpl in Hex. injection Hex as <-.
    apply isPending_true in Hp. apply terminal_not_pending in Ht.
    rewrite settle_pending by assumption. cbn [fst snd].
    destruct HH as [Hf Hc]. unfold Honest. rewrite invoke_eq. simpl. split; auto.
    apply Forall_insert; auto. intros _ Hs. simpl in Hs. contradiction.
  - injection Hex as <-. unfold update_promise, Honest. now rewrite invoke_eq.
  - injection Hex as <-. exact HH.
  - destruct (process w); try discriminate. injection Hex as <-.
    now apply (proj2 (proj2 (handled_attach w))).
Qed.

Lemma exec_hooks fuel l w w' :
  Inv w ->
  length (hooks w) <= (if discard (outer w) then 1 else 0) ->
  exec iterate body fuel l w = Some w' ->
  length (hooks w') <= (if discard (outer w') then 1 else 0).
Proof.
  intros HI Hb Hex. destruct l; simpl in Hex.
  - destruct (mailbox w) as [|f rest] eqn:Hm; [discriminate|].
    destruct (alive (process w)); [|discriminate].
    destruct (handled_execute_Pid fuel f rest w w' HI Hm Hex) as (H1 & H2 & _).
    rewrite H1, H2. change (outer (set_mailbox rest w)) with (outer w).
    unfold hooks in *. rewrite Hm in Hb. simpl in *.
    destruct (discard (outer w)); destruct (negb (is_wake f)); simpl in Hb; lia.
  - destruct (Inv_executor w HI) as [He|He]; rewrite He in Hex; [discriminate|].
    simpl in Hex. injection Hex as <-. unfold hooks. simpl.
    destruct (discard _); lia.
  - destruct i as [|i]; [discriminate|].
    destruct (futures w !! S i) as [d|] eqn:Hi; [|discriminate].
    destruct (isPending d) eqn:Hp; [|discriminate].
    destruct (terminal s) eqn:Ht; [|discriminate].
    simpl in Hex. injection Hex as <-.
    apply isPending_true in Hp.
    destruct (pending_future_current w (S i) d (inv_store _ HI) Hi) as [Ei ->];
      [lia|assumption|].
    rewrite settle_pending by assumption. cbn [fst snd].
    rewrite hooks_invoke by now apply Inv_future_cbs.
    rewrite invoke_eq. exact Hb.
  - destruct i as [|i]; [discriminate|].
    destruct (conditions w !! S i) as [d|] eqn:Hi; [|discriminate].
    destruct (isPending d) eqn:Hp; [|discriminate].
    destruct (terminal s) eqn:Ht; [|discriminate].
    simpl in Hex. injection Hex as <-.
    apply isPending_true in Hp.
    destruct (pending_condition_current w (S i) d (inv_store _ HI) Hi) as [Ei ->];
      [lia|assumption|].
    rewrite settle_pending by assumption. cbn [fst snd].
    rewrite hooks_invoke by now apply Inv_condition_cbs.
    rewrite invoke_eq. exact Hb.
  - injection Hex as <-. change (promise (loop_state w)) with (outer w).
    destruct (discard_outer_cases w (inv_hooks _ HI)) as [(Hd & Hs & E)|(_ & E)];
      rewrite E; [|exact Hb].
    rewrite Hd in Hb. unfold hooks in *. simpl.
    rewrite List.filter_app, length_app. simpl. lia.
  - injection Hex as <-. exact Hb.
  - destruct (process w); try discriminate. injection Hex as <-.
    destruct (handled_attach w) as (H1 & H2 & _). now rewrite H1, H2.
Qed.

Lemma loop_state_root_discard w : loop_state (root_discard w) = loop_state w.
Proof.
  unfold root_discard, condition_discard, future_discard, update_condition,
    update_future. now rewrite !invoke_eq.
Qed.

(** After the hook, what is left pending in the slots carries the request. *)
Lemma root_discard_flags w :
  Inv w ->
  (state (the_future (root_discard w)) = PENDING ->
   discard (the_future (root_discard w)) = true) /\
  (state (the_condition (root_discard w)) = PENDING ->
   discard (the_condition (root_discard w)) = true).
Proof.
  intros HI. pose proof (Inv_future_discard w HI) as H1.
  unfold root_discard. split.
  - assert (Ef : the_future (condition_discard (future_discard w)) =
                 the_future (future_discard w)).
    { apply the_future_frame;
        unfold condition_discard, update_condition; now rewrite invoke_eq. }
    rewrite Ef, (the_future_discarded w (inv_store _ HI)).
    apply request_discard_flagged.
  - rewrite (the_condition_discarded _ (inv_store _ H1)).
    apply request_discard_flagged.
Qed.

Lemma exec_delivered fuel l w w' :
  Inv w -> process w = Supplied -> Honest w ->
  (hasDiscard (outer w) = true -> ~ In RootDiscard (mailbox w) -> requested w) ->
  exec iterate body fuel l w = Some w' ->
  hasDiscard (outer w') = true -> ~ In RootDiscard (mailbox w') -> requested w'.
Proof.
  intros HI Hp HH IH Hex Hd' Hn'.
  pose proof (exec_Inv fuel l w w' HI Hex) as HI'.
  pose proof (exec_Honest fuel l w w' HI HH Hex) as HH'.
  destruct l; simpl in Hex.
  - destruct (mailbox w) as [|f rest] eqn:Hm; [discriminate|].
    destruct (alive (process w)); [|discriminate].
    destruct (handled_execute_Pid fuel f rest w w' HI Hm Hex) as (_ & H2 & _).
    change (outer (set_mailbox rest w)) with (outer w) in H2.
    assert (Hd : hasDiscard (outer w) = true)
      by (unfold hasDiscard in *; congruence).
    destruct (is_wake f) eqn:Hf.
    + pose proof (kept_execute Pid fuel f _ w' Hex) as (Hkf & Hkc & _).
      pose proof (guarded_execute Pid fuel f (set_mailbox rest w) w' Hd Hex)
        as [Hg1 Hg2].
      assert (Hw : wakes w <> [])
        by (unfold wakes; rewrite Hm; simpl; rewrite Hf; discriminate).
      split.
      * intros i d H1 Hi Hs.
        destruct (decide (length (futures w) <= i)) as [Hle|Hgt];
          [exact (Hg1 i d Hle Hi Hs)|].
        exfalso. destruct (lookup_lt_is_Some_2 (futures w) i) as [d0 Hd0]; [lia|].
        destruct (Hkf i d0 Hd0) as (d1 & Hd1 & Hev).
        assert (d1 = d) by congruence. subst d1.
        pose proof (evolves_pending _ _ Hev Hs) as Hs0.
        destruct (pending_future_current w i d0 (inv_store _ HI) Hd0 H1 Hs0)
          as [-> ->].
        destruct (pending_future_awaited w HI Hs0 H1) as (_ & _ & _ & Hw0).
        contradiction.
      * intros i d H1 Hi Hs.
        destruct (decide (length (conditions w) <= i)) as [Hle|Hgt];
          [exact (Hg2 i d Hle Hi Hs)|].
        exfalso.
        destruct (lookup_lt_is_Some_2 (conditions w) i) as [d0 Hd0]; [lia|].
        destruct (Hkc i d0 Hd0) as (d1 & Hd1 & Hev).
        assert (d1 = d) by congruence. subst d1.
        pose proof (evolves_pending _ _ Hev Hs) as Hs0.
        destruct (pending_condition_current w i d0 (inv_store _ HI) Hd0 H1 Hs0)
          as [-> ->].
        destruct (pending_condition_awaited w HI Hs0 H1) as (_ & _ & _ & Hw0).
        contradiction.
    + destruct f; try discriminate. simpl in Hex. injection Hex as <-.
      pose proof (Inv_dequeue_hook w rest HI Hm) as HI0.
      destruct (root_discard_flags _ HI0) as [F1 F2].
      split.
      * intros i d H1 Hi Hs.
        destruct (pending_future_current _ i d (inv_store _ HI') Hi H1 Hs)
          as [-> ->].
        split; [now apply F1|].
        apply (honest_the_future _ HH'); auto.
      * intros i d H1 Hi Hs.
        destruct (pending_condition_current _ i d (inv_store _ HI') Hi H1 Hs)
          as [-> ->].
        split; [now apply F2|].
        apply (honest_the_condition _ HH'); auto.
  - pose proof (hk_helper _ (inv_hooks _ HI)) as Hh. rewrite Hp in Hh.
    destruct Hh as [_ Hh]. rewrite Hh in Hex. discriminate.
  - destruct i as [|i]; [discriminate|].
    destruct (futures w !! S i) as [d|] eqn:Hi; [|discriminate].
    destruct (isPending d) eqn:Hpd; [|discriminate].
    destruct (terminal s) eqn:Ht; [|discriminate].
    simpl in Hex. injection Hex as <-.
    apply isPending_true in Hpd. apply terminal_not_pending in Ht.
    rewrite settle_pending in * by assumption. cbn [fst snd] in *.
    rewrite invoke_eq in Hd', Hn' |- *. cbn [mailbox] in Hn'.
    destruct IH as [R1 R2]; [exact Hd'| |].
    { intros Hin. apply Hn', in_or_app. now left. }
    split; [|exact R2].
    intros j d' H1 Hj Hs. cbn [futures] in Hj.
    apply list_lookup_insert_Some in Hj as [(<- & <- & _)|(Hne & Hj)].
    * simpl in Hs. contradiction.
    * eauto.
  - destruct i as [|i]; [discriminate|].
    destruct (conditions w !! S i) as [d|] eqn:Hi; [|discriminate].
    destruct (isPending d) eqn:Hpd; [|discriminate].
    destruct (terminal s) eqn:Ht; [|discriminate].
    simpl in Hex. injection Hex as <-.
    apply isPending_true in Hpd. apply terminal_not_pending in Ht.
    rewrite settle_pending in * by assumption. cbn [fst snd] in *.
    rewrite invoke_eq in Hd', Hn' |- *. cbn [mailbox] in Hn'.
    destruct IH as [R1 R2]; [exact Hd'| |].
    { intros Hin. apply Hn', in_or_app. now left. }
    split; [exact R1|].
    intros j d' H1 Hj Hs. cbn [conditions] in Hj.
    apply list_lookup_insert_Some in Hj as [(<- & <- & _)|(Hne & Hj)].
    * simpl in Hs. contradiction.
    * eauto.
  - injection Hex as <-. change (promise (loop_state w)) with (outer w) in *.
    destruct (discard_outer_cases w (inv_hooks _ HI)) as [(Hd & Hs & E)|(_ & E)];
      rewrite E in *.
    + exfalso. apply Hn'. simpl. apply in_or_app. right. now left.
    + auto.
  - injection Hex as <-. apply IH; assumption.
  - rewrite Hp in Hex. discriminate.
Qed.

Lemma loop_discards (u : U) w :
  reachable iterate body (loop u) w ->
  Honest w /\
  length (hooks w) <= (if discard (outer w) then 1 else 0) /\
  (hasDiscard (outer w) = true -> ~ In RootDiscard (mailbox w) -> requested w).
Proof.
  intros Hr. induction Hr as [|fuel l w w' Hr IH Hex].
  - split; [|split].
    + split; repeat constructor; intros H; discriminate.
    + simpl. lia.
    + intros H. discriminate.
  - destruct (loop_reachable u w Hr) as [HI Hp].
    destruct IH as (H1 & H2 & H3).
    split; [|split].
    + exact (exec_Honest fuel l w w' HI H1 Hex).
    + exact (exec_hooks fuel l w w' HI H2 Hex).
    + exact (exec_delivered fuel l w w' HI Hp H1 H3 Hex).
Qed.

(** X8.  A discard request is not lost.  Once the caller has asked for a
    discard and the hook is no longer waiting in the inbox of [pid], every
    future from [iterate] or [body] that is still pending has been asked
    to discard, and its producer ignores such requests: whether the hook
    found it in its slot, or it was handed out later and the driver
    discarded it where it was assigned. *)
Theorem discard_reaches_in_flight (u0 : U) w :
  reachable iterate body (loop u0) w ->
  hasDiscard (outer w) = true -> ~ In RootDiscard (mailbox w) ->
  (forall i d, 1 <= i -> futures w !! i = Some d -> state d = PENDING ->
     hasDiscard d = true /\ reaction d = PENDING) /\
  (forall i d, 1 <= i -> conditions w !! i = Some d -> state d = PENDING ->
     hasDiscard d = true /\ reaction d = PENDING).
Proof.
  intros Hr Hd Hn. destruct (loop_discards u0 w Hr) as (_ & _ & H).
  exact (H Hd Hn).
Qed.

(** X10.  The loop does not flood the inbox of [pid]: at any time at most
    one closure of the driver and at most one discard hook wait there, and
    a hook waits only after the caller has asked for a discard. *)
Theorem inbox_bounded (u0 : U) w :
  reachable iterate body (loop u0) w ->
  length (wakes w) <= 1 /\
  length (hooks w) <= 1 /\
  (hasDiscard (outer w) = false -> hooks w = []) /\
  length (mailbox w) <= 2.
Proof.
  intros Hr. destruct (loop_reachable u0 w Hr) as [HI _].
  destruct (loop_discards u0 w Hr) as (_ & Hb & _).
  pose proof (Phase_wakes w (inv_phase _ HI)) as Hw.
  rewrite mailbox_split. unfold hasDiscard.
  destruct (discard (outer w)); repeat split; try lia; try discriminate.
  intros _. destruct (hooks w); [reflexivity|simpl in Hb; lia].
Qed.

Lemma request_discard_reacts {A} (d : Data A) s :
  state d = PENDING -> discard d = false -> reaction d = s -> s <> PENDING ->
  state (fst (request_discard d)) = s.
Proof.
  intros Hs Hd Hr Hne. unfold request_discard, isPending, settle.
  rewrite Hs, Hd, Hr. simpl. destruct s; simpl; congruence.
Qed.

Lemma deliveries_reachable n fuel : forall w w',
  deliveries iterate body n fuel w = Some w' -> reachable iterate body w w'.
Proof.
  induction n as [|n IH]; intros w w' H; cbn [deliveries] in H.
  - injection H as <-. constructor.
  - destruct (exec iterate body fuel Deliver w) as [w1|] eqn:E; [|discriminate].
    eapply reachable_trans; [|eapply IH; eauto].
    econstructor; [constructor|exact E].
Qed.

(** X9.  Discard propagates through a producer that honours it.  When the
    caller discards the returned future while the loop waits on a pending
    future whose producer honours discard requests, the hook and the
    continuation it wakes are the next two closures on [pid]; after them
    the returned future is discarded, and neither [iterate] nor [body] has
    been called again. *)
Theorem discard_propagation (u0 : U) w :
  reachable iterate body (loop u0) w ->
  hasDiscard (outer w) = false ->
  (exists i d, 1 <= i /\ futures w !! i = Some d /\
               state d = PENDING /\ reaction d = DISCARDED) \/
  (exists i d, 1 <= i /\ conditions w !! i = Some d /\
               state d = PENDING /\ reaction d = DISCARDED) ->
  exists w1 w3,
    exec iterate body 0 DiscardOuter w = Some w1 /\
    deliveries iterate body 2 0 w1 = Some w3 /\
    state (outer w3) = DISCARDED /\
    iterations (history w3) = iterations (history w) /\
    length (bodies (history w3)) = length (bodies (history w)).
Proof.
  intros Hr Hnd Hcell.
  destruct (loop_reachable u0 w Hr) as [HI Hp].
  destruct (loop_discards u0 w Hr) as (HH & Hb & _).
  unfold hasDiscard in Hnd. rewrite Hnd in Hb.
  assert (Hwo : wakes w = [] /\ state (outer w) = PENDING).
  { destruct Hcell as [(i & d & H1 & Hi & Hs & _)|(i & d & H1 & Hi & Hs & _)].
    - destruct (pending_future_current w i d (inv_store _ HI) Hi H1 Hs) as [-> ->].
      destruct (pending_future_awaited w HI Hs H1) as (_ & Ho & _ & Hw). auto.
    - destruct (pending_condition_current w i d (inv_store _ HI) Hi H1 Hs)
        as [-> ->].
      destruct (pending_condition_awaited w HI Hs H1) as (_ & Ho & _ & Hw). auto. }
  destruct Hwo as [Hw Ho].
  assert (Hm : mailbox w = []).
  { pose proof (mailbox_split w) as E. rewrite Hw in E. simpl in E.
    destruct (mailbox w); [reflexivity|simpl in E; lia]. }
  destruct (discard_outer_cases w (inv_hooks _ HI))
    as [(_ & _ & E1)|([Hd|Hd] & _)]; [|congruence|congruence].
  rewrite Hm in E1. simpl in E1.
  remember (update_promise (request_discard (outer w)) w) as w1 eqn:Ew1.
  assert (Hex1 : exec iterate body 0 DiscardOuter w = Some w1)
    by (rewrite Ew1; reflexivity).
  pose proof (exec_Inv 0 DiscardOuter w w1 HI Hex1) as HI1.
  assert (Hm1 : mailbox w1 = [RootDiscard]) by (rewrite E1; reflexivity).
  assert (Hp1 : process w1 = Supplied) by (rewrite E1; exact Hp).
  pose proof (Inv_dequeue_hook w1 [] HI1 Hm1) as HI0.
  remember (set_mailbox [] w1) as w0 eqn:Ew0.
  assert (Hex2 : exec iterate body 0 Deliver w1 = Some (root_discard w0)).
  { cbn [exec]. rewrite Hm1, Hp1, Ew0. reflexivity. }
  pose proof (exec_Inv 0 Deliver w1 _ HI1 Hex2) as HI2.
  remember (root_discard w0) as w2 eqn:Ew2.
  assert (Hfs : futures w0 = futures w /\ conditions w0 = conditions w /\
                cur_future w0 = cur_future w /\ cur_condition w0 = cur_condition w)
    by (rewrite Ew0, E1; auto).
  destruct Hfs as (Hf0 & Hc0 & Hcf0 & Hcc0).
  assert (Hls : loop_state w2 = loop_state w0)
    by (rewrite Ew2; apply loop_state_root_discard).
  assert (Hdoom : doomed DISCARDED w2).
  { destruct Hcell as [(i & d & H1 & Hi & Hs & Hre)|(i & d & H1 & Hi & Hs & Hre)].
    - destruct (pending_future_current w i d (inv_store _ HI) Hi H1 Hs) as [-> ->].
      assert (Hfd : discard (the_future w) = false).
      { destruct (discard (the_future w)) eqn:Ed; [|reflexivity].
        pose proof (honest_the_future w HH Ed Hs). congruence. }
      pose proof (Inv_future_discard w0 HI0) as HIa.
      pose proof (Store_lookup_future _ (inv_store _ HIa)) as Hl.
      rewrite (the_future_discarded w0 (inv_store _ HI0)) in Hl.
      assert (Et : the_future w0 = the_future w)
        by (apply the_future_frame; assumption).
      rewrite Et in Hl.
      destruct (kept_condition_discard (future_discard w0)) as (Hk & _ & _).
      destruct (Hk _ _ Hl) as (d' & Hd' & Hev & _).
      assert (Hx : state (fst (request_discard (the_future w))) = DISCARDED)
        by (apply request_discard_reacts; auto; discriminate).
      assert (Hsd : state d' = DISCARDED)
        by (rewrite Hev; [exact Hx|rewrite Hx; discriminate]).
      left. exists (cur_future (future_discard w0)), d'.
      rewrite Ew2, Hsd. unfold root_discard. auto.
    - destruct (pending_condition_current w i d (inv_store _ HI) Hi H1 Hs)
        as [-> ->].
      assert (Hfd : discard (the_condition w) = false).
      { destruct (discard (the_condition w)) eqn:Ed; [|reflexivity].
        pose proof (honest_the_condition w HH Ed Hs). congruence. }
      pose proof (Inv_future_discard w0 HI0) as HIa.
      pose proof (Store_lookup_condition _ (inv_store _ HI2)) as Hl.
      rewrite Ew2 in Hl. unfold root_discard in Hl.
      rewrite (the_condition_discarded _ (inv_store _ HIa)) in Hl.
      assert (Et : the_condition (future_discard w0) = the_condition w).
      { unfold the_condition, future_discard, update_future.
        rewrite invoke_eq. simpl. unfold cur_condition in Hcc0.
        now rewrite Hc0, Hcc0. }
      rewrite Et in Hl.
      assert (Hx : state (fst (request_discard (the_condition w))) = DISCARDED)
        by (apply request_discard_reacts; auto; discriminate).
      right. eexists _, _. rewrite Ew2. unfold root_discard.
      split; [exact Hl|]. rewrite Hx. auto. }
  assert (Hp2 : process w2 = Supplied)
    by exact (exec_supplied 0 Deliver w1 w2 HI1 Hp1 Hex2).
  assert (Ho2 : state (outer w2) = PENDING).
  { unfold outer. rewrite Hls, Ew0, E1. reflexivity. }
  assert (Hm2 : length (mailbox w2) = 1).
  { rewrite mailbox_split.
    destruct (handled_root_discard w0 HI0) as (Hh & _). rewrite <- Ew2 in Hh.
    rewrite Hh. unfold hooks at 1. rewrite Ew0. simpl.
    destruct (doomed_phase _ w2 HI2 Hdoom)
      as [(_ & [(Hw2 & _)|(Hw2 & _)])|(Ho2' & _)];
      try (rewrite Hw2; reflexivity). congruence. }
  destruct (doomed_drains DISCARDED 1 w2 HI2 Hdoom) as (w3 & Hdel & Ho3);
    [now rewrite Hp2|exact Hm2|].
  exists w1, w3. split; [exact Hex1|]. split.
  { cbn [deliveries]. rewrite Hex2. exact Hdel. }
  split; [exact Ho3|].
  pose proof (deliveries_reachable 1 0 w2 w3 Hdel) as Hr3.
  pose proof (reachable_Inv w2 w3 HI2 Hr3) as HI3.
  destruct (doomed_slots _ w2 w3 HI2 HI3 (kept_reachable _ _ Hr3) Hdoom)
    as [Ef Ec].
  rewrite (ch_iterations _ (inv_chronicle _ HI3)),
    (ch_iterations _ (inv_chronicle _ HI)),
    (ch_bodies _ (inv_chronicle _ HI3)), (ch_bodies _ (inv_chronicle _ HI)).
  rewrite Ef, Ec. unfold cur_future, cur_condition in *. rewrite Hls.
  split; assumption.
Qed.

(** ** The hook forwards the request *)

Lemma request_discard_state {A} (d : Data A) :
  state d = PENDING -> discard d = false ->
  state (fst (request_discard d)) = reaction d.
Proof.
  intros Hs Hd. unfold request_discard, isPending, settle.
  rewrite Hs, Hd. simpl. destruct (reaction d); reflexivity.
Qed.

Lemma root_discard_slots w :
  Inv w ->
  the_future (root_discard w) = fst (request_discard (the_future w)) /\
  the_condition (root_discard w) = fst (request_discard (the_condition w)).
Proof.
  intros HI. pose proof (Inv_future_discard w HI) as H1.
  unfold root_discard. split.
  - assert (Ef : the_future (condition_discard (future_discard w)) =
                 the_future (future_discard w)).
    { apply the_future_frame;
        unfold condition_discard, update_condition; now rewrite invoke_eq. }
    rewrite Ef. apply (the_future_discarded w (inv_store _ HI)).
  - rewrite (the_condition_discarded _ (inv_store _ H1)).
    assert (Ec : the_condition (future_discard w) = the_condition w).
    { unfold the_condition, future_discard, update_future.
      now rewrite invoke_eq. }
    now rewrite Ec.
Qed.

(** C3 (discard).  The returned future is discarded only if the future in
    one of the two slots is; once a future handed out by [iterate] or by
    [body] is discarded, the closures already in the inbox of [pid]
    suffice to discard the returned future; and a discard requested on the
    returned future leaves its state as it was, both when the request is
    recorded and when the hook it triggers runs on [pid].  What the hook
    does is forward the request: it leaves the slots where they are and
    calls [discard()] on the future in each of them, so that a slot future
    still pending afterwards carries the request, and one that was pending
    and not yet asked is afterwards in the state its producer reacts with,
    discarded when the producer honours the request, pending when it
    ignores it. *)
Theorem discard_settlement (u0 : U) w :
  reachable iterate body (loop u0) w ->
  (state (outer w) = DISCARDED ->
   state (the_future w) = DISCARDED \/ state (the_condition w) = DISCARDED) /\
  ((exists k d, futures w !! k = Some d /\ state d = DISCARDED) \/
   (exists k d, conditions w !! k = Some d /\ state d = DISCARDED) ->
   exists w', deliveries iterate body (length (mailbox w)) 0 w = Some w' /\
              state (outer w') = DISCARDED) /\
  (forall fuel w', exec iterate body fuel DiscardOuter w = Some w' ->
     state (outer w') = state (outer w)) /\
  (forall fuel rest w', mailbox w = RootDiscard :: rest ->
     exec iterate body fuel Deliver w = Some w' ->
     w' = root_discard (set_mailbox rest w) /\
     state (outer w') = state (outer w)) /\
  (forall fuel rest w', mailbox w = RootDiscard :: rest ->
     exec iterate body fuel Deliver w = Some w' ->
     cur_future w' = cur_future w /\ cur_condition w' = cur_condition w /\
     the_future w' = fst (request_discard (the_future w)) /\
     the_condition w' = fst (request_discard (the_condition w)) /\
     (state (the_future w') = PENDING -> hasDiscard (the_future w') = true) /\
     (state (the_condition w') = PENDING ->
      hasDiscard (the_condition w') = true) /\
     (state (the_future w) = PENDING -> hasDiscard (the_future w) = false ->
      state (the_future w') = reaction (the_future w)) /\
     (state (the_condition w) = PENDING ->
      hasDiscard (the_condition w) = false ->
      state (the_condition w') = reaction (the_condition w)) /\
     (state (the_future w) <> PENDING -> the_future w' = the_future w) /\
     (state (the_condition w) <> PENDING ->
      the_condition w' = the_condition w)).
Proof.
  intros Hr.
  destruct (loop_reachable u0 w Hr) as [H Hp].
  split; [|split; [|split; [|split]]].
  - intros Ho. destruct (settled_phase w (inv_phase _ H)) as [Hout _];
      [congruence|].
    unfold outcome in Hout. rewrite Ho in Hout. simpl in Hout. tauto.
  - intros Hdis. apply doomed_drains; auto; [|now rewrite Hp].
    destruct Hdis as [(k & d & Hk & Hs)|(k & d & Hk & Hs)]; [left|right];
      exists k, d; rewrite Hs; auto.
  - intros fuel w' Hex. simpl in Hex. injection Hex as <-.
    unfold update_promise. rewrite invoke_eq. unfold outer. simpl.
    pose proof (hk_reaction _ (inv_hooks _ H)) as Hre. unfold outer in Hre.
    unfold request_discard, isPending, settle.
    destruct (discard (promise (loop_state w))); simpl; [reflexivity|].
    destruct (state (promise (loop_state w))) eqn:E; simpl; rewrite ?E; auto.
    rewrite Hre. simpl. auto.
  - intros fuel rest w' Hm Hex. simpl in Hex. rewrite Hm, Hp in Hex.
    simpl in Hex. injection Hex as <-. split; [reflexivity|].
    unfold root_discard, condition_discard, future_discard, update_condition,
      update_future, outer.
    now rewrite !invoke_eq.
  - intros fuel rest w' Hm Hex. simpl in Hex. rewrite Hm, Hp in Hex.
    simpl in Hex. injection Hex as <-.
    pose proof (Inv_dequeue_hook w rest H Hm) as H0.
    destruct (root_discard_slots _ H0) as [Ef Ec].
    change (the_future (set_mailbox rest w)) with (the_future w) in Ef.
    change (the_condition (set_mailbox rest w)) with (the_condition w) in Ec.
    unfold cur_future, cur_condition. rewrite loop_state_root_discard.
    split; [reflexivity|]. split; [reflexivity|].
    split; [exact Ef|]. split; [exact Ec|]. rewrite Ef, Ec.
    unfold hasDiscard.
    split; [apply request_discard_flagged|].
    split; [apply request_discard_flagged|].
    split; [apply request_discard_state|].
    split; [apply request_discard_state|].
    split.
    + intros Hs. unfold request_discard, isPending.
      destruct (state (the_future w)); [congruence| | |];
        now rewrite andb_false_r.
    + intros Hs. unfold request_discard, isPending.
      destruct (state (the_condition w)); [congruence| | |];
        now rewrite andb_false_r.
Qed.

End LoopFacts.

(** * The CVMFS store *)

Section StoreFacts.

Import cvmfs.

Context {Image_Type : Type} `{EqDecision Image_Type}.
Variable CVMFS : Image_Type.
Context {Manifest : Type}.
Variable os_exists : String.string -> bool.
Variable path_join : String.string -> String.string -> String.string -> String.string.

Local Open Scope string_scope.

(** X11.  What a store that [Store::create] has made answers to [get].
    The root existed when it was made.  The answer is never pending nor
    discarded.  It is ready exactly for a CVMFS image whose root file
    system, the path joined from the store's root, the repository and the
    path of the image, exists; the image info then has that path as its
    only layer and no manifest.  An image of another type fails with the
    message about the type, whether or not the path exists; a CVMFS image
    whose path is missing fails with the message that names the path. *)
Theorem created_store_get (flags : Flags) (self : StoreProcess)
    (image : Image Image_Type) :
  Store_create os_exists flags = inr self ->
  let rootfs :=
    path_join (cvmfs_root flags) (repository (cvmfs image)) (path (cvmfs image)) in
  let answer : State (ImageInfo Manifest) :=
    StoreProcess_get CVMFS os_exists path_join self image in
  os_exists (cvmfs_root flags) = true /\
  answer <> PENDING /\ answer <> DISCARDED /\
  (forall info,
     answer = READY info <->
     type image = CVMFS /\ os_exists rootfs = true /\
     info = mkImageInfo [rootfs] None) /\
  (type image <> CVMFS ->
   answer = FAILED "CVMFS privisioner store only supports CVMFS images") /\
  (type image = CVMFS -> os_exists rootfs = false ->
   answer = FAILED (String.append "Rootfs cannot be found at '"
                      (String.append rootfs "'"))).
Proof.
  intros Hc. unfold Store_create in Hc.
  destruct (os_exists (cvmfs_root flags)) eqn:Er; simpl in Hc; [|discriminate].
  injection Hc as <-. cbv zeta. unfold StoreProcess_get. cbn [root].
  split; [reflexivity|].
  case_bool_decide as Ht; cbn [negb].
  - destruct (os_exists (path_join _ _ _)) eqn:Ee; cbn [negb];
      (split; [discriminate|]); (split; [discriminate|]); (split; [|split]).
    + intros info. split.
      * intros E. injection E as <-. auto.
      * intros (_ & _ & ->). reflexivity.
    + intros Hn. contradiction.
    + intros _ Hf. discriminate.
    + intros info. split; [discriminate|]. intros (_ & E & _). discriminate.
    + intros Hn. contradiction.
    + intros _ _. reflexivity.
  - (split; [discriminate|]); (split; [discriminate|]); (split; [|split]).
    + intros info. split; [discriminate|]. intros (E & _). contradiction.
    + intros _. reflexivity.
    + intros E. contradiction.
Qed.

Local Close Scope string_scope.

End StoreFacts.

(** * The scenarios, run *)

(** The counting loop: five rounds in one closure. *)
Example counting_loop_runs :
  outline (steps counting_iterate counting_body [(5, Deliver)] fresh)
  = Some (READY tt, 5, 5).
Proof. vm_compute. reflexivity. Qed.

(** When [body] tests the value instead, the sixth value is the first
    that is not below 5. *)
Example testing_loop_runs :
  outline (steps counting_iterate testing_body [(6, Deliver)] fresh)
  = Some (READY tt, 6, 6).
Proof. vm_compute. reflexivity. Qed.

(** Fewer turns of the [while] than rounds do not suffice. *)
Example counting_loop_needs_fuel :
  steps counting_iterate counting_body [(4, Deliver)] fresh = None.
Proof. vm_compute. reflexivity. Qed.

(** The slow callables: the same outcome, with a suspension on every
    future. *)
Example slow_loop_runs :
  outline (steps slow_iterate slow_body three_slow_rounds fresh)
  = Some (READY tt, 3, 3) /\
  (subscriptions <$> (history <$> steps slow_iterate slow_body three_slow_rounds fresh))
  = Some 6.
Proof. split; vm_compute; reflexivity. Qed.

(** [body] fails on its third call. *)
Example failing_body_runs :
  outline (steps counting_iterate failing_body [(5, Deliver); (0, Deliver)] fresh)
  = Some (FAILED boom, 3, 3).
Proof. vm_compute. reflexivity. Qed.

(** [iterate] fails on its second call. *)
Example failing_iterate_runs :
  outline (steps flaky_iterate eager_body [(5, Deliver); (0, Deliver)] fresh)
  = Some (FAILED gone, 2, 1).
Proof. vm_compute. reflexivity. Qed.

(** The caller discards while the second [body] is pending, and [body]
    honors the request. *)
Example discard_during_body_runs :
  outline (steps counting_iterate patient_body
                 [(5, Deliver); (0, DiscardOuter); (0, Deliver); (0, Deliver)]
                 fresh)
  = Some (DISCARDED, 2, 2).
Proof. vm_compute. reflexivity. Qed.

(** The caller discards before the bootstrap runs, and [iterate] honors
    the request: [body] never runs. *)
Example discard_before_bootstrap_runs :
  outline (steps yielding_iterate eager_body
                 [(0, DiscardOuter); (5, Deliver); (0, Deliver); (0, Deliver)]
                 fresh)
  = Some (DISCARDED, 1, 0).
Proof. vm_compute. reflexivity. Qed.

(** A discard that nobody honors: the loop runs to its end. *)
Example discard_ignored_runs :
  outline (steps counting_iterate counting_body
                 [(0, DiscardOuter); (5, Deliver); (0, Deliver)] fresh)
  = Some (READY tt, 5, 5).
Proof. vm_compute. reflexivity. Qed.

(** * The properties on the scenarios *)

Lemma termination_law_witness :
  stops_after counting_iterate counting_body 5 (user fresh) = true /\
  exists w',
    exec counting_iterate counting_body 5 Deliver fresh = Some w' /\
    state (outer w') = READY tt /\
    iterations (history w') = 5 /\
    length (bodies (history w')) = 5.
Proof.
  split; [reflexivity|].
  apply (termination_law counting_iterate counting_body 0 fresh [] 5 5).
  - apply reachable_start.
  - reflexivity.
  - reflexivity.
  - apply le_n.
Defined.


Lemma discard_settlement_witness :
  (exists k d, conditions hooked !! k = Some d /\ state d = DISCARDED) /\
  (exists w', deliveries counting_iterate patient_body
                         (length (mailbox hooked)) 0 hooked = Some w' /\
              state (outer w') = DISCARDED) /\
  mailbox asked = [RootDiscard] /\
  state (the_future asked) = PENDING /\
  hasDiscard (the_future asked) = false /\
  exists w', exec yielding_iterate eager_body 0 Deliver asked = Some w' /\
             state (the_future w') = DISCARDED /\
             state (outer w') = state (outer asked).
Proof.
  assert (H : exists k d, conditions hooked !! k = Some d /\ state d = DISCARDED)
    by (exists 2; eexists; split; vm_compute; reflexivity).
  split; [exact H|]. split.
  - apply (discard_settlement counting_iterate patient_body 0 hooked).
    + apply steps_reachable
        with (ls := [(5, Deliver); (0, DiscardOuter); (0, Deliver)]).
      vm_compute. reflexivity.
    + right. exact H.
  - split; [reflexivity|]. split; [reflexivity|]. split; [reflexivity|].
    assert (Hr : reachable yielding_iterate eager_body (loop 0) asked)
      by (apply steps_reachable with (ls := [(5, Deliver); (0, DiscardOuter)]);
          vm_compute; reflexivity).
    assert (Hex : exec yielding_iterate eager_body 0 Deliver asked
                  = Some (root_discard (set_mailbox [] asked)))
      by (vm_compute; reflexivity).
    destruct (discard_settlement yielding_iterate eager_body 0 asked Hr)
      as (_ & _ & _ & H4 & H5).
    exists (root_discard (set_mailbox [] asked)). split; [exact Hex|].
    destruct (H4 0 [] _ eq_refl Hex) as [_ Ho].
    destruct (H5 0 [] _ eq_refl Hex) as (_ & _ & _ & _ & _ & _ & Hf & _).
    split; [|exact Ho].
    rewrite Hf; reflexivity.
Defined.


Lemma strict_alternation_witness :
  alternates true (history counted) = true /\
  length (bodies (history counted)) <= iterations (history counted) /\
  iterations (history counted) <= S (length (bodies (history counted))) /\
  S (iterations (history counted)) = length (futures counted) /\
  S (length (bodies (history counted))) = length (conditions counted) /\
  (forall n v, bodies (history counted) !! n = Some v ->
     exists d, futures counted !! S n = Some d /\ state d = READY v) /\
  (forall n d, 1 <= n -> n < iterations (history counted) ->
     conditions counted !! n = Some d -> state d = READY true).
Proof.
  apply (strict_alternation counting_iterate counting_body 0 counted).
  apply steps_reachable with (ls := [(5, Deliver)]). vm_compute. reflexivity.
Defined.

Lemma synchronous_drain_witness :
  exists w',
    run counting_iterate counting_body 5 seeded = Some w' /\
    state (outer w') = READY tt /\
    runs (history w') = S (runs (history seeded)) /\
    subscriptions (history w') = subscriptions (history seeded) /\
    length (bodies (history w')) = length (bodies (history seeded)) + 5 /\
    iterations (history w') = iterations (history seeded) + 4.
Proof.
  apply (synchronous_drain counting_iterate counting_body 4 seeded 0 5).
  - reflexivity.
  - reflexivity.
  - reflexivity.
  - apply le_n.
Defined.

Lemma discard_checked_at_construction_witness :
  hasDiscard (outer discarded_early) = true /\
  guarded discarded_early after_bootstrap_deaf.
Proof.
  split; [reflexivity|].
  apply (discard_checked_at_construction counting_iterate deaf_body
           5 Deliver discarded_early after_bootstrap_deaf).
  - vm_compute. reflexivity.
  - reflexivity.
Defined.

Lemma single_discard_hook_witness :
  length (onDiscardCallbacks (outer counted)) <= 1 /\
  onAnyCallbacks (outer counted) = [].
Proof.
  assert (Hr : reachable counting_iterate counting_body (loop 0) counted)
    by (apply steps_reachable with (ls := [(5, Deliver)]);
        vm_compute; reflexivity).
  destruct (single_discard_hook counting_iterate counting_body 0 counted Hr)
    as (_ & H1 & H2 & _).
  split; assumption.
Defined.

Lemma helper_cleanup_witness :
  state (outer helped) <> PENDING /\
  exists w', exec counting_iterate counting_body 0 Attach helped = Some w' /\
             process w' = Attached /\ executor w' = [Cleanup].
Proof.
  assert (Hs : state (outer helped) <> PENDING) by (vm_compute; discriminate).
  split; [exact Hs|].
  assert (Hr : reachable counting_iterate counting_body (loop_helper 0) helped)
    by (apply steps_reachable with (ls := [(5, Deliver)]);
        vm_compute; reflexivity).
  destruct (helper_cleanup counting_iterate counting_body 0 helped Hr)
    as (_ & H & _).
  destruct (H Hs) as [[_ Hw]|[[Hp _]|Hp]].
  - exact Hw.
  - vm_compute in Hp. discriminate.
  - vm_compute in Hp. discriminate.
Defined.

Lemma ready_false_beats_discard_witness :
  hasDiscard (outer seeded_discarded) = true /\
  exists w', run counting_iterate stopping_body 1 seeded_discarded = Some w' /\
             state (outer w') = READY tt /\
             forall w2, reachable counting_iterate stopping_body w' w2 ->
                        state (outer w2) = READY tt.
Proof.
  split; [reflexivity|].
  destruct (ready_false_beats_discard counting_iterate stopping_body
              seeded_discarded 0) as [H _].
  - reflexivity.
  - reflexivity.
  - apply (H 0); reflexivity.
Defined.

Lemma one_continuation_witness :
  continuations waiting = (if terminal (state (outer waiting)) then 0 else 1) /\
  (state (outer waiting) <> PENDING -> onDiscardCallbacks (outer waiting) = []).
Proof.
  apply (one_continuation slow_iterate slow_body 0 waiting).
  apply steps_reachable with (ls := [(1, Deliver)]). vm_compute. reflexivity.
Defined.

Lemma one_future_in_flight_witness :
  (forall i d, 1 <= i -> futures waiting !! i = Some d -> state d = PENDING ->
     i = iterations (history waiting) /\
     iterations (history waiting) = S (length (bodies (history waiting))) /\
     forall j c, 1 <= j -> conditions waiting !! j = Some c ->
                 state c = READY true) /\
  (forall j c, 1 <= j -> conditions waiting !! j = Some c -> state c = PENDING ->
     j = length (bodies (history waiting)) /\
     iterations (history waiting) = length (bodies (history waiting)) /\
     forall i d, 1 <= i -> futures waiting !! i = Some d ->
                 exists v, state d = READY v).
Proof.
  apply (one_future_in_flight slow_iterate slow_body 0 waiting).
  apply steps_reachable with (ls := [(1, Deliver)]). vm_compute. reflexivity.
Defined.

Lemma result_sound_witness :
  1 <= length (bodies (history counted)) /\
  iterations (history counted) = length (bodies (history counted)) /\
  (exists c, conditions counted !! length (bodies (history counted)) = Some c /\
             state c = READY false) /\
  (forall j c, 1 <= j -> j < length (bodies (history counted)) ->
     conditions counted !! j = Some c -> state c = READY true).
Proof.
  assert (Hr : reachable counting_iterate counting_body (loop 0) counted)
    by (apply steps_reachable with (ls := [(5, Deliver)]);
        vm_compute; reflexivity).
  destruct (result_sound counting_iterate counting_body 0 counted Hr) as [H _].
  apply H. reflexivity.
Defined.

Lemma callables_run_on_pid_witness :
  (executor attached = [] \/ executor attached = [Cleanup]) /\
  (forall fuel l w', l <> Deliver ->
     exec counting_iterate counting_body fuel l attached = Some w' ->
     history w' = history attached).
Proof.
  apply (callables_run_on_pid counting_iterate counting_body 0 attached).
  apply steps_reachable with (ls := [(5, Deliver); (0, Attach)]).
  vm_compute. reflexivity.
Defined.

Lemma bootstrap_first_witness :
  (iterations (history discarded_early) = 0 ->
   exists rest, mailbox discarded_early = Bootstrap :: rest) /\
  (forall rest, mailbox discarded_early = RootDiscard :: rest ->
     1 <= iterations (history discarded_early)).
Proof.
  apply (bootstrap_first counting_iterate deaf_body 0 discarded_early).
  apply steps_reachable with (ls := [(0, DiscardOuter)]). vm_compute. reflexivity.
Defined.

Lemma drain_unbounded_witness :
  exec counting_iterate eager_body 1000 Deliver fresh = None.
Proof.
  apply (drain_unbounded counting_iterate eager_body 0 fresh [] 1000).
  - intros u. exists u. reflexivity.
  - intros v u. reflexivity.
  - apply reachable_start.
  - reflexivity.
Defined.

Lemma refines_do_while_witness :
  do_while counting_iterate counting_body 5 (user fresh) = Some 5 /\
  exists w', exec counting_iterate counting_body 5 Deliver fresh = Some w' /\
             user w' = 5 /\ state (outer w') = READY tt.
Proof.
  split; [reflexivity|].
  apply (refines_do_while counting_iterate counting_body 0 fresh [] 5 5).
  - apply reachable_start.
  - reflexivity.
  - reflexivity.
Defined.

Lemma discard_reaches_in_flight_witness :
  (exists d, conditions deafened !! 1 = Some d /\ state d = PENDING) /\
  (forall i d, 1 <= i -> futures deafened !! i = Some d -> state d = PENDING ->
     hasDiscard d = true /\ reaction d = PENDING) /\
  (forall i d, 1 <= i -> conditions deafened !! i = Some d -> state d = PENDING ->
     hasDiscard d = true /\ reaction d = PENDING).
Proof.
  split; [eexists; split; vm_compute; reflexivity|].
  apply (discard_reaches_in_flight counting_iterate deaf_body 0 deafened).
  - apply steps_reachable
      with (ls := [(0, DiscardOuter); (5, Deliver); (0, Deliver)]).
    vm_compute. reflexivity.
  - reflexivity.
  - vm_compute. intros H. exact H.
Defined.

Lemma discard_propagation_witness :
  exists w1 w3,
    exec counting_iterate patient_body 0 DiscardOuter paused = Some w1 /\
    deliveries counting_iterate patient_body 2 0 w1 = Some w3 /\
    state (outer w3) = DISCARDED /\
    iterations (history w3) = iterations (history paused) /\
    length (bodies (history w3)) = length (bodies (history paused)).
Proof.
  apply (discard_propagation counting_iterate patient_body 0 paused).
  - apply steps_reachable with (ls := [(5, Deliver)]). vm_compute. reflexivity.
  - reflexivity.
  - right. exists 2. eexists. split; [apply le_S, le_n|].
    split; [vm_compute; reflexivity|]. split; reflexivity.
Defined.

Lemma inbox_bounded_witness :
  length (mailbox discarded_early) = 2 /\
  length (wakes discarded_early) <= 1 /\
  length (hooks discarded_early) <= 1 /\
  (hasDiscard (outer discarded_early) = false -> hooks discarded_early = []) /\
  length (mailbox discarded_early) <= 2.
Proof.
  split; [reflexivity|].
  apply (inbox_bounded counting_iterate deaf_body 0 discarded_early).
  apply steps_reachable with (ls := [(0, DiscardOuter)]). vm_compute. reflexivity.
Defined.

Lemma created_store_get_witness :
  cvmfs.StoreProcess_get (Manifest := unit) 3 cvmfs.mounted cvmfs.slashed
    (cvmfs.mkStoreProcess (cvmfs.cvmfs_root cvmfs.flags_cvmfs)) cvmfs.precise
  = READY (cvmfs.mkImageInfo
             [cvmfs.slashed (cvmfs.cvmfs_root cvmfs.flags_cvmfs)
                (cvmfs.repository (cvmfs.cvmfs cvmfs.precise))
                (cvmfs.path (cvmfs.cvmfs cvmfs.precise))] None).
Proof.
  destruct (created_store_get (Manifest := unit) 3 cvmfs.mounted cvmfs.slashed
              cvmfs.flags_cvmfs
              (cvmfs.mkStoreProcess (cvmfs.cvmfs_root cvmfs.flags_cvmfs))
              cvmfs.precise)
    as (_ & _ & _ & H & _).
  - reflexivity.
  - apply H. repeat split; reflexivity.
Defined.
